(** * go-drive: upload / delete orchestration, usage accounting and
      presigned URLs

    A shallow embedding of the orchestration core of the go-drive service
    (packages [bucket], [file] and [presigned]) together with the facts we
    verify about it.

    The Go code talks to two external systems, a PostgreSQL database and a
    MinIO object store.  Both are part of the explicit [World] that every
    operation threads through; the ways in which they can fail, the clock and
    the identifiers drawn by [uuid.New] are supplied by an [Env].  Every call
    that leaves the process is also recorded in a trace, so that statements
    about the order of the calls can be made. *)

From Stdlib Require Import ZArith Ascii String List Permutation Lia.
From stdpp Require Import base gmap strings list fin_maps sorting.

Local Open Scope Z_scope.

(** ** Basic data *)

(** [uuid.UUID], kept in its textual form ([UUID.String]). *)
Abbreviation uuid := string (only parsing).

(** [time.Time] and [time.Duration], both counted in nanoseconds. *)
Abbreviation time := Z (only parsing).

(** Go's [int64]: a [Z] in the range below.  The only arithmetic the services
    perform on it is a unary minus, whose wrap-around is written out. *)
Definition min_int64 : Z := - 2 ^ 63.
Definition max_int64 : Z := 2 ^ 63 - 1.

Definition in_int64 (z : Z) : bool := (min_int64 <=? z) && (z <=? max_int64).

Definition wrap64 (z : Z) : Z := (z + 2 ^ 63) mod 2 ^ 64 - 2 ^ 63.

Definition neg64 (z : Z) : Z := wrap64 (- z).

(** ** Errors *)

(** Go [error] values.  The sentinels of the three packages are constructors;
    [ErrNew] is [errors.New] / [fmt.Errorf] without a wrapped cause, [ErrWrap]
    is [fmt.Errorf("msg: %w", err)], [ErrNoRows] is [pgx.ErrNoRows], [ErrPg] a
    database error with its SQLSTATE code, and [ErrIO] any other failure
    reported by the database driver, the object store or the file system. *)
Inductive error : Type :=
  | ErrBucketNotFound
  | ErrBucketNameExists
  | ErrBucketMismatch
  | ErrFileNotFound
  | ErrFileTooLarge
  | ErrInvalidMethod
  | ErrNoRows
  | ErrPg (code : string)
  | ErrIO (msg : string)
  | ErrNew (msg : string)
  | ErrWrap (msg : string) (cause : error).

#[global] Instance error_eq_dec : EqDecision error.
Proof. solve_decision. Defined.

(** [errors.Is err target]: [err] or one of the errors it wraps is [target]. *)
Fixpoint errors_Is (err target : error) : bool :=
  bool_decide (err = target) ||
  match err with
  | ErrWrap _ cause => errors_Is cause target
  | _ => false
  end.

(** ** Rows and records *)

(** [bucket.UsageStats] (models.go); also the payload of a [bucket_usage] row. *)
Record UsageStats := mkUsage { TotalBytes : Z; FileCount : Z }.

(** A row of table [buckets] (migrations/0001_init.up.sql). *)
Record BucketRow := mkBucketRow {
  row_owner_id : uuid;
  row_name : string;
  row_description : option string;
  row_created_at : time;
  row_updated_at : time
}.

(** [bucket.Bucket] (models.go). *)
Record Bucket := mkBucket {
  Bucket_ID : uuid;
  OwnerID : uuid;
  Name : string;
  Description : option string;
  Bucket_CreatedAt : time;
  Bucket_UpdatedAt : time;
  Usage : UsageStats
}.

(** The checksum column holds [hex.EncodeToString] of the SHA-256 digest of
    the bytes that were streamed; the digest is kept symbolic. *)
Inductive digest := SHA256Hex (streamed : string).

(** [file.Metadata]; also a row of table [files], whose primary key is [ID]
    (the [metadata] JSONB column is always NULL and is left out). *)
Record Metadata := mkMetadata {
  ID : uuid;
  BucketID : uuid;
  ObjectName : string;
  OriginalFilename : string;
  SizeBytes : Z;
  ContentType : string;
  Checksum : digest;
  CreatedAt : time;
  UpdatedAt : time
}.

(** [bucket.FileObject]. *)
Record FileObject := mkFileObject { fo_ObjectName : string; fo_SizeBytes : Z }.

(** A row of table [usage_snapshots]. *)
Record SnapshotRow := mkSnapshot {
  snap_user_id : uuid;
  snap_total_bytes : Z;
  snap_file_count : Z;
  snap_collected_at : time
}.

(** [presigned.Record] and [presigned.AuditRecord], with the fields that
    [GenerateURL] fills in. *)
Record PresignRecord := mkRecord {
  rec_ID : uuid;
  rec_ObjectID : uuid;
  rec_Method : string;
  rec_Expires : time
}.

Record AuditRecord := mkAudit {
  aud_ID : uuid;
  aud_UserID : uuid;
  aud_BucketID : uuid;
  aud_FileID : uuid;
  aud_Method : string;
  aud_ExpiresAt : time;
  aud_CreatedAt : time
}.

(** An object of the object store. *)
Record StoredObject := mkObject { obj_data : string; obj_content_type : string }.

(** ** The world: database tables and object store *)

Record World := mkWorld {
  buckets : gmap string BucketRow;            (* table buckets, by id *)
  files : gmap string Metadata;               (* table files, by id *)
  bucket_usage : gmap string UsageStats;      (* table bucket_usage, by bucket_id *)
  usage_snapshots : list SnapshotRow;         (* table usage_snapshots, append-only *)
  presigned_records : list PresignRecord;     (* issuance records, append-only *)
  presigned_audit : list AuditRecord;         (* audit records, append-only *)
  objects : gmap (string * string) StoredObject  (* object store, by (container, name) *)
}.

Definition empty_world : World :=
  mkWorld ∅ ∅ ∅ [] [] [] ∅.

Definition set_buckets (f : gmap string BucketRow -> gmap string BucketRow) (w : World) : World :=
  mkWorld (f (buckets w)) (files w) (bucket_usage w) (usage_snapshots w)
          (presigned_records w) (presigned_audit w) (objects w).

Definition set_files (f : gmap string Metadata -> gmap string Metadata) (w : World) : World :=
  mkWorld (buckets w) (f (files w)) (bucket_usage w) (usage_snapshots w)
          (presigned_records w) (presigned_audit w) (objects w).

Definition set_bucket_usage (f : gmap string UsageStats -> gmap string UsageStats) (w : World) : World :=
  mkWorld (buckets w) (files w) (f (bucket_usage w)) (usage_snapshots w)
          (presigned_records w) (presigned_audit w) (objects w).

Definition add_snapshot (s : SnapshotRow) (w : World) : World :=
  mkWorld (buckets w) (files w) (bucket_usage w) (usage_snapshots w ++ [s])
          (presigned_records w) (presigned_audit w) (objects w).

Definition add_record (r : PresignRecord) (w : World) : World :=
  mkWorld (buckets w) (files w) (bucket_usage w) (usage_snapshots w)
          (presigned_records w ++ [r]) (presigned_audit w) (objects w).

Definition add_audit (a : AuditRecord) (w : World) : World :=
  mkWorld (buckets w) (files w) (bucket_usage w) (usage_snapshots w)
          (presigned_records w) (presigned_audit w ++ [a]) (objects w).

Definition set_objects
    (f : gmap (string * string) StoredObject -> gmap (string * string) StoredObject)
    (w : World) : World :=
  mkWorld (buckets w) (files w) (bucket_usage w) (usage_snapshots w)
          (presigned_records w) (presigned_audit w) (f (objects w)).

(** ** Calls that leave the process, and their trace *)

Inductive call : Type :=
  | CBucketGet (owner bucket : uuid)
  | CBucketGetByID (bucket : uuid)
  | CBucketDelete (owner bucket : uuid)
  | CUpdateUsage (bucket : uuid) (deltaBytes deltaFiles : Z)
  | CRecordUsageSnapshot (owner : uuid)
  | CFileCreate (file : uuid)
  | CFileGet (owner bucket file : uuid)
  | CFileGetByID (file : uuid)
  | CFileDelete (owner bucket file : uuid)
  | CListObjectsForBucket (bucket : uuid)
  | CScanObjectName (bucket : uuid)       (* [rows.Scan] of that listing *)
  | CIterateObjectNames (bucket : uuid)   (* [rows.Err] of that listing *)
  | COpen
  | CPutObject (container name : string) (size : Z)
  | CGetObject (container name : string)
  | CRemoveObject (container name : string)
  | CPresignedGetObject (container name : string)
  | CPresignedPutObject (container name : string)
  | CSaveRecord (id : uuid)
  | CSaveAudit (id : uuid).

#[global] Instance call_eq_dec : EqDecision call.
Proof. solve_decision. Defined.

(** One entry of the trace: the call and the error it returned, if any. *)
Definition event : Type := call * option error.

(** What the surroundings decide for one request: the clock, the identifiers
    handed out by [uuid.New] (in the order of the calls), the calls that fail
    for reasons of their own (time-out, unreachable service, ...), the size
    the object store reports for a write, and the URL it signs. *)
Record Env := mkEnv {
  now : time;
  fresh : nat -> uuid;
  fails : call -> option error;
  put_size : Z;
  signed_url : string
}.

(** ** The monad of the services: state, error and trace *)

Definition M (A : Type) : Type := World -> (error + A) * World * list event.

Definition ret {A} (a : A) : M A := fun w => (inr a, w, []).

Definition fail {A} (e : error) : M A := fun w => (inl e, w, []).

Definition bind {A B} (m : M A) (k : A -> M B) : M B := fun w =>
  match m w with
  | (inl e, w1, t1) => (inl e, w1, t1)
  | (inr a, w1, t1) =>
      match k a w1 with
      | (r, w2, t2) => (r, w2, t1 ++ t2)
      end
  end.

(** Run [m] and hand its outcome, error or value, to the continuation: the
    shape of Go's [x, err := f(...)]. *)
Definition attempt {A} (m : M A) : M (error + A) := fun w =>
  match m w with
  | (r, w1, t1) => (inr r, w1, t1)
  end.

Notation "x <- m ;; k" := (bind m (fun x => k))
  (at level 100, m at next level, right associativity).
Definition result_of {A} (r : (error + A) * World * list event) : error + A := r.1.1.
Definition world_of {A} (r : (error + A) * World * list event) : World := r.1.2.
Definition trace_of {A} (r : (error + A) * World * list event) : list event := r.2.

Definition err_of {A} (r : error + A) : option error :=
  match r with inl e => Some e | inr _ => None end.

(** A call to an external system: it fails if the surroundings say so, without
    any effect; otherwise [body] gives its outcome and its effect.  Either way
    the call and its outcome are appended to the trace. *)
Definition invoke {A} (env : Env) (c : call) (body : World -> (error + A) * World) : M A :=
  fun w =>
    match fails env c with
    | Some e => (inl e, w, [(c, Some e)])
    | None =>
        match body w with
        | (r, w1) => (r, w1, [(c, err_of r)])
        end
    end.

(** ** Queries outside the trace *)

(** The three places at which a query that returns rows can fail: when it is
    sent, while a row is scanned, and when the rows are closed. *)
Inductive stage := AtQuery | AtScan | AtRows.

(** The queries of the repositories that the calls above do not name.  They
    are not recorded in the trace. *)
Inductive query : Type :=
  | QBucketInsert (owner : uuid) (name : string)
  | QEnsureUsageRow (bucket : uuid)
  | QBucketList (owner : uuid) (at_stage : stage)
  | QFileList (owner bucket : uuid) (at_stage : stage).

(** The queries that fail for reasons of their own, as [fails] for calls. *)
Definition Faults : Type := query -> option error.

Definition no_faults : Faults := fun _ => None.

(** A query that is not traced: it fails if the surroundings say so, without
    any effect; otherwise [body] gives its outcome and its effect. *)
Definition ask {A} (qf : Faults) (q : query) (body : World -> (error + A) * World) : M A :=
  fun w =>
    match qf q with
    | Some e => (inl e, w, [])
    | None =>
        match body w with
        | (r, w1) => (r, w1, [])
        end
    end.

(** The shape of [pool.Query] / [rows.Next] and [rows.Scan] / [rows.Err]: a
    failure of the query, of the scan of a row (there must be one), or of the
    iteration is wrapped with its own message; the world is only read. *)
Definition ask_rows {A} (qf : Faults) (q : stage -> query) (on_query on_scan on_rows : string)
    (rows : World -> list A) : M (list A) :=
  fun w =>
    match qf (q AtQuery) with
    | Some e => (inl (ErrWrap on_query e), w, [])
    | None =>
        match rows w, qf (q AtScan) with
        | _ :: _, Some e => (inl (ErrWrap on_scan e), w, [])
        | _, _ =>
            match qf (q AtRows) with
            | Some e => (inl (ErrWrap on_rows e), w, [])
            | None => (inr (rows w), w, [])
            end
        end
    end.

(** ** strings.TrimSpace *)

Module gostrings.

(** [asciiSpace]: '\t', '\n', '\v', '\f', '\r' and ' '. *)
Definition asciiSpace (a : ascii) : bool :=
  let n := Ascii.N_of_ascii a in
  ((9 <=? n) && (n <=? 13))%N || (n =? 32)%N.

(** The white space of [unicode.IsSpace] beyond ASCII, by its UTF-8
    encoding.  Two bytes: U+0085 (C2 85) and U+00A0 (C2 A0). *)
Definition space2 (a b : ascii) : bool :=
  let x := Ascii.N_of_ascii a in
  let y := Ascii.N_of_ascii b in
  ((x =? 194) && ((y =? 133) || (y =? 160)))%N.

(** Three bytes: U+1680 (E1 9A 80), U+2000 to U+200A (E2 80 80 to E2 80 8A),
    U+2028 (E2 80 A8), U+2029 (E2 80 A9), U+202F (E2 80 AF),
    U+205F (E2 81 9F) and U+3000 (E3 80 80). *)
Definition space3 (a b c : ascii) : bool :=
  let x := Ascii.N_of_ascii a in
  let y := Ascii.N_of_ascii b in
  let z := Ascii.N_of_ascii c in
  (((x =? 225) && (y =? 154) && (z =? 128))
   || ((x =? 226) && (y =? 128) &&
       (((128 <=? z) && (z <=? 138)) || (z =? 168) || (z =? 169) || (z =? 175)))
   || ((x =? 226) && (y =? 129) && (z =? 159))
   || ((x =? 227) && (y =? 128) && (z =? 128)))%N.

(** [TrimLeftFunc(s, unicode.IsSpace)]: runes are decoded from the front; a
    byte that does not start one of the encodings above is not white space. *)
Fixpoint TrimLeftSpace (s : string) : string :=
  match s with
  | EmptyString => EmptyString
  | String a r =>
      if asciiSpace a then TrimLeftSpace r
      else
        match r with
        | String b r2 =>
            if space2 a b then TrimLeftSpace r2
            else
              match r2 with
              | String c r3 => if space3 a b c then TrimLeftSpace r3 else s
              | EmptyString => s
              end
        | EmptyString => s
        end
  end.

(** The same on the reversed string: runes are decoded from the back
    ([utf8.DecodeLastRuneInString]). *)
Fixpoint trimReversed (s : string) : string :=
  match s with
  | EmptyString => EmptyString
  | String a r =>
      if asciiSpace a then trimReversed r
      else
        match r with
        | String b r2 =>
            if space2 b a then trimReversed r2
            else
              match r2 with
              | String c r3 => if space3 c b a then trimReversed r3 else s
              | EmptyString => s
              end
        | EmptyString => s
        end
  end.

Definition reverse (s : string) : string :=
  string_of_list_ascii (rev (list_ascii_of_string s)).

(** [TrimRightFunc(s, unicode.IsSpace)] *)
Definition TrimRightSpace (s : string) : string := reverse (trimReversed (reverse s)).

(** [strings.TrimSpace]: its ASCII fast path and its fall-back both amount to
    trimming on the left, then on the right of what is left. *)
Definition TrimSpace (s : string) : string := TrimRightSpace (TrimLeftSpace s).

End gostrings.

(** ** The object store (MinIO client) *)

Module minio.

(** [PutObject]: the object is written under (container, name); the store
    answers with an [UploadInfo], of which the services read [Size]. *)
Definition PutObject (env : Env) (container name data : string) (objectSize : Z)
    (contentType : string) : M Z :=
  invoke env (CPutObject container name objectSize)
    (fun w => (inr (put_size env),
               set_objects (insert (container, name) (mkObject data contentType)) w)).

(** [RemoveObject]: removing an object that is not there is not an error. *)
Definition RemoveObject (env : Env) (container name : string) : M unit :=
  invoke env (CRemoveObject container name)
    (fun w => (inr tt, set_objects (delete (container, name)) w)).

Definition PresignedGetObject (env : Env) (container name : string) (expiry : time) : M string :=
  invoke env (CPresignedGetObject container name) (fun w => (inr (signed_url env), w)).

Definition PresignedPutObject (env : Env) (container name : string) (expiry : time) : M string :=
  invoke env (CPresignedPutObject container name) (fun w => (inr (signed_url env), w)).

(** [GetObject] hands back a reader.  What is modelled of the reader is the
    bytes it yields: those of the object, or none when there is no such
    object (the read then fails). *)
Definition GetObject (env : Env) (container name : string) : M (option string) :=
  invoke env (CGetObject container name)
    (fun w => (inr (obj_data <$> objects w !! (container, name)), w)).

End minio.

(** ** Package file: the repository (table [files]) *)

Module filerepo.

(** UNIQUE (bucket_id, object_name). *)
Definition object_name_taken (fs : gmap string Metadata) (bucketID : uuid) (name : string) : bool :=
  existsb (fun kv : string * Metadata =>
             bool_decide (BucketID kv.2 = bucketID) && bool_decide (ObjectName kv.2 = name))
          (map_to_list fs).

(** The row stored for a record: [created_at] and [updated_at] default to
    NOW(). *)
Definition stamped (env : Env) (meta : Metadata) : Metadata :=
  mkMetadata (ID meta) (BucketID meta) (ObjectName meta) (OriginalFilename meta)
             (SizeBytes meta) (ContentType meta) (Checksum meta) (now env) (now env).

(** The INSERT of [Create]: primary key, foreign key to [buckets] and the
    uniqueness constraint are checked by the database. *)
Definition insert_file (env : Env) (meta : Metadata) (w : World) : (error + Metadata) * World :=
  match files w !! ID meta with
  | Some _ => (inl (ErrPg "23505"), w)
  | None =>
      match buckets w !! BucketID meta with
      | None => (inl (ErrPg "23503"), w)
      | Some _ =>
          if object_name_taken (files w) (BucketID meta) (ObjectName meta)
          then (inl (ErrPg "23505"), w)
          else (inr (stamped env meta), set_files (insert (ID meta) (stamped env meta)) w)
      end
  end.

(** [Repository.Create] *)
Definition Create (env : Env) (meta : Metadata) : M Metadata :=
  r <- attempt (invoke env (CFileCreate (ID meta)) (insert_file env meta)) ;;
  match r with
  | inl err => fail (ErrWrap "create file metadata" err)
  | inr stored => ret stored
  end.

(** The row selected by [WHERE f.id = $1 AND f.bucket_id = $2 AND
    b.id = f.bucket_id AND b.owner_id = $3] (a join with [buckets]). *)
Definition owned_file (w : World) (ownerID bucketID fileID : uuid) : option Metadata :=
  match files w !! fileID with
  | None => None
  | Some meta =>
      if bool_decide (BucketID meta = bucketID) then
        match buckets w !! BucketID meta with
        | None => None
        | Some row => if bool_decide (row_owner_id row = ownerID) then Some meta else None
        end
      else None
  end.

(** The DELETE ... RETURNING of [Delete]. *)
Definition delete_file (ownerID bucketID fileID : uuid) (w : World) : (error + Metadata) * World :=
  match owned_file w ownerID bucketID fileID with
  | Some meta => (inr meta, set_files (delete fileID) w)
  | None => (inl ErrNoRows, w)
  end.

(** [Repository.Delete]: removes metadata and returns the deleted record. *)
Definition Delete (env : Env) (ownerID bucketID fileID : uuid) : M Metadata :=
  r <- attempt (invoke env (CFileDelete ownerID bucketID fileID)
                       (delete_file ownerID bucketID fileID)) ;;
  match r with
  | inl err =>
      if bool_decide (err = ErrNoRows) then fail ErrFileNotFound
      else fail (ErrWrap "delete file metadata" err)
  | inr meta => ret meta
  end.

(** [SELECT object_name, size_bytes FROM files WHERE bucket_id = $1] *)
Definition objects_of_bucket (w : World) (bucketID : uuid) : list FileObject :=
  map (fun kv : string * Metadata => mkFileObject (ObjectName kv.2) (SizeBytes kv.2))
      (filter (fun kv : string * Metadata => BucketID kv.2 = bucketID) (map_to_list (files w))).

(** [Repository.ListObjectsForBucket] returns object names for external
    cleanup.  The query is the call of the trace; after it the scan of a row
    (when there is one) and the end of the iteration can fail as well, each
    with its own message. *)
Definition ListObjectsForBucket (env : Env) (bucketID : uuid) : M (list FileObject) :=
  r <- attempt (invoke env (CListObjectsForBucket bucketID)
                       (fun w => (inr (objects_of_bucket w bucketID), w))) ;;
  match r with
  | inl err => fail (ErrWrap "list objects for bucket" err)
  | inr objs =>
      match objs, fails env (CScanObjectName bucketID) with
      | _ :: _, Some err => fail (ErrWrap "scan object name" err)
      | _, _ =>
          match fails env (CIterateObjectNames bucketID) with
          | Some err => fail (ErrWrap "iterate object names" err)
          | None => ret objs
          end
      end
  end.

(** [Repository.Get] fetches metadata for a single file ensuring ownership. *)
Definition Get (env : Env) (ownerID bucketID fileID : uuid) : M Metadata :=
  r <- attempt (invoke env (CFileGet ownerID bucketID fileID)
                       (fun w => match owned_file w ownerID bucketID fileID with
                                 | Some meta => (inr meta, w)
                                 | None => (inl ErrNoRows, w)
                                 end)) ;;
  match r with
  | inl err =>
      if bool_decide (err = ErrNoRows) then fail ErrFileNotFound
      else fail (ErrWrap "get file metadata" err)
  | inr meta => ret meta
  end.

(** [ORDER BY f.created_at DESC] *)
Definition newer (m1 m2 : Metadata) : Prop := CreatedAt m2 <= CreatedAt m1.

#[global] Instance newer_dec m1 m2 : Decision (newer m1 m2).
Proof. unfold newer. apply _. Defined.

(** The rows selected by [WHERE f.bucket_id = $1 AND b.owner_id = $2] over
    the join with [buckets], newest first. *)
Definition files_of_owned_bucket (ownerID bucketID : uuid) (w : World) : list Metadata :=
  match buckets w !! bucketID with
  | None => []
  | Some row =>
      if bool_decide (row_owner_id row = ownerID)
      then merge_sort newer
             (map snd (filter (fun kv : string * Metadata => BucketID kv.2 = bucketID)
                              (map_to_list (files w))))
      else []
  end.

(** [Repository.List] returns files owned by the user in a bucket. *)
Definition List (qf : Faults) (ownerID bucketID : uuid) : M (list Metadata) :=
  ask_rows qf (QFileList ownerID bucketID) "list files" "scan file metadata" "iterate files"
           (files_of_owned_bucket ownerID bucketID).

End filerepo.

(** ** Package bucket: the repository (tables [buckets], [bucket_usage],
       [usage_snapshots]) *)

Module bucketrepo.

(** [COALESCE(u.total_bytes, 0), COALESCE(u.file_count, 0)] over the left
    join with [bucket_usage]. *)
Definition usage_of (w : World) (bucketID : uuid) : UsageStats :=
  default (mkUsage 0 0) (bucket_usage w !! bucketID).

Definition select_bucket (ownerID bucketID : uuid) (w : World) : (error + Bucket) * World :=
  match buckets w !! bucketID with
  | Some row =>
      if bool_decide (row_owner_id row = ownerID)
      then (inr (mkBucket bucketID (row_owner_id row) (row_name row) (row_description row)
                          (row_created_at row) (row_updated_at row) (usage_of w bucketID)), w)
      else (inl ErrNoRows, w)
  | None => (inl ErrNoRows, w)
  end.

(** [Repository.Get]: fetches a single bucket ensuring ownership. *)
Definition Get (env : Env) (ownerID bucketID : uuid) : M Bucket :=
  r <- attempt (invoke env (CBucketGet ownerID bucketID) (select_bucket ownerID bucketID)) ;;
  match r with
  | inl err =>
      if errors_Is err ErrNoRows then fail ErrBucketNotFound
      else fail (ErrWrap "get bucket" err)
  | inr b => ret b
  end.

(** [DELETE FROM buckets WHERE id = $1 AND owner_id = $2]; the rows of
    [files] and [bucket_usage] that refer to the bucket go with it
    (ON DELETE CASCADE).  The result is the number of rows affected. *)
Definition delete_bucket (ownerID bucketID : uuid) (w : World) : (error + Z) * World :=
  match buckets w !! bucketID with
  | Some row =>
      if bool_decide (row_owner_id row = ownerID)
      then (inr 1,
            set_bucket_usage (delete bucketID)
              (set_files (filter (fun kv : string * Metadata => BucketID kv.2 <> bucketID))
                 (set_buckets (delete bucketID) w)))
      else (inr 0, w)
  | None => (inr 0, w)
  end.

(** [Repository.Delete] *)
Definition Delete (env : Env) (ownerID bucketID : uuid) : M unit :=
  r <- attempt (invoke env (CBucketDelete ownerID bucketID) (delete_bucket ownerID bucketID)) ;;
  match r with
  | inl err => fail (ErrWrap "delete bucket" err)
  | inr rowsAffected => if rowsAffected =? 0 then fail ErrBucketNotFound else ret tt
  end.

(** The upsert of [UpdateUsage]:
    [INSERT ... VALUES ($1, $2, $3, NOW()) ON CONFLICT (bucket_id) DO UPDATE
     SET total_bytes = GREATEST(bucket_usage.total_bytes + EXCLUDED.total_bytes, 0),
         file_count  = GREATEST(bucket_usage.file_count + EXCLUDED.file_count, 0)].
    The row refers to [buckets]; BIGINT addition out of range is an error. *)
Definition upsert_usage (bucketID : uuid) (deltaBytes deltaFiles : Z) (w : World)
    : (error + unit) * World :=
  match buckets w !! bucketID with
  | None => (inl (ErrPg "23503"), w)
  | Some _ =>
      match bucket_usage w !! bucketID with
      | None => (inr tt, set_bucket_usage (insert bucketID (mkUsage deltaBytes deltaFiles)) w)
      | Some u =>
          if in_int64 (TotalBytes u + deltaBytes) && in_int64 (FileCount u + deltaFiles)
          then (inr tt,
                set_bucket_usage
                  (insert bucketID (mkUsage (Z.max (TotalBytes u + deltaBytes) 0)
                                            (Z.max (FileCount u + deltaFiles) 0))) w)
          else (inl (ErrPg "22003"), w)
      end
  end.

(** [Repository.UpdateUsage]: increments or decrements usage statistics. *)
Definition UpdateUsage (env : Env) (bucketID : uuid) (deltaBytes deltaFiles : Z) : M unit :=
  r <- attempt (invoke env (CUpdateUsage bucketID deltaBytes deltaFiles)
                       (upsert_usage bucketID deltaBytes deltaFiles)) ;;
  match r with
  | inl err => fail (ErrWrap "update usage" err)
  | inr _ => ret tt
  end.

(** The sums of the [stats] query: usage over all buckets of the owner. *)
Definition owner_usage (w : World) (ownerID : uuid) : UsageStats :=
  foldr (fun (kv : string * BucketRow) (acc : UsageStats) =>
           if bool_decide (row_owner_id kv.2 = ownerID)
           then mkUsage (TotalBytes (usage_of w kv.1) + TotalBytes acc)
                        (FileCount (usage_of w kv.1) + FileCount acc)
           else acc)
        (mkUsage 0 0) (map_to_list (buckets w)).

Definition insert_snapshot (env : Env) (ownerID : uuid) (w : World) : (error + unit) * World :=
  let stats := owner_usage w ownerID in
  if in_int64 (TotalBytes stats) && in_int64 (FileCount stats)
  then (inr tt, add_snapshot (mkSnapshot ownerID (TotalBytes stats) (FileCount stats) (now env)) w)
  else (inl (ErrPg "22003"), w).

(** [Repository.RecordUsageSnapshot]: inserts an aggregate usage snapshot
    for the owner. *)
Definition RecordUsageSnapshot (env : Env) (ownerID : uuid) : M unit :=
  r <- attempt (invoke env (CRecordUsageSnapshot ownerID) (insert_snapshot env ownerID)) ;;
  match r with
  | inl err => fail (ErrWrap "record usage snapshot" err)
  | inr _ => ret tt
  end.

(** [errors.As(err, &pgErr)]: the first database error in the chain. *)
Fixpoint as_pg (err : error) : option string :=
  match err with
  | ErrPg code => Some code
  | ErrWrap _ cause => as_pg cause
  | _ => None
  end.

Definition isUniqueViolation (err : error) : bool :=
  match as_pg err with
  | Some code => bool_decide (code = "23505")
  | None => false
  end.

(** UNIQUE (owner_id, name). *)
Definition name_taken (bs : gmap string BucketRow) (ownerID : uuid) (name : string) : bool :=
  existsb (fun kv : string * BucketRow =>
             bool_decide (row_owner_id kv.2 = ownerID) && bool_decide (row_name kv.2 = name))
          (map_to_list bs).

(** The INSERT of [Create], with its primary key and its uniqueness
    constraint; [created_at] and [updated_at] default to NOW().  The owner is
    taken to be a row of table [users], which is not modelled.  The usage of
    the bucket handed back is the zero value: it is not among the columns
    returned. *)
Definition insert_bucket (env : Env) (bucketID ownerID : uuid) (name : string)
    (description : option string) (w : World) : (error + Bucket) * World :=
  match buckets w !! bucketID with
  | Some _ => (inl (ErrPg "23505"), w)
  | None =>
      if name_taken (buckets w) ownerID name then (inl (ErrPg "23505"), w)
      else (inr (mkBucket bucketID ownerID name description (now env) (now env) (mkUsage 0 0)),
            set_buckets (insert bucketID (mkBucketRow ownerID name description (now env) (now env)))
                        w)
  end.

(** [INSERT INTO bucket_usage ... VALUES ($1, 0, 0) ON CONFLICT (bucket_id)
    DO NOTHING] *)
Definition insert_usage_row (bucketID : uuid) (w : World) : (error + unit) * World :=
  match buckets w !! bucketID with
  | None => (inl (ErrPg "23503"), w)
  | Some _ =>
      match bucket_usage w !! bucketID with
      | Some _ => (inr tt, w)
      | None => (inr tt, set_bucket_usage (insert bucketID (mkUsage 0 0)) w)
      end
  end.

Definition ensureUsageRow (qf : Faults) (bucketID : uuid) : M unit :=
  r <- attempt (ask qf (QEnsureUsageRow bucketID) (insert_usage_row bucketID)) ;;
  match r with
  | inl err => fail (ErrWrap "ensure usage row" err)
  | inr _ => ret tt
  end.

(** [Repository.Create] inserts a new bucket for the owner. *)
Definition Create (qf : Faults) (env : Env) (ownerID : uuid) (name : string)
    (description : option string) : M Bucket :=
  let name := gostrings.TrimSpace name in
  let bucketID := fresh env 0 in
  r <- attempt (ask qf (QBucketInsert ownerID name)
                    (insert_bucket env bucketID ownerID name description)) ;;
  match r with
  | inl err =>
      if isUniqueViolation err then fail ErrBucketNameExists
      else fail (ErrWrap "create bucket" err)
  | inr bucket =>
      _ <- ensureUsageRow qf (Bucket_ID bucket) ;;
      ret bucket
  end.

(** [ORDER BY b.created_at DESC] *)
Definition newer (b1 b2 : Bucket) : Prop := Bucket_CreatedAt b2 <= Bucket_CreatedAt b1.

#[global] Instance newer_dec b1 b2 : Decision (newer b1 b2).
Proof. unfold newer. apply _. Defined.

(** A row of [buckets] with its usage, as the left join with [bucket_usage]
    gives it. *)
Definition bucket_of_row (w : World) (kv : string * BucketRow) : Bucket :=
  mkBucket kv.1 (row_owner_id kv.2) (row_name kv.2) (row_description kv.2)
           (row_created_at kv.2) (row_updated_at kv.2) (usage_of w kv.1).

Definition buckets_of_owner (ownerID : uuid) (w : World) : list Bucket :=
  merge_sort newer
    (map (bucket_of_row w)
         (filter (fun kv : string * BucketRow => row_owner_id kv.2 = ownerID)
                 (map_to_list (buckets w)))).

(** [Repository.List] returns all buckets owned by the user. *)
Definition List (qf : Faults) (ownerID : uuid) : M (list Bucket) :=
  ask_rows qf (QBucketList ownerID) "list buckets" "scan bucket" "iterate buckets"
           (buckets_of_owner ownerID).

End bucketrepo.

(** ** Package bucket: the service *)

Module bucket.

(** [bucket.Service].  The repository is {!bucketrepo}, the file index is
    the file repository and the object store is the MinIO client, as wired
    in [main]; [has_files] and [has_objectStore] say that the two fields
    [files] and [objectStore] are not nil. *)
Record Service := mkService {
  has_files : bool;
  has_objectStore : bool;
  objectBucket : string
}.

(** The loop of [deleteObjects]. *)
Fixpoint removeEach (s : Service) (env : Env) (objs : list FileObject) : M unit :=
  match objs with
  | [] => ret tt
  | obj :: rest =>
      r <- attempt (minio.RemoveObject env (objectBucket s) (fo_ObjectName obj)) ;;
      match r with
      | inl err => fail (ErrWrap ("remove object " +:+ fo_ObjectName obj) err)
      | inr _ => removeEach s env rest
      end
  end.

Definition deleteObjects (s : Service) (env : Env) (bucketID : uuid) : M unit :=
  if negb (has_objectStore s) || negb (has_files s) then ret tt
  else
    r <- attempt (filerepo.ListObjectsForBucket env bucketID) ;;
    match r with
    | inl err => fail (ErrWrap "list bucket objects" err)
    | inr objs => removeEach s env objs
    end.

(** [DeleteBucket] removes a bucket, its metadata, and stored objects. *)
Definition DeleteBucket (s : Service) (env : Env) (ownerID bucketID : uuid) : M unit :=
  _ <- bucketrepo.Get env ownerID bucketID ;;
  _ <- deleteObjects s env bucketID ;;
  _ <- bucketrepo.Delete env ownerID bucketID ;;
  _ <- bucketrepo.RecordUsageSnapshot env ownerID ;;
  ret tt.

(** [CreateBucket] creates a new bucket for the owner. *)
Definition CreateBucket (s : Service) (qf : Faults) (env : Env) (ownerID : uuid) (name : string)
    (description : option string) : M Bucket :=
  let name := gostrings.TrimSpace name in
  if bool_decide (name = "") then fail (ErrNew "bucket name required")
  else bucketrepo.Create qf env ownerID name description.

(** [ListBuckets] returns the user's buckets. *)
Definition ListBuckets (s : Service) (qf : Faults) (ownerID : uuid) : M (list Bucket) :=
  bucketrepo.List qf ownerID.

(** [GetBucket] returns a bucket ensuring ownership. *)
Definition GetBucket (s : Service) (env : Env) (ownerID bucketID : uuid) : M Bucket :=
  bucketrepo.Get env ownerID bucketID.

End bucket.

(** ** Package file: the service *)

Module file.

Definition defaultMaxFileSize : Z := 100 * 1024 * 1024.

(** [file.Service]; repository, bucket store and object store are the
    database and the MinIO adapter of the world. *)
Record Service := mkService {
  objectBucket : string;
  maxFileSize : Z
}.

Definition NewService (objectBucket : string) : Service :=
  mkService objectBucket defaultMaxFileSize.

(** What the service reads of a [multipart.FileHeader]: the file name, the
    Content-Type entry of its MIME header (empty when absent), the declared
    size, and the bytes that [Open] gives access to. *)
Record FileHeader := mkFileHeader {
  Filename : string;
  Header_ContentType : string;
  Size : Z;
  content : string
}.

Definition detectContentType (fileHeader : option FileHeader) : string :=
  match fileHeader with
  | None => "application/octet-stream"
  | Some fh =>
      if bool_decide (Header_ContentType fh <> "") then Header_ContentType fh
      else "application/octet-stream"
  end.

Definition sanitizeFilename (name : string) : string :=
  let name := gostrings.TrimSpace name in
  if bool_decide (name = "") then "upload" else name.

Definition translateBucketError (err : error) : error :=
  match err with
  | ErrBucketNotFound => ErrBucketMismatch
  | _ => err
  end.

(** [fileHeader.Open] *)
Definition Open (env : Env) (fh : FileHeader) : M string :=
  invoke env COpen (fun w => (inr (content fh), w)).

(** [Upload] creates metadata and stores the object contents. *)
Definition Upload (s : Service) (env : Env) (ownerID bucketID : uuid)
    (fileHeader : option FileHeader) : M Metadata :=
  match fileHeader with
  | None => fail (ErrNew "missing file payload")
  | Some fh =>
      r <- attempt (bucketrepo.Get env ownerID bucketID) ;;
      match r with
      | inl err => fail (translateBucketError err)
      | inr _ =>
          let size := Size fh in
          if size >? maxFileSize s then fail ErrFileTooLarge
          else
            let fileID := fresh env 0 in
            let objectName := bucketID +:+ "/" +:+ fileID in
            r <- attempt (Open env fh) ;;
            match r with
            | inl err => fail (ErrWrap "open upload file" err)
            | inr data =>
                let contentType := detectContentType fileHeader in
                r <- attempt (minio.PutObject env (objectBucket s) objectName data size
                                              contentType) ;;
                match r with
                | inl err => fail (ErrWrap "store object" err)
                | inr uploadInfo_Size =>
                    let actualSize :=
                      if uploadInfo_Size <=? 0 then size else uploadInfo_Size in
                    if (maxFileSize s >? 0) && (actualSize >? maxFileSize s) then
                      _ <- attempt (minio.RemoveObject env (objectBucket s) objectName) ;;
                      fail ErrFileTooLarge
                    else
                      let checksum := SHA256Hex data in
                      let meta :=
                        mkMetadata fileID bucketID objectName
                                   (sanitizeFilename (Filename fh)) actualSize
                                   contentType checksum 0 0 in
                      r <- attempt (filerepo.Create env meta) ;;
                      match r with
                      | inl err =>
                          _ <- attempt (minio.RemoveObject env (objectBucket s) objectName) ;;
                          fail err
                      | inr stored =>
                          _ <- bucketrepo.UpdateUsage env bucketID (SizeBytes stored) 1 ;;
                          _ <- attempt (bucketrepo.RecordUsageSnapshot env ownerID) ;;
                          ret stored
                      end
                end
            end
      end
  end.

(** [Delete] removes the file from storage and metadata. *)
Definition Delete (s : Service) (env : Env) (ownerID bucketID fileID : uuid) : M unit :=
  meta <- filerepo.Delete env ownerID bucketID fileID ;;
  r <- attempt (minio.RemoveObject env (objectBucket s) (ObjectName meta)) ;;
  match r with
  | inl err => fail (ErrWrap "remove object" err)
  | inr _ =>
      _ <- bucketrepo.UpdateUsage env bucketID (neg64 (SizeBytes meta)) (-1) ;;
      _ <- attempt (bucketrepo.RecordUsageSnapshot env ownerID) ;;
      ret tt
  end.

(** [List] returns file metadata for a user's bucket. *)
Definition List (s : Service) (qf : Faults) (env : Env) (ownerID bucketID : uuid)
    : M (list Metadata) :=
  r <- attempt (bucketrepo.Get env ownerID bucketID) ;;
  match r with
  | inl err => fail (translateBucketError err)
  | inr _ => filerepo.List qf ownerID bucketID
  end.

(** [Download] retrieves metadata and object reader. *)
Definition Download (s : Service) (env : Env) (ownerID bucketID fileID : uuid)
    : M (Metadata * option string) :=
  meta <- filerepo.Get env ownerID bucketID fileID ;;
  r <- attempt (minio.GetObject env (objectBucket s) (ObjectName meta)) ;;
  match r with
  | inl err => fail (ErrWrap "fetch object" err)
  | inr object => ret (meta, object)
  end.

End file.

(** ** Package presigned *)

Module presigned.

(** [err.Error()] *)
Fixpoint Error (err : error) : string :=
  match err with
  | ErrBucketNotFound => "bucket not found"
  | ErrBucketNameExists => "bucket name already exists"
  | ErrBucketMismatch => "bucket mismatch"
  | ErrFileNotFound => "file not found"
  | ErrFileTooLarge => "file too large"
  | ErrInvalidMethod => "invalid method: must be GET or PUT"
  | ErrNoRows => "no rows in result set"
  | ErrPg code => "SQLSTATE " +:+ code
  | ErrIO msg => msg
  | ErrNew msg => msg
  | ErrWrap msg cause => msg +:+ ": " +:+ Error cause
  end.

(** *** The recording service (the [Service] with a repository) *)

Record Service := mkService { ttl : time }.

(** Modelled from the spec: [Repository.SaveRecord] is not among the
    sources; a presigned record is "one row per issued URL ...
    append-only". *)
Definition SaveRecord (env : Env) (rec : PresignRecord) : M unit :=
  invoke env (CSaveRecord (rec_ID rec)) (fun w => (inr tt, add_record rec w)).

(** Modelled from the spec: [Repository.SaveAudit] is not among the
    sources; an audit record is "one row per issued URL ... append-only". *)
Definition SaveAudit (env : Env) (audit : AuditRecord) : M unit :=
  invoke env (CSaveAudit (aud_ID audit)) (fun w => (inr tt, add_audit audit w)).

Definition GenerateURL (s : Service) (env : Env) (bucketName objectName method : string)
    (userID bucketID fileID : uuid) : M (string * PresignRecord * AuditRecord) :=
  if bool_decide (method <> "GET") && bool_decide (method <> "PUT") then fail ErrInvalidMethod
  else
    let expiry := ttl s in
    urlStr <- (if bool_decide (method = "GET")
               then minio.PresignedGetObject env bucketName objectName expiry
               else minio.PresignedPutObject env bucketName objectName expiry) ;;
    let rec := mkRecord (fresh env 0) fileID method (now env + expiry) in
    _ <- SaveRecord env rec ;;
    let audit := mkAudit (fresh env 1) userID bucketID fileID method (rec_Expires rec) (now env) in
    _ <- SaveAudit env audit ;;
    ret (urlStr, rec, audit).

(** *** The access-checking service (the [Service] of the handler) *)

Record ScopeToken := mkScopeToken {
  tok_UserID : string;
  tok_Bucket : string;
  tok_Object : string;
  tok_CanRead : bool;
  tok_CanWrite : bool;
  tok_ExpiresAt : time
}.

Record AccessService := mkAccessService { access_ttl : time }.

Definition ValidateOwnership (userID ownerID : string) : bool :=
  bool_decide (userID = ownerID).

(** [time.Now().After(token.ExpiresAt)] is [now env >? tok_ExpiresAt token]. *)
Definition ValidateScope (env : Env) (token : ScopeToken) (bucket object : string)
    (write : bool) : bool :=
  if now env >? tok_ExpiresAt token then false
  else if bool_decide (tok_Bucket token <> bucket) then false
  else if bool_decide (tok_Object token <> object) then false
  else if write && negb (tok_CanWrite token) then false
  else if negb write && negb (tok_CanRead token) then false
  else true.

Definition GenerateGetURL (s : AccessService) (env : Env) (bucket object : string) : M string :=
  minio.PresignedGetObject env bucket object (access_ttl s).

Definition GeneratePutURL (s : AccessService) (env : Env) (bucket object : string) : M string :=
  minio.PresignedPutObject env bucket object (access_ttl s).

Definition GeneratePresignedWithAccessCheck (s : AccessService) (env : Env)
    (bucket object userID ownerID : string) (scope : option ScopeToken) (write : bool)
    : M string :=
  if match scope with
     | Some token => negb (ValidateScope env token bucket object write)
     | None => false
     end
  then fail (ErrNew "access denied: invalid scope token")
  else if negb (ValidateOwnership userID ownerID)
  then fail (ErrNew "access denied: not the owner")
  else if write then GeneratePutURL s env bucket object
  else GenerateGetURL s env bucket object.

(** *** The HTTP handler *)

(** What the handler reads of the [gin.Context]: the two path parameters,
    the string [c.GetString] finds under the key [userID], and the query
    parameters [method] (absent or given) and [ttl] (empty when absent). *)
Record Request := mkRequest {
  param_bucketID : string;
  param_fileID : string;
  ctx_userID : string;
  query_method : option string;
  query_ttl : string
}.

(** The JSON answer: a status code with either an error message or the
    triple url / method / expires. *)
Inductive Body :=
  | ErrorBody (message : string)
  | URLBody (url method : string) (expires : time).

Record Response := mkResponse { status : Z; body : Body }.

(** Modelled from the spec: [BucketRepository.GetBucketByID] has no
    implementation among the sources; the bucket is resolved "by id (not by
    ownership filter)". *)
Definition GetBucketByID (env : Env) (bucketID : uuid) : M Bucket :=
  invoke env (CBucketGetByID bucketID)
    (fun w => match buckets w !! bucketID with
              | Some row =>
                  (inr (mkBucket bucketID (row_owner_id row) (row_name row)
                                 (row_description row) (row_created_at row)
                                 (row_updated_at row) (bucketrepo.usage_of w bucketID)), w)
              | None => (inl ErrBucketNotFound, w)
              end).

(** Modelled from the spec: [FileRepository.GetFileByID] has no
    implementation among the sources; the file is resolved "by id (not by
    ownership filter)". *)
Definition GetFileByID (env : Env) (fileID : uuid) : M Metadata :=
  invoke env (CFileGetByID fileID)
    (fun w => match files w !! fileID with
              | Some meta => (inr meta, w)
              | None => (inl ErrFileNotFound, w)
              end).

Section handler.

(** [uuid.Parse] and [time.ParseDuration], of the libraries. *)
Variable uuid_Parse : string -> option uuid.
Variable time_ParseDuration : string -> option time.

Definition respond (code : Z) (message : string) : M Response :=
  ret (mkResponse code (ErrorBody message)).

Definition GeneratePresignedURL (s : AccessService) (env : Env) (c : Request) : M Response :=
  let bucketID := param_bucketID c in
  let fileID := param_fileID c in
  let userID := ctx_userID c in
  let method := default "GET" (query_method c) in
  let ttlParam := query_ttl c in
  match (if bool_decide (ttlParam <> "") then time_ParseDuration ttlParam
         else Some (access_ttl s)) with
  | None => respond 400 "invalid ttl"
  | Some ttl =>
      match uuid_Parse bucketID with
      | None => respond 400 "invalid bucketID"
      | Some bucketUUID =>
          match uuid_Parse fileID with
          | None => respond 400 "invalid fileID"
          | Some fileUUID =>
              r <- attempt (GetBucketByID env bucketUUID) ;;
              match r with
              | inl _ => respond 404 "bucket not found"
              | inr bucket =>
                  r <- attempt (GetFileByID env fileUUID) ;;
                  match r with
                  | inl _ => respond 404 "file not found"
                  | inr file =>
                      if bool_decide (OwnerID bucket <> userID)
                      then respond 403 "no access to bucket"
                      else if bool_decide (BucketID file <> Bucket_ID bucket)
                      then respond 400 "file does not belong to this bucket"
                      else
                        let isPut := bool_decide (method = "PUT") in
                        r <- attempt (GeneratePresignedWithAccessCheck s env
                                        (Name bucket) (ObjectName file) userID
                                        (OwnerID bucket) None isPut) ;;
                        match r with
                        | inl err => respond 403 (Error err)
                        | inr url =>
                            ret (mkResponse 200 (URLBody url method (now env + ttl)))
                        end
                  end
              end
          end
      end
  end.

End handler.

End presigned.

(** ** The keys of a request context *)

Module gin.

(** What the program keeps under a key of the context ([c.Set]): a string,
    or the user of the request. *)
Inductive value (U : Type) :=
  | StringValue (s : string)
  | UserValue (u : U).

Arguments StringValue {U} s.
Arguments UserValue {U} u.

(** [c.GetString]: the value under the key when there is one and it is a
    string, the empty string otherwise. *)
Definition GetString {U} (keys : gmap string (value U)) (key : string) : string :=
  match keys !! key with
  | Some (StringValue s) => s
  | _ => ""
  end.

End gin.

(** ** Package auth: the user of a request *)

Module auth.

(** [ContextUser] represents the authenticated principal stored in the
    request context. *)
Record ContextUser := mkContextUser { cu_ID : string; cu_Email : string; cu_IsAdmin : bool }.

Abbreviation Keys := (gmap string (gin.value ContextUser)).

Definition userContextKey : string := "godriveUser".

(** What the middleware reads of [UserClaims]. *)
Record UserClaims := mkUserClaims {
  claims_UserID : uuid;
  claims_Email : string;
  claims_IsAdmin : bool
}.

Section middleware.

(** [strings.ToLower], of the library, and [Service.ValidateAccessToken],
    which verifies the signature of the token. *)
Variable strings_ToLower : string -> string.
Variable ValidateAccessToken : string -> option UserClaims.

Definition extractBearerToken (header : string) : string :=
  if negb (String.prefix "bearer " (strings_ToLower header)) then ""
  else gostrings.TrimSpace (String.substring 7 (String.length header - 7) header).

(** [AuthMiddleware] validates bearer tokens and injects the authenticated
    user: it aborts the request with a status and a message, or hands the
    context on with the user under [userContextKey]. *)
Definition AuthMiddleware (authHeader : string) (keys : Keys) : (Z * string) + Keys :=
  if bool_decide (authHeader = "") then inl (401, "missing authorization header")
  else
    let token := extractBearerToken authHeader in
    if bool_decide (token = "") then inl (401, "invalid authorization header")
    else
      match ValidateAccessToken token with
      | None => inl (401, "invalid or expired token")
      | Some claims =>
          inr (<[userContextKey :=
                   gin.UserValue (mkContextUser (claims_UserID claims) (claims_Email claims)
                                                (claims_IsAdmin claims))]> keys)
      end.

End middleware.

(** [CurrentUser] extracts the authenticated user from the context. *)
Definition CurrentUser (keys : Keys) : option ContextUser :=
  match keys !! userContextKey with
  | Some (gin.UserValue u) => Some u
  | _ => None
  end.

Section require.

Variable uuid_Parse : string -> option uuid.

(** [RequireUser] fetches the authenticated user and parses the identifier.
    [user] is what [CurrentUser] finds in the context, if anything. *)
Definition RequireUser (user : option ContextUser) : option (uuid * ContextUser) :=
  match user with
  | None => None
  | Some u =>
      match uuid_Parse (cu_ID u) with
      | None => None
      | Some id => Some (id, u)
      end
  end.

End require.

End auth.

(** ** Package bucket: the HTTP handlers *)

Module bucket_http.

Record createBucketRequest := mkCreateBucketRequest {
  req_Name : string;
  req_Description : option string
}.

(** What a handler reads of the [gin.Context]: the user the middleware
    stored, the path parameter, and what [ShouldBindJSON] makes of the
    body. *)
Record Context := mkContext {
  ctx_user : option auth.ContextUser;
  param_bucketID : string;
  bound_json : error + createBucketRequest
}.

(** What a handler writes: [c.JSON(code, ...)] or [c.Status(code)]. *)
Inductive Payload :=
  | ErrorJSON (message : string)
  | BucketJSON (b : Bucket)
  | BucketsJSON (l : list Bucket).

Inductive Reply :=
  | JSON (code : Z) (payload : Payload)
  | Status (code : Z).

Definition code_of (r : Reply) : Z :=
  match r with JSON code _ => code | Status code => code end.

Section handlers.

Variable uuid_Parse : string -> option uuid.

Definition createBucket (s : bucket.Service) (qf : Faults) (env : Env) (c : Context) : M Reply :=
  match auth.RequireUser uuid_Parse (ctx_user c) with
  | None => ret (JSON 401 (ErrorJSON "unauthorized"))
  | Some (userID, _) =>
      match bound_json c with
      | inl err => ret (JSON 400 (ErrorJSON (presigned.Error err)))
      | inr req =>
          r <- attempt (bucket.CreateBucket s qf env userID (req_Name req) (req_Description req)) ;;
          match r with
          | inl ErrBucketNameExists => ret (JSON 409 (ErrorJSON "bucket name already exists"))
          | inl _ => ret (JSON 500 (ErrorJSON "failed to create bucket"))
          | inr b => ret (JSON 201 (BucketJSON b))
          end
      end
  end.

Definition listBuckets (s : bucket.Service) (qf : Faults) (c : Context) : M Reply :=
  match auth.RequireUser uuid_Parse (ctx_user c) with
  | None => ret (JSON 401 (ErrorJSON "unauthorized"))
  | Some (userID, _) =>
      r <- attempt (bucket.ListBuckets s qf userID) ;;
      match r with
      | inl _ => ret (JSON 500 (ErrorJSON "failed to list buckets"))
      | inr l => ret (JSON 200 (BucketsJSON l))
      end
  end.

Definition getBucket (s : bucket.Service) (env : Env) (c : Context) : M Reply :=
  match auth.RequireUser uuid_Parse (ctx_user c) with
  | None => ret (JSON 401 (ErrorJSON "unauthorized"))
  | Some (userID, _) =>
      match uuid_Parse (param_bucketID c) with
      | None => ret (JSON 400 (ErrorJSON "invalid bucket id"))
      | Some bucketID =>
          r <- attempt (bucket.GetBucket s env userID bucketID) ;;
          match r with
          | inl ErrBucketNotFound => ret (JSON 404 (ErrorJSON "bucket not found"))
          | inl _ => ret (JSON 500 (ErrorJSON "failed to fetch bucket"))
          | inr b => ret (JSON 200 (BucketJSON b))
          end
      end
  end.

Definition deleteBucket (s : bucket.Service) (env : Env) (c : Context) : M Reply :=
  match auth.RequireUser uuid_Parse (ctx_user c) with
  | None => ret (JSON 401 (ErrorJSON "unauthorized"))
  | Some (userID, _) =>
      match uuid_Parse (param_bucketID c) with
      | None => ret (JSON 400 (ErrorJSON "invalid bucket id"))
      | Some bucketID =>
          r <- attempt (bucket.DeleteBucket s env userID bucketID) ;;
          match r with
          | inl ErrBucketNotFound => ret (JSON 404 (ErrorJSON "bucket not found"))
          | inl _ => ret (JSON 500 (ErrorJSON "failed to delete bucket"))
          | inr _ => ret (Status 204)
          end
      end
  end.

End handlers.

End bucket_http.

(** ** Package file: the HTTP handlers *)

Module file_http.

(** What a handler reads of the [gin.Context]: the user the middleware
    stored, the two path parameters, and the form file, if there is one. *)
Record Context := mkContext {
  ctx_user : option auth.ContextUser;
  param_bucketID : string;
  param_fileID : string;
  form_file : option file.FileHeader
}.

(** What a handler writes: [c.JSON(code, ...)], [c.Status(code)], or the
    three headers of a download followed by the bytes copied from the
    reader; [Content-Disposition] is [attachment; filename=] with the
    quoted [filename]. *)
Inductive Payload :=
  | ErrorJSON (message : string)
  | MetadataJSON (m : Metadata)
  | FilesJSON (l : list Metadata).

Inductive Reply :=
  | JSON (code : Z) (payload : Payload)
  | Status (code : Z)
  | Attachment (code : Z) (contentType filename : string) (contentLength : Z) (data : string).

Definition code_of (r : Reply) : Z :=
  match r with JSON code _ => code | Status code => code | Attachment code _ _ _ _ => code end.

Section handlers.

Variable uuid_Parse : string -> option uuid.

Definition uploadFile (s : file.Service) (env : Env) (c : Context) : M Reply :=
  match auth.RequireUser uuid_Parse (ctx_user c) with
  | None => ret (JSON 401 (ErrorJSON "unauthorized"))
  | Some (userID, _) =>
      match uuid_Parse (param_bucketID c) with
      | None => ret (JSON 400 (ErrorJSON "invalid bucket id"))
      | Some bucketID =>
          match form_file c with
          | None => ret (JSON 400 (ErrorJSON "file field is required"))
          | Some fileHeader =>
              r <- attempt (file.Upload s env userID bucketID (Some fileHeader)) ;;
              match r with
              | inl ErrBucketMismatch => ret (JSON 404 (ErrorJSON "bucket not found"))
              | inl ErrFileTooLarge => ret (JSON 400 (ErrorJSON "file too large"))
              | inl _ => ret (JSON 500 (ErrorJSON "failed to upload file"))
              | inr meta => ret (JSON 201 (MetadataJSON meta))
              end
          end
      end
  end.

Definition listFiles (s : file.Service) (qf : Faults) (env : Env) (c : Context) : M Reply :=
  match auth.RequireUser uuid_Parse (ctx_user c) with
  | None => ret (JSON 401 (ErrorJSON "unauthorized"))
  | Some (userID, _) =>
      match uuid_Parse (param_bucketID c) with
      | None => ret (JSON 400 (ErrorJSON "invalid bucket id"))
      | Some bucketID =>
          r <- attempt (file.List s qf env userID bucketID) ;;
          match r with
          | inl ErrBucketMismatch => ret (JSON 404 (ErrorJSON "bucket not found"))
          | inl _ => ret (JSON 500 (ErrorJSON "failed to list files"))
          | inr l => ret (JSON 200 (FilesJSON l))
          end
      end
  end.


Definition deleteFile (s : file.Service) (env : Env) (c : Context) : M Reply :=
  match auth.RequireUser uuid_Parse (ctx_user c) with
  | None => ret (JSON 401 (ErrorJSON "unauthorized"))
  | Some (userID, _) =>
      match uuid_Parse (param_bucketID c) with
      | None => ret (JSON 400 (ErrorJSON "invalid bucket id"))
      | Some bucketID =>
          match uuid_Parse (param_fileID c) with
          | None => ret (JSON 400 (ErrorJSON "invalid file id"))
          | Some fileID =>
              r <- attempt (file.Delete s env userID bucketID fileID) ;;
              match r with
              | inl ErrFileNotFound => ret (JSON 404 (ErrorJSON "file not found"))
              | inl ErrBucketMismatch => ret (JSON 404 (ErrorJSON "bucket not found"))
              | inl _ => ret (JSON 500 (ErrorJSON "failed to delete file"))
              | inr _ => ret (Status 204)
              end
          end
      end
  end.

End handlers.

End file_http.

(** The request of the presigned handler in a context with these keys. *)
Definition presigned_request (keys : auth.Keys) (bucketID fileID : string)
    (method : option string) (ttl : string) : presigned.Request :=
  presigned.mkRequest bucketID fileID (gin.GetString keys "userID") method ttl.

(** ** A small scenario *)

Module scenario.

Definition U : uuid := "00000000-0000-0000-0000-0000000000a1".
Definition docs : uuid := "00000000-0000-0000-0000-0000000000b1".
Definition f1 : uuid := "00000000-0000-0000-0000-0000000000f1".

Definition w0 : World :=
  set_bucket_usage (insert docs (mkUsage 0 0))
    (set_buckets (insert docs (mkBucketRow U "docs" None 1 1)) empty_world).

Definition calm : Env := mkEnv 5 (fun _ => f1) (fun _ => None) 11 "https://minio/signed".

Definition svc : file.Service := file.NewService "godrive".

Definition hello : file.FileHeader := file.mkFileHeader "notes.txt" "text/plain" 11 "hello world".

End scenario.

(** * Specification vocabulary *)

(** The usage row after the upsert of [UpdateUsage]. *)
Definition usage_after (old : option UsageStats) (deltaBytes deltaFiles : Z) : UsageStats :=
  match old with
  | None => mkUsage deltaBytes deltaFiles
  | Some u => mkUsage (Z.max (TotalBytes u + deltaBytes) 0) (Z.max (FileCount u + deltaFiles) 0)
  end.

(** ** The paths of [Upload] *)

Section upload_paths.

Variables (s : file.Service) (env : Env) (o b : uuid) (fh : file.FileHeader).

Definition upload_id : uuid := fresh env 0.
Definition upload_name : string := b +:+ "/" +:+ upload_id.
Definition upload_ctype : string := file.detectContentType (Some fh).

(** The size that ends up in the metadata. *)
Definition upload_actual : Z :=
  if put_size env <=? 0 then file.Size fh else put_size env.

(** The record handed to [Create], and the row the database stores. *)
Definition upload_meta : Metadata :=
  mkMetadata upload_id b upload_name (file.sanitizeFilename (file.Filename fh))
             upload_actual upload_ctype (SHA256Hex (file.content fh)) 0 0.
Definition upload_row : Metadata := filerepo.stamped env upload_meta.

Definition ev_get : event := (CBucketGet o b, None).
Definition ev_open : event := (COpen, None).
Definition ev_put : event := (CPutObject (file.objectBucket s) upload_name (file.Size fh), None).
Definition ev_remove : event :=
  (CRemoveObject (file.objectBucket s) upload_name,
   fails env (CRemoveObject (file.objectBucket s) upload_name)).
Definition ev_create (r : option error) : event := (CFileCreate upload_id, r).
Definition ev_usage (r : option error) : event := (CUpdateUsage b upload_actual 1, r).
Definition ev_snapshot (r : option error) : event := (CRecordUsageSnapshot o, r).

(** The world once the object is written, and once the compensating
    removal has been tried. *)
Definition written (w : World) : World :=
  set_objects (insert (file.objectBucket s, upload_name)
                      (mkObject (file.content fh) upload_ctype)) w.
Definition compensated (w : World) : World :=
  match fails env (CRemoveObject (file.objectBucket s) upload_name) with
  | Some _ => written w
  | None => set_objects (delete (file.objectBucket s, upload_name)) (written w)
  end.

Definition too_large (size : Z) : Prop := 0 < file.maxFileSize s /\ file.maxFileSize s < size.

(** Every run of [Upload] on a payload follows one of these eight paths. *)
Inductive upload_path (w : World) : (error + Metadata) * World * list event -> Prop :=
  | up_no_bucket e raw :
      bucketrepo.Get env o b w = (inl e, w, [(CBucketGet o b, Some raw)]) ->
      upload_path w (inl (file.translateBucketError e), w, [(CBucketGet o b, Some raw)])
  | up_declared_too_large :
      fails env (CBucketGet o b) = None -> is_Some (buckets w !! b) ->
      file.maxFileSize s < file.Size fh ->
      upload_path w (inl ErrFileTooLarge, w, [ev_get])
  | up_open_failed e :
      fails env (CBucketGet o b) = None -> is_Some (buckets w !! b) ->
      file.Size fh <= file.maxFileSize s ->
      fails env COpen = Some e ->
      upload_path w (inl (ErrWrap "open upload file" e), w, [ev_get; (COpen, Some e)])
  | up_put_failed e :
      fails env (CBucketGet o b) = None -> is_Some (buckets w !! b) ->
      file.Size fh <= file.maxFileSize s ->
      fails env COpen = None ->
      fails env (CPutObject (file.objectBucket s) upload_name (file.Size fh)) = Some e ->
      upload_path w (inl (ErrWrap "store object" e), w,
                     [ev_get; ev_open;
                      (CPutObject (file.objectBucket s) upload_name (file.Size fh), Some e)])
  | up_written_too_large :
      fails env (CBucketGet o b) = None -> is_Some (buckets w !! b) ->
      file.Size fh <= file.maxFileSize s ->
      fails env COpen = None ->
      fails env (CPutObject (file.objectBucket s) upload_name (file.Size fh)) = None ->
      too_large upload_actual ->
      upload_path w (inl ErrFileTooLarge, compensated w, [ev_get; ev_open; ev_put; ev_remove])
  | up_create_failed raw :
      fails env (CBucketGet o b) = None -> is_Some (buckets w !! b) ->
      file.Size fh <= file.maxFileSize s ->
      fails env COpen = None ->
      fails env (CPutObject (file.objectBucket s) upload_name (file.Size fh)) = None ->
      ~ too_large upload_actual ->
      filerepo.Create env upload_meta (written w) =
        (inl (ErrWrap "create file metadata" raw), written w, [ev_create (Some raw)]) ->
      upload_path w (inl (ErrWrap "create file metadata" raw), compensated w,
                     [ev_get; ev_open; ev_put; ev_create (Some raw); ev_remove])
  | up_usage_failed raw :
      fails env (CBucketGet o b) = None -> is_Some (buckets w !! b) ->
      file.Size fh <= file.maxFileSize s ->
      fails env COpen = None ->
      fails env (CPutObject (file.objectBucket s) upload_name (file.Size fh)) = None ->
      ~ too_large upload_actual ->
      files w !! upload_id = None ->
      fails env (CFileCreate upload_id) = None ->
      bucketrepo.UpdateUsage env b upload_actual 1 (set_files (insert upload_id upload_row) (written w)) =
        (inl (ErrWrap "update usage" raw), set_files (insert upload_id upload_row) (written w),
         [ev_usage (Some raw)]) ->
      upload_path w (inl (ErrWrap "update usage" raw),
                     set_files (insert upload_id upload_row) (written w),
                     [ev_get; ev_open; ev_put; ev_create None; ev_usage (Some raw)])
  | up_stored r w1 snap :
      fails env (CBucketGet o b) = None -> is_Some (buckets w !! b) ->
      file.Size fh <= file.maxFileSize s ->
      fails env COpen = None ->
      fails env (CPutObject (file.objectBucket s) upload_name (file.Size fh)) = None ->
      ~ too_large upload_actual ->
      files w !! upload_id = None ->
      fails env (CFileCreate upload_id) = None ->
      fails env (CUpdateUsage b upload_actual 1) = None ->
      bucketrepo.RecordUsageSnapshot env o
        (set_bucket_usage (insert b (usage_after (bucket_usage w !! b) upload_actual 1))
           (set_files (insert upload_id upload_row) (written w))) = (r, w1, [ev_snapshot snap]) ->
      buckets w1 = buckets w ->
      files w1 = <[upload_id := upload_row]> (files w) ->
      bucket_usage w1 = <[b := usage_after (bucket_usage w !! b) upload_actual 1]> (bucket_usage w) ->
      objects w1 = <[(file.objectBucket s, upload_name) :=
                      mkObject (file.content fh) upload_ctype]> (objects w) ->
      upload_path w (inr upload_row, w1,
                     [ev_get; ev_open; ev_put; ev_create None; ev_usage None; ev_snapshot snap]).

End upload_paths.

(** ** The paths of [Delete] *)

Section delete_paths.

Variables (s : file.Service) (env : Env) (o b f : uuid).

Definition ev_delete (r : option error) : event := (CFileDelete o b f, r).
Definition ev_unlink (meta : Metadata) (r : option error) : event :=
  (CRemoveObject (file.objectBucket s) (ObjectName meta), r).
Definition ev_release (meta : Metadata) (r : option error) : event :=
  (CUpdateUsage b (neg64 (SizeBytes meta)) (-1), r).

(** The world once the row is gone, and once the object is gone as well. *)
Definition unlisted (w : World) : World := set_files (delete f) w.
Definition unlinked (meta : Metadata) (w : World) : World :=
  set_objects (delete (file.objectBucket s, ObjectName meta)) (unlisted w).

(** Every run of [Delete] follows one of these four paths. *)
Inductive delete_path (w : World) : (error + unit) * World * list event -> Prop :=
  | dp_not_deleted e raw :
      filerepo.Delete env o b f w = (inl e, w, [ev_delete (Some raw)]) ->
      (fails env (CFileDelete o b f) = None ->
       filerepo.owned_file w o b f = None /\ e = ErrFileNotFound) ->
      delete_path w (inl e, w, [ev_delete (Some raw)])
  | dp_remove_failed meta e :
      filerepo.owned_file w o b f = Some meta ->
      fails env (CFileDelete o b f) = None ->
      fails env (CRemoveObject (file.objectBucket s) (ObjectName meta)) = Some e ->
      delete_path w (inl (ErrWrap "remove object" e), unlisted w,
                     [ev_delete None; ev_unlink meta (Some e)])
  | dp_usage_failed meta raw :
      filerepo.owned_file w o b f = Some meta ->
      fails env (CFileDelete o b f) = None ->
      fails env (CRemoveObject (file.objectBucket s) (ObjectName meta)) = None ->
      delete_path w (inl (ErrWrap "update usage" raw), unlinked meta w,
                     [ev_delete None; ev_unlink meta None; ev_release meta (Some raw)])
  | dp_deleted meta r w1 snap :
      filerepo.owned_file w o b f = Some meta ->
      fails env (CFileDelete o b f) = None ->
      fails env (CRemoveObject (file.objectBucket s) (ObjectName meta)) = None ->
      fails env (CUpdateUsage b (neg64 (SizeBytes meta)) (-1)) = None ->
      bucketrepo.RecordUsageSnapshot env o
        (set_bucket_usage
           (insert b (usage_after (bucket_usage w !! b) (neg64 (SizeBytes meta)) (-1)))
           (unlinked meta w)) = (r, w1, [(CRecordUsageSnapshot o, snap)]) ->
      buckets w1 = buckets w ->
      files w1 = delete f (files w) ->
      bucket_usage w1 =
        <[b := usage_after (bucket_usage w !! b) (neg64 (SizeBytes meta)) (-1)]> (bucket_usage w) ->
      objects w1 = delete (file.objectBucket s, ObjectName meta) (objects w) ->
      delete_path w (inr tt, w1,
                     [ev_delete None; ev_unlink meta None; ev_release meta None;
                      (CRecordUsageSnapshot o, snap)]).

End delete_paths.


(** ** Surroundings of the scenario in which one call misbehaves *)

Module faults.

Import scenario.

Definition f1_object : string := docs +:+ "/" +:+ f1.

(** The store accepts the write but reports no size. *)
Definition silent_store : Env :=
  mkEnv 5 (fun _ => f1) (fun _ => None) 0 "https://minio/signed".

(** The store reports one byte more than the limit, and the removal that
    follows times out. *)
Definition oversize_stuck : Env :=
  mkEnv 5 (fun _ => f1)
        (fun c => match c with
                  | CRemoveObject _ _ => Some (ErrIO "context deadline exceeded")
                  | _ => None
                  end)
        (file.defaultMaxFileSize + 1) "https://minio/signed".

(** As above, with a removal that works. *)
Definition oversize : Env :=
  mkEnv 5 (fun _ => f1) (fun _ => None) (file.defaultMaxFileSize + 1) "https://minio/signed".

(** The insert into [usage_snapshots] fails. *)
Definition snapshot_down : Env :=
  mkEnv 5 (fun _ => f1)
        (fun c => match c with
                  | CRecordUsageSnapshot _ => Some (ErrIO "context deadline exceeded")
                  | _ => None
                  end)
        11 "https://minio/signed".

(** The upsert into [bucket_usage] fails. *)
Definition usage_down : Env :=
  mkEnv 5 (fun _ => f1)
        (fun c => match c with
                  | CUpdateUsage _ _ _ => Some (ErrIO "context deadline exceeded")
                  | _ => None
                  end)
        11 "https://minio/signed".

(** The insert into [files] fails, and so does the removal that follows. *)
Definition create_down : Env :=
  mkEnv 5 (fun _ => f1)
        (fun c => match c with
                  | CFileCreate _ => Some (ErrIO "connection reset")
                  | CRemoveObject _ _ => Some (ErrIO "context deadline exceeded")
                  | _ => None
                  end)
        11 "https://minio/signed".

(** Any removal from the object store fails. *)
Definition remove_down : Env :=
  mkEnv 6 (fun _ => f1)
        (fun c => match c with
                  | CRemoveObject _ _ => Some (ErrIO "context deadline exceeded")
                  | _ => None
                  end)
        11 "https://minio/signed".

(** The row that the upload of [hello] stores. *)
Definition hello_row : Metadata :=
  mkMetadata f1 docs f1_object "notes.txt" 11 "text/plain" (SHA256Hex "hello world") 5 5.

(** A payload that declares one byte more than the limit. *)
Definition huge : file.FileHeader :=
  file.mkFileHeader "huge.bin" "" (file.defaultMaxFileSize + 1) "".

End faults.

(** The scenario once [hello] has been uploaded. *)
Definition w1 : World :=
  world_of (file.Upload scenario.svc scenario.calm scenario.U scenario.docs
                        (Some scenario.hello) scenario.w0).

(** A second file in the bucket of the scenario. *)
Definition f2 : uuid := "00000000-0000-0000-0000-0000000000f2".

Definition second : Env := mkEnv 6 (fun _ => f2) (fun _ => None) 3 "https://minio/signed".

Definition w2 : World :=
  world_of (file.Upload scenario.svc second scenario.U scenario.docs
              (Some (file.mkFileHeader "b.txt" "" 3 "abc")) w1).

(** The bucket service as [main] builds it. *)
Definition bsvc : bucket.Service := bucket.mkService true true "godrive".

(** Removals fail for the object of [f2] only. *)
Definition f2_stuck : Env :=
  mkEnv 7 (fun _ => f2)
        (fun c => match c with
                  | CRemoveObject _ n =>
                      if bool_decide (n = scenario.docs +:+ "/" +:+ f2)
                      then Some (ErrIO "context deadline exceeded") else None
                  | _ => None
                  end)
        0 "https://minio/signed".

(** A scope token for reading the object of [f1], valid until time 100. *)
Definition read_token : presigned.ScopeToken :=
  presigned.mkScopeToken scenario.U "docs" faults.f1_object true false 100.

Definition late : Env := mkEnv 101 (fun _ => f2) (fun _ => None) 0 "https://minio/signed".

Definition asvc : presigned.AccessService := presigned.mkAccessService 900.

(** The two library parsers on the requests of the scenario: its identifiers
    are in the canonical 36-character form, which [uuid.Parse] hands back as
    it is, and no request carries a [ttl]. *)
Definition parse_canonical (s : string) : option uuid :=
  if (String.length s =? 36)%nat then Some s else None.

Definition no_duration (s : string) : option time := None.

Definition rsvc : presigned.Service := presigned.mkService 900.

Definition two_ids : Env :=
  mkEnv 5 (fun k => match k with O => "00000000-0000-0000-0000-0000000000c1"
                            | _ => "00000000-0000-0000-0000-0000000000c2" end)
        (fun _ => None) 0 "https://minio/signed".

(** ** Usage accounting *)

(** Sum of [f] over the rows of table [files]. *)
Definition table_sum (f : Metadata -> Z) (fs : gmap string Metadata) : Z :=
  map_fold (fun _ m acc => f m + acc) 0 fs.

Definition bytes_in (b : uuid) (m : Metadata) : Z :=
  if bool_decide (BucketID m = b) then SizeBytes m else 0.

Definition one_in (b : uuid) (m : Metadata) : Z :=
  if bool_decide (BucketID m = b) then 1 else 0.

(** Sum of SizeBytes, and number, of the live file-metadata rows of a bucket. *)
Definition live_bytes (w : World) (b : uuid) : Z := table_sum (bytes_in b) (files w).
Definition live_count (w : World) (b : uuid) : Z := table_sum (one_in b) (files w).

(** The invariant: for every bucket the usage counters, read as [Get] reads
    them, are the sum and the count of its live rows. *)
Definition usage_consistent (w : World) : Prop :=
  forall b, bucketrepo.usage_of w b = mkUsage (live_bytes w b) (live_count w b).

(** Sizes in table [files] are sizes: not negative, and [int64]. *)
Definition sizes_in_range (w : World) : Prop :=
  forall id m, files w !! id = Some m -> 0 <= SizeBytes m <= max_int64.

(** Requests to the file service. *)
Inductive request :=
  | ReqUpload (owner bucket : uuid) (fileHeader : option file.FileHeader)
  | ReqDelete (owner bucket file : uuid).

(** One request: the error returned, if any, and the world after it. *)
Definition serve (s : file.Service) (env : Env) (req : request) (w : World)
    : option error * World :=
  match req with
  | ReqUpload o b fh =>
      (err_of (result_of (file.Upload s env o b fh w)), world_of (file.Upload s env o b fh w))
  | ReqDelete o b f =>
      (err_of (result_of (file.Delete s env o b f w)), world_of (file.Delete s env o b f w))
  end.

(** A sequence of requests, each in its own surroundings. *)
Fixpoint serve_all (s : file.Service) (reqs : list (Env * request)) (w : World) : World :=
  match reqs with
  | [] => w
  | (env, req) :: rest => serve_all s rest (serve s env req w).2
  end.

(** A multipart payload never declares a negative size. *)
Definition well_formed (req : request) : Prop :=
  match req with
  | ReqUpload _ _ (Some fh) => 0 <= file.Size fh
  | _ => True
  end.

(** A request is settled when it either succeeded or failed without having
    changed the table of file metadata. *)
Definition settled (s : file.Service) (env : Env) (req : request) (w : World) : Prop :=
  (serve s env req w).1 = None \/ files (serve s env req w).2 = files w.

Fixpoint all_settled (s : file.Service) (reqs : list (Env * request)) (w : World) : Prop :=
  match reqs with
  | [] => True
  | (env, req) :: rest =>
      well_formed req /\ settled s env req w /\ all_settled s rest (serve s env req w).2
  end.

(** Upload of [hello], upload of a second file, delete of the first. *)
Definition session : list (Env * request) :=
  [(scenario.calm, ReqUpload scenario.U scenario.docs (Some scenario.hello));
   (second, ReqUpload scenario.U scenario.docs (Some (file.mkFileHeader "b.txt" "" 3 "abc")));
   (scenario.calm, ReqDelete scenario.U scenario.docs scenario.f1)].

(** Upload of [hello] while the upsert into [bucket_usage] fails. *)
Definition broken_session : list (Env * request) :=
  [(faults.usage_down, ReqUpload scenario.U scenario.docs (Some scenario.hello))].

(** ** White space at the front of a string *)

(** The string is empty, or the rune at its front is not white space ([sp2]
    and [sp3] recognise the encodings of two and of three bytes). *)
Definition clean_front (sp2 : ascii -> ascii -> bool) (sp3 : ascii -> ascii -> ascii -> bool)
    (s : string) : Prop :=
  match s with
  | EmptyString => True
  | String a r =>
      gostrings.asciiSpace a = false /\
      match r with
      | EmptyString => True
      | String b r2 =>
          sp2 a b = false /\
          match r2 with
          | EmptyString => True
          | String c _ => sp3 a b c = false
          end
      end
  end.

(** The encodings read from the back. *)
Definition space2_back (a b : ascii) : bool := gostrings.space2 b a.
Definition space3_back (a b c : ascii) : bool := gostrings.space3 c b a.

(** ** Buckets *)

(** No owner has two buckets of the same name: UNIQUE (owner_id, name). *)
Definition names_unique (w : World) : Prop :=
  forall id1 id2 r1 r2,
    buckets w !! id1 = Some r1 -> buckets w !! id2 = Some r2 ->
    row_owner_id r1 = row_owner_id r2 -> row_name r1 = row_name r2 -> id1 = id2.

(** The owner has a bucket of that name. *)
Definition has_bucket_named (w : World) (o : uuid) (n : string) : Prop :=
  exists id row, buckets w !! id = Some row /\ row_owner_id row = o /\ row_name row = n.

(** The world once the row of a new bucket and its usage row are in. *)
Definition with_bucket (env : Env) (o : uuid) (n : string) (d : option string) (w : World)
    : World :=
  set_buckets (insert (fresh env 0) (mkBucketRow o n d (now env) (now env))) w.

Definition with_usage_row (id : uuid) (w : World) : World :=
  match bucket_usage w !! id with
  | Some _ => w
  | None => set_bucket_usage (insert id (mkUsage 0 0)) w
  end.

(** A second owner, and surroundings in which the next identifier is [f2]. *)
Definition V : uuid := "00000000-0000-0000-0000-0000000000a2".

Definition usage_row_down : Faults :=
  fun q => match q with
           | QEnsureUsageRow _ => Some (ErrIO "context deadline exceeded")
           | _ => None
           end.

(** The scenario with a bucket that has no usage row. *)
Definition w_bare : World :=
  with_bucket second V "scratch" None w1.

(** The rows left when a bucket is deleted: the row of the bucket, the rows
    of its files and its usage row are gone (ON DELETE CASCADE). *)
Definition without_bucket (b : uuid) (w : World) : World :=
  set_bucket_usage (delete b)
    (set_files (filter (fun kv : string * Metadata => BucketID kv.2 <> b))
       (set_buckets (delete b) w)).

(** The database part of two worlds is the same. *)
Definition same_rows (w' w : World) : Prop :=
  buckets w' = buckets w /\ files w' = files w /\ bucket_usage w' = bucket_usage w /\
  usage_snapshots w' = usage_snapshots w.

(** The object names of the file rows of a bucket. *)
Definition object_names (w : World) (b : uuid) : list string :=
  map fo_ObjectName (filerepo.objects_of_bucket w b).

(** A bucket service without an object store. *)
Definition bsvc_no_store : bucket.Service := bucket.mkService true false "godrive".

(** The foreign key of table [files]: every file row is in a bucket that
    exists. *)
Definition files_in_buckets (w : World) : Prop :=
  forall id m, files w !! id = Some m -> is_Some (buckets w !! BucketID m).

(** The row [RecordUsageSnapshot] inserts for an owner when the tables are
    those of [w]. *)
Definition snapshot_of (env : Env) (o : uuid) (w : World) : SnapshotRow :=
  mkSnapshot o (TotalBytes (bucketrepo.owner_usage w o)) (FileCount (bucketrepo.owner_usage w o))
             (now env).

(** What a call did to table [usage_snapshots]: nothing, or one row for the
    owner appended, with the totals the tables hold when the call is over. *)
Definition snapshots_follow (env : Env) (o : uuid) (w w' : World) : Prop :=
  usage_snapshots w' = usage_snapshots w \/
  usage_snapshots w' = usage_snapshots w ++ [snapshot_of env o w'].

(** The signing call [GenerateURL] and the access check issue for a method. *)
Definition sign_call (put : bool) (container name : string) : call :=
  if put then CPresignedPutObject container name else CPresignedGetObject container name.

(** Both writes of [GenerateURL] work, the write of the audit row does not. *)
Definition audit_down : Env :=
  mkEnv 5 (fun k => match k with O => "00000000-0000-0000-0000-0000000000c1"
                            | _ => "00000000-0000-0000-0000-0000000000c2" end)
        (fun c => match c with
                  | CSaveAudit _ => Some (ErrIO "connection reset")
                  | _ => None
                  end)
        0 "https://minio/signed".

(** A token of another user that allows to read the object of [f1]. *)
Definition guest_token : presigned.ScopeToken :=
  presigned.mkScopeToken V "docs" faults.f1_object true false 100.

(** The user of the scenario as the middleware stores it, a second user, and
    requests of theirs. *)
Definition user_U : auth.ContextUser := auth.mkContextUser scenario.U "u@example.org" false.
Definition user_V : auth.ContextUser := auth.mkContextUser V "v@example.org" false.

Definition blank_name : bucket_http.Context :=
  bucket_http.mkContext (Some user_U) "" (inr (bucket_http.mkCreateBucketRequest "   " None)).

Definition delete_f1_as (u : auth.ContextUser) : file_http.Context :=
  file_http.mkContext (Some u) scenario.docs scenario.f1 None.

Definition delete_docs_as (u : auth.ContextUser) : bucket_http.Context :=
  bucket_http.mkContext (Some u) scenario.docs (inl (ErrNew "EOF")).

Definition upload_hello_as (u : auth.ContextUser) : file_http.Context :=
  file_http.mkContext (Some u) scenario.docs "" (Some scenario.hello).

(** ** Calls of the two services, one after the other *)

(** A call of the bucket service or of the file service, with the
    surroundings it runs in. *)
Inductive operation :=
  | CallCreateBucket (s : bucket.Service) (qf : Faults) (env : Env) (owner : uuid)
      (name : string) (description : option string)
  | CallListBuckets (s : bucket.Service) (qf : Faults) (owner : uuid)
  | CallGetBucket (s : bucket.Service) (env : Env) (owner bucketID : uuid)
  | CallDeleteBucket (s : bucket.Service) (env : Env) (owner bucketID : uuid)
  | CallUpload (s : file.Service) (env : Env) (owner bucketID : uuid)
      (fileHeader : option file.FileHeader)
  | CallList (s : file.Service) (qf : Faults) (env : Env) (owner bucketID : uuid)
  | CallDownload (s : file.Service) (env : Env) (owner bucketID fileID : uuid)
  | CallDelete (s : file.Service) (env : Env) (owner bucketID fileID : uuid).

(** The world a call leaves, whatever it returns. *)
Definition after (op : operation) (w : World) : World :=
  match op with
  | CallCreateBucket s qf env o name d => world_of (bucket.CreateBucket s qf env o name d w)
  | CallListBuckets s qf o => world_of (bucket.ListBuckets s qf o w)
  | CallGetBucket s env o b => world_of (bucket.GetBucket s env o b w)
  | CallDeleteBucket s env o b => world_of (bucket.DeleteBucket s env o b w)
  | CallUpload s env o b fh => world_of (file.Upload s env o b fh w)
  | CallList s qf env o b => world_of (file.List s qf env o b w)
  | CallDownload s env o b f => world_of (file.Download s env o b f w)
  | CallDelete s env o b f => world_of (file.Delete s env o b f w)
  end.

Definition after_all (ops : list operation) (w : World) : World :=
  foldl (fun w op => after op w) w ops.

(** Calls of a day on which much goes wrong: a bucket is created although
    its usage row cannot be written, a file is uploaded while the usage
    update fails, and the bucket is deleted while removals time out. *)
Definition bad_day : list operation :=
  [CallCreateBucket bsvc usage_row_down second V "scratch" None;
   CallUpload scenario.svc faults.usage_down scenario.U scenario.docs (Some scenario.hello);
   CallDeleteBucket bsvc faults.remove_down scenario.U scenario.docs].

(** A middleware that takes every token, for the user of the scenario, and a
    lowering of strings that is enough for headers in lower case. *)
Definition every_token (token : string) : option auth.UserClaims :=
  Some (auth.mkUserClaims scenario.U "u@example.org" false).

Definition lower_case_already (s : string) : string := s.
(** * Verification *)

(** ** One step of each external call *)

Ltac run_monad :=
  unfold bind, attempt, ret, fail, invoke, result_of, world_of, trace_of in *; simpl in *.

Lemma RemoveObject_run env c n w :
  minio.RemoveObject env c n w =
  match fails env (CRemoveObject c n) with
  | Some e => (inl e, w, [(CRemoveObject c n, Some e)])
  | None => (inr tt, set_objects (delete (c, n)) w, [(CRemoveObject c n, None)])
  end.
Proof. unfold minio.RemoveObject. run_monad. by destruct (fails env _). Qed.

Lemma PutObject_run env c n data size ct w :
  minio.PutObject env c n data size ct w =
  match fails env (CPutObject c n size) with
  | Some e => (inl e, w, [(CPutObject c n size, Some e)])
  | None => (inr (put_size env), set_objects (insert (c, n) (mkObject data ct)) w,
             [(CPutObject c n size, None)])
  end.
Proof. unfold minio.PutObject. run_monad. by destruct (fails env _). Qed.

Lemma Open_run env fh w :
  file.Open env fh w =
  match fails env COpen with
  | Some e => (inl e, w, [(COpen, Some e)])
  | None => (inr (file.content fh), w, [(COpen, None)])
  end.
Proof. unfold file.Open. run_monad. by destruct (fails env _). Qed.

(** [Repository.Get] of a bucket never changes the world; it succeeds exactly
    on a bucket of the owner, when the query itself does not fail. *)
Lemma bucket_Get_cases env o b w :
  (exists row,
      buckets w !! b = Some row /\ row_owner_id row = o /\
      fails env (CBucketGet o b) = None /\
      bucketrepo.Get env o b w =
        (inr (mkBucket b (row_owner_id row) (row_name row) (row_description row)
                       (row_created_at row) (row_updated_at row) (bucketrepo.usage_of w b)),
         w, [(CBucketGet o b, None)]))
  \/ (exists e raw,
         bucketrepo.Get env o b w = (inl e, w, [(CBucketGet o b, Some raw)]) /\
         e = (if errors_Is raw ErrNoRows then ErrBucketNotFound else ErrWrap "get bucket" raw)).
Proof.
  unfold bucketrepo.Get, bucketrepo.select_bucket. run_monad.
  destruct (fails env _) as [e|] eqn:Hf.
  - right. exists (if errors_Is e ErrNoRows then ErrBucketNotFound else ErrWrap "get bucket" e), e.
    by destruct (errors_Is e ErrNoRows).
  - destruct (buckets w !! b) as [row|] eqn:Hb; [case_bool_decide|]; simpl.
    + left. by exists row.
    + right. by exists ErrBucketNotFound, ErrNoRows.
    + right. by exists ErrBucketNotFound, ErrNoRows.
Qed.

(** [Repository.Create] either inserts the row, stamped with the time of the
    insert, under a fresh primary key, or fails and leaves the world as it
    was. *)
Lemma file_Create_cases env meta w :
  (files w !! ID meta = None /\ is_Some (buckets w !! BucketID meta) /\
   fails env (CFileCreate (ID meta)) = None /\
   filerepo.Create env meta w =
     (inr (filerepo.stamped env meta), set_files (insert (ID meta) (filerepo.stamped env meta)) w,
      [(CFileCreate (ID meta), None)]))
  \/ (exists raw,
         filerepo.Create env meta w =
           (inl (ErrWrap "create file metadata" raw), w, [(CFileCreate (ID meta), Some raw)])).
Proof.
  unfold filerepo.Create, filerepo.insert_file. run_monad.
  destruct (fails env _) as [e|] eqn:Hf; [right; by exists e|].
  destruct (files w !! ID meta) eqn:Hk; simpl; [right; by eexists|].
  destruct (buckets w !! BucketID meta) eqn:Hb; simpl; [|right; by eexists].
  destruct (filerepo.object_name_taken _ _ _); simpl; [right; by eexists|].
  left. eauto.
Qed.

(** [Repository.Delete] of a file either removes the row selected by the
    ownership join and returns it, or fails and leaves the world as it was. *)
Lemma file_Delete_cases env o b f w :
  (exists meta,
      filerepo.owned_file w o b f = Some meta /\
      fails env (CFileDelete o b f) = None /\
      filerepo.Delete env o b f w =
        (inr meta, set_files (delete f) w, [(CFileDelete o b f, None)]))
  \/ (exists e raw,
         filerepo.Delete env o b f w = (inl e, w, [(CFileDelete o b f, Some raw)]) /\
         e = (if bool_decide (raw = ErrNoRows) then ErrFileNotFound
              else ErrWrap "delete file metadata" raw) /\
         (fails env (CFileDelete o b f) = None ->
          filerepo.owned_file w o b f = None /\ e = ErrFileNotFound)).
Proof.
  unfold filerepo.Delete, filerepo.delete_file. run_monad.
  destruct (fails env _) as [e|] eqn:Hf.
  - right. eexists _, e. split; [|split; [done|done]]. by case_bool_decide.
  - destruct (filerepo.owned_file w o b f) as [meta|] eqn:Ho; simpl.
    + left. by exists meta.
    + right. by exists ErrFileNotFound, ErrNoRows.
Qed.

Lemma owned_file_inv w o b f meta :
  filerepo.owned_file w o b f = Some meta ->
  files w !! f = Some meta /\ BucketID meta = b /\
  exists row, buckets w !! b = Some row /\ row_owner_id row = o.
Proof.
  unfold filerepo.owned_file. intros H.
  destruct (files w !! f) as [m|]; [|done].
  case_bool_decide; [|done]. destruct (buckets w !! BucketID m) as [row|] eqn:Hb; [|done].
  case_bool_decide; [|done]. simplify_eq. eauto.
Qed.

Lemma UpdateUsage_cases env b dB dF w :
  (is_Some (buckets w !! b) /\
   fails env (CUpdateUsage b dB dF) = None /\
   bucketrepo.UpdateUsage env b dB dF w =
     (inr tt, set_bucket_usage (insert b (usage_after (bucket_usage w !! b) dB dF)) w,
      [(CUpdateUsage b dB dF, None)]))
  \/ (exists raw,
         bucketrepo.UpdateUsage env b dB dF w =
           (inl (ErrWrap "update usage" raw), w, [(CUpdateUsage b dB dF, Some raw)])).
Proof.
  unfold bucketrepo.UpdateUsage, bucketrepo.upsert_usage, usage_after. run_monad.
  destruct (fails env _) as [e|] eqn:Hf; [right; by exists e|].
  destruct (buckets w !! b) eqn:Hb; simpl; [|right; by eexists].
  destruct (bucket_usage w !! b) as [u|] eqn:Hu; simpl; [|left; eauto].
  destruct (in_int64 _ && in_int64 _); simpl; [left; eauto|right; by eexists].
Qed.

(** [RecordUsageSnapshot] touches nothing but the table of snapshots. *)
Lemma RecordUsageSnapshot_cases env o w :
  exists r w1 raw,
    bucketrepo.RecordUsageSnapshot env o w = (r, w1, [(CRecordUsageSnapshot o, raw)]) /\
    buckets w1 = buckets w /\ files w1 = files w /\ bucket_usage w1 = bucket_usage w /\
    objects w1 = objects w /\ err_of r = (ErrWrap "record usage snapshot") <$> raw /\
    raw = match fails env (CRecordUsageSnapshot o) with
          | Some e => Some e
          | None => err_of (bucketrepo.insert_snapshot env o w).1
          end.
Proof.
  unfold bucketrepo.RecordUsageSnapshot, bucketrepo.insert_snapshot. run_monad.
  destruct (fails env _) as [e|] eqn:Hf; [by eexists _, _, _|].
  destruct (in_int64 _ && in_int64 _); simpl; by eexists _, _, _.
Qed.

Arguments minio.RemoveObject : simpl never.
Arguments minio.PutObject : simpl never.
Arguments file.Open : simpl never.
Arguments bucketrepo.Get : simpl never.
Arguments bucketrepo.UpdateUsage : simpl never.
Arguments bucketrepo.RecordUsageSnapshot : simpl never.
Arguments filerepo.Create : simpl never.
Arguments filerepo.Delete : simpl never.

Lemma Upload_paths s env o b fh w :
  upload_path s env o b fh w (file.Upload s env o b (Some fh) w).
Proof.
  unfold file.Upload, bind, attempt, ret, fail.
  destruct (bucket_Get_cases env o b w) as [(row & Hb & Ho & Hfg & Hget)|(e & raw & Hget & _)];
    rewrite Hget; simpl; [|by eapply up_no_bucket].
  destruct (Z.gtb_spec (file.Size fh) (file.maxFileSize s)) as [Hbig|Hsz]; simpl.
  { by apply up_declared_too_large. }
  rewrite Open_run. destruct (fails env COpen) as [e|] eqn:Hfo; simpl.
  { by apply up_open_failed. }
  rewrite PutObject_run.
  destruct (fails env (CPutObject _ _ _)) as [e|] eqn:Hfp; simpl.
  { by apply up_put_failed. }
  fold (upload_actual env fh).
  destruct (Z.gtb_spec (file.maxFileSize s) 0) as [Hpos|Hnpos];
    [destruct (Z.gtb_spec (upload_actual env fh) (file.maxFileSize s)) as [Hact|Hact]|]; simpl.
  { rewrite RemoveObject_run.
    pose proof (up_written_too_large s env o b fh w) as P. unfold compensated, written, ev_remove in P.
    unfold upload_name, upload_id, upload_ctype in P. simpl in P.
    destruct (fails env (CRemoveObject _ _)) eqn:Hfr; simpl; apply P; eauto; by split. }
  all: assert (~ too_large s (upload_actual env fh)) as Hok by (unfold too_large; lia).
  all: change (mkMetadata _ _ _ _ _ _ _ 0 0) with (upload_meta env b fh).
  all: change (set_objects _ w) with (written s env b fh w).
  all: destruct (file_Create_cases env (upload_meta env b fh) (written s env b fh w))
         as [(Hfresh & _ & Hfc & Hcr)|(raw & Hcr)]; rewrite Hcr; simpl.
  all: try (rewrite RemoveObject_run;
            pose proof (up_create_failed s env o b fh w raw) as P;
            unfold compensated, ev_remove in P; unfold upload_name, upload_id in P;
            destruct (fails env (CRemoveObject _ _)) eqn:Hfr; simpl; by apply P; eauto).
  all: change (filerepo.stamped env (upload_meta env b fh)) with (upload_row env b fh).
  all: destruct (UpdateUsage_cases env b (upload_actual env fh) 1
                   (set_files (insert (upload_id env) (upload_row env b fh)) (written s env b fh w)))
         as [(_ & Hfu & Hu)|(raw & Hu)]; rewrite Hu; simpl.
  all: try (by eapply up_usage_failed; eauto).
  all: match goal with
       | |- context [bucketrepo.RecordUsageSnapshot ?e ?u ?w2] =>
           destruct (RecordUsageSnapshot_cases e u w2)
             as (r & w1 & snap & Hs & Hb1 & Hf1 & Hu1 & Ho1 & _); rewrite Hs; simpl
       end.
  all: eapply up_stored; eauto.
Qed.

Lemma Delete_paths s env o b f w :
  delete_path s env o b f w (file.Delete s env o b f w).
Proof.
  unfold file.Delete, bind, attempt, ret, fail.
  destruct (file_Delete_cases env o b f w)
    as [(meta & Hown & Hfd & Hdel)|(e & raw & Hdel & _ & Hnone)]; rewrite Hdel; simpl;
    [|by apply dp_not_deleted].
  rewrite RemoveObject_run.
  destruct (fails env (CRemoveObject _ _)) as [e|] eqn:Hfr; simpl.
  { by apply dp_remove_failed. }
  match goal with
  | |- context [bucketrepo.UpdateUsage ?e ?k ?dB ?dF ?w2] =>
      destruct (UpdateUsage_cases e k dB dF w2) as [(_ & Hfu & Hu)|(raw & Hu)]; rewrite Hu; simpl
  end.
  2: { by apply dp_usage_failed. }
  match goal with
  | |- context [bucketrepo.RecordUsageSnapshot ?e ?u ?w2] =>
      destruct (RecordUsageSnapshot_cases e u w2)
        as (r & w1 & snap & Hs & Hb1 & Hf1 & Hu1 & Ho1 & _); rewrite Hs; simpl
  end.
  eapply dp_deleted; eauto.
Qed.

Arguments file.Upload : simpl never.
Arguments file.Delete : simpl never.

Lemma neg64_opp z : 0 <= z <= max_int64 -> neg64 z = - z.
Proof.
  unfold neg64, wrap64, max_int64. intros Hz.
  rewrite Z.mod_small; lia.
Qed.

(** ** Upload: what is recorded, and what happens when a step fails *)

Ltac upload_cases s env o b fh w :=
  let P := fresh "P" in
  let run := fresh "run" in
  pose proof (Upload_paths s env o b fh w) as P;
  let E := fresh "E" in
  remember (file.Upload s env o b (Some fh) w) as run eqn:E;
  destruct P; clear E; unfold result_of, world_of, trace_of in *; simpl in *.

(** C10, as the code has it: for every successful Upload, the SizeBytes of
    the returned metadata, which is also the row persisted, is the size the
    object store reported when that is positive, and the size the caller
    declared otherwise. *)
Theorem upload_records_effective_size s env o b fh w meta :
  result_of (file.Upload s env o b (Some fh) w) = inr meta ->
  SizeBytes meta = (if put_size env <=? 0 then file.Size fh else put_size env) /\
  files (world_of (file.Upload s env o b (Some fh) w)) !! ID meta = Some meta.
Proof.
  upload_cases s env o b fh w; intros Hr; simplify_eq.
  split; [done|]. simpl.
  match goal with H : files _ = _ |- _ => rewrite H end.
  apply lookup_insert_eq.
Qed.

Lemma upload_records_effective_size_witness :
  SizeBytes faults.hello_row = 11 /\
  files (world_of (file.Upload scenario.svc scenario.calm scenario.U scenario.docs
                               (Some scenario.hello) scenario.w0)) !! scenario.f1
  = Some faults.hello_row.
Proof.
  apply (upload_records_effective_size scenario.svc scenario.calm scenario.U scenario.docs
           scenario.hello scenario.w0 faults.hello_row).
  vm_compute. reflexivity.
Defined.

(** C10, counterexample: the caller declares 11 bytes, the store reports a
    size of 0, and the upload succeeds with SizeBytes = 11. *)
Lemma upload_size_differs_from_store_report :
  put_size faults.silent_store = 0 /\
  result_of (file.Upload scenario.svc faults.silent_store scenario.U scenario.docs
                         (Some scenario.hello) scenario.w0) = inr faults.hello_row /\
  SizeBytes faults.hello_row <> put_size faults.silent_store.
Proof. split; [done|]. split; [by vm_compute|]. by vm_compute. Qed.

(** C9, as the code has it: once the metadata is persisted, a failure of the
    (+size, +1) usage update is returned to the caller, and the metadata row
    and the object stay; a failure of the snapshot that follows is dropped,
    and Upload returns the stored metadata without an error. *)
Theorem upload_after_metadata_failures s env o b fh w :
  let run := file.Upload s env o b (Some fh) w in
  (forall dB dF raw,
      In (CUpdateUsage b dB dF, Some raw) (trace_of run) ->
      dB = upload_actual env fh /\ dF = 1 /\
      result_of run = inl (ErrWrap "update usage" raw) /\
      files (world_of run) !! upload_id env = Some (upload_row env b fh) /\
      objects (world_of run) !! (file.objectBucket s, upload_name env b)
        = Some (mkObject (file.content fh) (upload_ctype fh))) /\
  (forall raw,
      In (CRecordUsageSnapshot o, Some raw) (trace_of run) ->
      result_of run = inr (upload_row env b fh) /\
      files (world_of run) !! upload_id env = Some (upload_row env b fh) /\
      bucket_usage (world_of run) !! b
        = Some (usage_after (bucket_usage w !! b) (upload_actual env fh) 1)).
Proof.
  intros run. subst run.
  upload_cases s env o b fh w.
  all: split; [intros dB dF raw' Hin|intros raw' Hin].
  all: unfold ev_get, ev_open, ev_put, ev_remove, ev_create, ev_usage, ev_snapshot in Hin.
  all: repeat (destruct Hin as [Hin|Hin]; [try discriminate Hin|]); try done.
  - simplify_eq. repeat split; try done.
    + apply lookup_insert_eq.
    + apply lookup_insert_eq.
  - simplify_eq. repeat split; try done.
    + match goal with H : files _ = _ |- _ => rewrite H end. apply lookup_insert_eq.
    + match goal with H : bucket_usage _ = _ |- _ => rewrite H end. apply lookup_insert_eq.
Qed.

Lemma upload_after_metadata_failures_witness :
  result_of (file.Upload scenario.svc faults.usage_down scenario.U scenario.docs
                         (Some scenario.hello) scenario.w0)
    = inl (ErrWrap "update usage" (ErrIO "context deadline exceeded")) /\
  result_of (file.Upload scenario.svc faults.snapshot_down scenario.U scenario.docs
                         (Some scenario.hello) scenario.w0)
    = inr faults.hello_row.
Proof.
  split.
  - apply (proj1 (upload_after_metadata_failures scenario.svc faults.usage_down scenario.U
                    scenario.docs scenario.hello scenario.w0) 11 1).
    vm_compute. tauto.
  - apply (proj2 (upload_after_metadata_failures scenario.svc faults.snapshot_down scenario.U
                    scenario.docs scenario.hello scenario.w0)
                 (ErrIO "context deadline exceeded")).
    vm_compute. tauto.
Defined.

(** C9, counterexample: the snapshot insert fails (last entry of the trace),
    and Upload returns the stored metadata, not an error. *)
Lemma upload_drops_snapshot_failure :
  last (trace_of (file.Upload scenario.svc faults.snapshot_down scenario.U scenario.docs
                              (Some scenario.hello) scenario.w0))
    = Some (CRecordUsageSnapshot scenario.U, Some (ErrIO "context deadline exceeded")) /\
  result_of (file.Upload scenario.svc faults.snapshot_down scenario.U scenario.docs
                         (Some scenario.hello) scenario.w0) = inr faults.hello_row.
Proof. split; by vm_compute. Qed.

Ltac split_trace Hin :=
  unfold ev_get, ev_open, ev_put, ev_remove, ev_create, ev_usage, ev_snapshot in Hin;
  repeat (destruct Hin as [Hin|Hin]; [try discriminate Hin|]); try done.

(** C3: in Upload the metadata insert is only ever issued after the
    object-store write has succeeded; and when the insert fails, the object
    just written is removed once, whatever that removal returns is dropped,
    the table of file metadata is as it was before, and the error of the
    insert is what the caller gets. *)
Theorem upload_metadata_follows_object_write s env o b fh w :
  let run := file.Upload s env o b (Some fh) w in
  (forall id r,
      In (CFileCreate id, r) (trace_of run) ->
      exists before after,
        trace_of run = before ++ (CFileCreate id, r) :: after /\
        In (ev_put s env b fh) before) /\
  (forall id raw,
      In (CFileCreate id, Some raw) (trace_of run) ->
      result_of run = inl (ErrWrap "create file metadata" raw) /\
      files (world_of run) = files w /\
      trace_of run = [ev_get o b; ev_open; ev_put s env b fh;
                      (CFileCreate id, Some raw); ev_remove s env b]).
Proof.
  intros run. subst run.
  upload_cases s env o b fh w.
  all: split; [intros id r' Hin|intros id raw' Hin].
  all: split_trace Hin; simplify_eq.
  - exists [ev_get o b; ev_open; ev_put s env b fh], [ev_remove s env b].
    split; [reflexivity|]. simpl; auto.
  - repeat split; try done. unfold compensated, written. by destruct (fails env (CRemoveObject _ _)).
  - exists [ev_get o b; ev_open; ev_put s env b fh], [ev_usage env b fh (Some raw)].
    split; [reflexivity|]. simpl; auto.
  - exists [ev_get o b; ev_open; ev_put s env b fh], [ev_usage env b fh None; ev_snapshot o snap].
    split; [reflexivity|]. simpl; auto.
Qed.

Lemma upload_metadata_follows_object_write_witness :
  result_of (file.Upload scenario.svc faults.create_down scenario.U scenario.docs
                         (Some scenario.hello) scenario.w0)
    = inl (ErrWrap "create file metadata" (ErrIO "connection reset")) /\
  files (world_of (file.Upload scenario.svc faults.create_down scenario.U scenario.docs
                               (Some scenario.hello) scenario.w0)) = files scenario.w0 /\
  trace_of (file.Upload scenario.svc faults.create_down scenario.U scenario.docs
                        (Some scenario.hello) scenario.w0)
    = [ev_get scenario.U scenario.docs; ev_open;
       ev_put scenario.svc faults.create_down scenario.docs scenario.hello;
       (CFileCreate scenario.f1, Some (ErrIO "connection reset"));
       ev_remove scenario.svc faults.create_down scenario.docs].
Proof.
  apply (proj2 (upload_metadata_follows_object_write scenario.svc faults.create_down scenario.U
                  scenario.docs scenario.hello scenario.w0)).
  vm_compute. tauto.
Defined.

Lemma NewService_maxFileSize ob :
  file.maxFileSize (file.NewService ob) = 104857600 /\
  0 < file.maxFileSize (file.NewService ob) <= max_int64.
Proof. by vm_compute. Qed.

(** C4, as the code has it: with a positive maximum (100 MiB by default) and
    a bucket that resolves, an upload whose declared size exceeds the maximum
    is refused with TooLarge before anything is written; and an upload that
    was written but for which the store reports more than the maximum gets
    TooLarge after one attempt to remove the object, which is gone from the
    store provided that this removal succeeds. *)
Theorem upload_too_large s env o b fh w bk :
  0 < file.maxFileSize s ->
  result_of (bucketrepo.Get env o b w) = inr bk ->
  let run := file.Upload s env o b (Some fh) w in
  (file.maxFileSize s < file.Size fh ->
     result_of run = inl ErrFileTooLarge /\ world_of run = w /\
     trace_of run = [ev_get o b]) /\
  (In (ev_put s env b fh) (trace_of run) ->
   file.maxFileSize s < put_size env ->
     file.Size fh <= file.maxFileSize s /\
     result_of run = inl ErrFileTooLarge /\
     trace_of run = [ev_get o b; ev_open; ev_put s env b fh; ev_remove s env b] /\
     files (world_of run) = files w /\
     (fails env (CRemoveObject (file.objectBucket s) (upload_name env b)) = None ->
      objects (world_of run) !! (file.objectBucket s, upload_name env b) = None)).
Proof.
  intros Hmax Hget run. subst run.
  assert (file.maxFileSize s < put_size env -> upload_actual env fh = put_size env) as Hact.
  { intros Hlt. unfold upload_actual. destruct (Z.leb_spec (put_size env) 0); [lia|done]. }
  upload_cases s env o b fh w.
  all: try (match goal with H : bucketrepo.Get _ _ _ _ = _ |- _ => rewrite H in Hget end;
            discriminate Hget).
  all: split; [intros Hbig|intros Hin Hrep]; try lia; try done.
  all: split_trace Hin.
  all: try (match goal with H : ~ too_large _ _ |- _ =>
                             exfalso; apply H; rewrite (Hact Hrep); split; lia end).
  repeat split; try done.
  - unfold compensated, written. by destruct (fails env (CRemoveObject _ _)).
  - intros Hrm. unfold compensated. rewrite Hrm. simpl. apply lookup_delete_eq.
Qed.

Lemma upload_too_large_witness :
  (result_of (file.Upload scenario.svc scenario.calm scenario.U scenario.docs
                          (Some faults.huge) scenario.w0) = inl ErrFileTooLarge /\
   world_of (file.Upload scenario.svc scenario.calm scenario.U scenario.docs
                         (Some faults.huge) scenario.w0) = scenario.w0 /\
   trace_of (file.Upload scenario.svc scenario.calm scenario.U scenario.docs
                         (Some faults.huge) scenario.w0) = [ev_get scenario.U scenario.docs]) /\
  (file.Size scenario.hello <= file.maxFileSize scenario.svc /\
   result_of (file.Upload scenario.svc faults.oversize scenario.U scenario.docs
                          (Some scenario.hello) scenario.w0) = inl ErrFileTooLarge /\
   trace_of (file.Upload scenario.svc faults.oversize scenario.U scenario.docs
                         (Some scenario.hello) scenario.w0)
     = [ev_get scenario.U scenario.docs; ev_open;
        ev_put scenario.svc faults.oversize scenario.docs scenario.hello;
        ev_remove scenario.svc faults.oversize scenario.docs] /\
   files (world_of (file.Upload scenario.svc faults.oversize scenario.U scenario.docs
                                (Some scenario.hello) scenario.w0)) = files scenario.w0 /\
   objects (world_of (file.Upload scenario.svc faults.oversize scenario.U scenario.docs
                                  (Some scenario.hello) scenario.w0))
     !! ("godrive", faults.f1_object) = None).
Proof.
  split.
  - refine (proj1 (upload_too_large scenario.svc scenario.calm scenario.U scenario.docs
                     faults.huge scenario.w0
                     (mkBucket scenario.docs scenario.U "docs" None 1 1 (mkUsage 0 0)) _ _) _);
      by vm_compute.
  - pose proof (proj2 (upload_too_large scenario.svc faults.oversize scenario.U scenario.docs
                         scenario.hello scenario.w0
                         (mkBucket scenario.docs scenario.U "docs" None 1 1 (mkUsage 0 0))
                         ltac:(by vm_compute) ltac:(by vm_compute))
                      ltac:(vm_compute; tauto) ltac:(by vm_compute))
      as (H1 & H2 & H3 & H4 & H5).
    split; [exact H1|]. split; [exact H2|]. split; [exact H3|]. split; [exact H4|].
    apply H5. by vm_compute.
Defined.

Lemma upload_written_too_large_example :
  result_of (file.Upload scenario.svc faults.oversize scenario.U scenario.docs
                         (Some scenario.hello) scenario.w0) = inl ErrFileTooLarge /\
  objects (world_of (file.Upload scenario.svc faults.oversize scenario.U scenario.docs
                                 (Some scenario.hello) scenario.w0))
    !! ("godrive", faults.f1_object) = None.
Proof. split; by vm_compute. Qed.

(** C4, counterexample: the declared size (11) is within the maximum, the
    store reports one byte more than the maximum, the removal fails; Upload
    returns TooLarge and the object is still in the store. *)
Lemma upload_too_large_object_remains :
  file.Size scenario.hello <= file.maxFileSize scenario.svc /\
  file.maxFileSize scenario.svc < put_size faults.oversize_stuck /\
  result_of (file.Upload scenario.svc faults.oversize_stuck scenario.U scenario.docs
                         (Some scenario.hello) scenario.w0) = inl ErrFileTooLarge /\
  objects (world_of (file.Upload scenario.svc faults.oversize_stuck scenario.U scenario.docs
                                 (Some scenario.hello) scenario.w0))
    !! ("godrive", faults.f1_object) = Some (mkObject "hello world" "text/plain").
Proof. repeat split; by vm_compute. Qed.

(** ** Delete of a file *)

Ltac delete_cases s env o b f w :=
  let P := fresh "P" in
  let run := fresh "run" in
  let E := fresh "E" in
  pose proof (Delete_paths s env o b f w) as P;
  remember (file.Delete s env o b f w) as run eqn:E;
  destruct P; clear E; unfold result_of, world_of, trace_of in *; simpl in *.

Lemma owned_file_None w o b f :
  files w !! f = None \/
  (exists meta, files w !! f = Some meta /\ BucketID meta <> b) \/
  (forall row, buckets w !! b = Some row -> row_owner_id row <> o) ->
  filerepo.owned_file w o b f = None.
Proof.
  unfold filerepo.owned_file. intros [Hn|[(meta & Hm & Hb)|Ho]].
  - by rewrite Hn.
  - rewrite Hm. by rewrite bool_decide_eq_false_2.
  - destruct (files w !! f) as [meta|]; [|done].
    case_bool_decide as Hb; [|done]. rewrite Hb.
    destruct (buckets w !! b) as [row|] eqn:Hrow; [|done].
    rewrite bool_decide_eq_false_2; [done|]. by apply Ho.
Qed.



Example delete_after_upload :
  result_of (file.Delete scenario.svc scenario.calm scenario.U scenario.docs scenario.f1 w1)
    = inr tt /\
  map fst (trace_of (file.Delete scenario.svc scenario.calm scenario.U scenario.docs
                                 scenario.f1 w1))
    = [CFileDelete scenario.U scenario.docs scenario.f1;
       CRemoveObject "godrive" faults.f1_object;
       CUpdateUsage scenario.docs (-11) (-1);
       CRecordUsageSnapshot scenario.U] /\
  bucket_usage (world_of (file.Delete scenario.svc scenario.calm scenario.U scenario.docs
                                      scenario.f1 w1)) !! scenario.docs = Some (mkUsage 0 0).
Proof. repeat split; by vm_compute. Qed.

(** ** Deletion of a bucket *)

(** The listing answers the object names of the rows of the bucket, or fails
    at one of its three stages with a wrapped error; it changes nothing, and
    its query is the one call in the trace. *)
Lemma ListObjectsForBucket_run env b w :
  filerepo.ListObjectsForBucket env b w
    = (inr (filerepo.objects_of_bucket w b), w, [(CListObjectsForBucket b, None)])
  \/ (exists msg cause raw,
         filerepo.ListObjectsForBucket env b w
           = (inl (ErrWrap msg cause), w, [(CListObjectsForBucket b, raw)])).
Proof.
  unfold filerepo.ListObjectsForBucket. run_monad.
  destruct (fails env (CListObjectsForBucket b)); simpl; [right; by eexists _, _, _|].
  destruct (filerepo.objects_of_bucket w b) as [|obj objs];
    [|destruct (fails env (CScanObjectName b)); [right; by eexists _, _, _|]].
  all: destruct (fails env (CIterateObjectNames b)); [right; by eexists _, _, _|by left].
Qed.

Lemma bucket_Delete_trace env o b w :
  exists r w1 raw, bucketrepo.Delete env o b w = (r, w1, [(CBucketDelete o b, raw)]).
Proof.
  unfold bucketrepo.Delete, bucketrepo.delete_bucket. run_monad.
  destruct (fails env _); [by eexists _, _, _|].
  destruct (buckets w !! b) as [row|]; [case_bool_decide|]; simpl; by eexists _, _, _.
Qed.

(** The loop of [deleteObjects] touches the object store only, and stops at
    the first removal that fails, with the error of that removal. *)
Lemma removeEach_spec s env objs w :
  buckets (world_of (bucket.removeEach s env objs w)) = buckets w /\
  files (world_of (bucket.removeEach s env objs w)) = files w /\
  bucket_usage (world_of (bucket.removeEach s env objs w)) = bucket_usage w /\
  usage_snapshots (world_of (bucket.removeEach s env objs w)) = usage_snapshots w /\
  (forall ev, In ev (trace_of (bucket.removeEach s env objs w)) ->
     exists n r, ev = (CRemoveObject (bucket.objectBucket s) n, r) /\
                 In n (map fo_ObjectName objs)) /\
  (forall c n e,
     In (CRemoveObject c n, Some e) (trace_of (bucket.removeEach s env objs w)) ->
     result_of (bucket.removeEach s env objs w) = inl (ErrWrap ("remove object " +:+ n) e)).
Proof.
  revert w. induction objs as [|obj rest IH]; intros w.
  { simpl. repeat split; try done; by intros. }
  simpl. unfold bind, attempt, fail. rewrite RemoveObject_run.
  destruct (fails env (CRemoveObject _ _)) as [e|] eqn:Hf; simpl.
  - unfold result_of, world_of, trace_of; simpl. repeat split; try done.
    + intros ev [<-|[]]. eexists _, _. split; [done|]. by left.
    + intros c n e' [Hin|[]]. by simplify_eq.
  - destruct (IH (set_objects (delete (bucket.objectBucket s, fo_ObjectName obj)) w))
      as (Hb & Hfl & Hu & Hsn & Hev & Hfail).
    destruct (bucket.removeEach s env rest _) as [[r w'] t].
    unfold result_of, world_of, trace_of in *; simpl in *.
    repeat split; try done.
    + intros ev [<-|Hin].
      * eexists _, _. split; [done|]. by left.
      * destruct (Hev ev Hin) as (n & r' & -> & Hn). eexists _, _. split; [done|]. by right.
    + intros c n e' [Hin|Hin]; [discriminate Hin|]. by apply (Hfail c n e').
Qed.

(** C2: whenever the removal of an object fails during DeleteBucket, the
    operation returns the error of that removal (wrapped with the name of the
    object) and the bucket row, the file-metadata rows and the usage counters
    are as they were before the call. *)
Theorem delete_bucket_keeps_metadata_on_removal_failure s env o b w :
  forall c n e,
    In (CRemoveObject c n, Some e) (trace_of (bucket.DeleteBucket s env o b w)) ->
    result_of (bucket.DeleteBucket s env o b w) = inl (ErrWrap ("remove object " +:+ n) e) /\
    buckets (world_of (bucket.DeleteBucket s env o b w)) = buckets w /\
    files (world_of (bucket.DeleteBucket s env o b w)) = files w /\
    bucket_usage (world_of (bucket.DeleteBucket s env o b w)) = bucket_usage w /\
    usage_snapshots (world_of (bucket.DeleteBucket s env o b w)) = usage_snapshots w.
Proof.
  intros c n e. unfold bucket.DeleteBucket, bucket.deleteObjects, bind, attempt, ret, fail.
  destruct (bucket_Get_cases env o b w) as [(row & _ & _ & _ & Hget)|(e0 & raw & Hget & _)];
    rewrite Hget; simpl.
  2: { unfold trace_of; simpl. intros [Hin|[]]. discriminate Hin. }
  destruct (bucket_Delete_trace env o b w) as (rd & wd & rawd & Hd).
  destruct (negb (bucket.has_objectStore s) || negb (bucket.has_files s)); simpl.
  { rewrite Hd.
    destruct rd as [ed|[]]; simpl.
    - unfold trace_of; simpl. intros [Hin|[Hin|[]]]; discriminate Hin.
    - destruct (RecordUsageSnapshot_cases env o wd) as (rs & ws & raws & Hs & _).
      rewrite Hs. destruct rs as [es|[]]; unfold trace_of; simpl;
        intros [Hin|[Hin|[Hin|[]]]]; discriminate Hin. }
  destruct (ListObjectsForBucket_run env b w) as [Hl|(msg & cause & raw & Hl)];
    rewrite Hl; simpl.
  2: { unfold trace_of; simpl. intros [Hin|[Hin|[]]]; discriminate Hin. }
  pose proof (removeEach_spec s env (filerepo.objects_of_bucket w b) w)
    as (Hb & Hfl & Hu & Hsn & Hev & Hfail).
  destruct (bucket.removeEach s env (filerepo.objects_of_bucket w b) w) as [[r w'] t].
  unfold result_of, world_of, trace_of in *; simpl in *.
  destruct r as [er|[]]; simpl.
  - intros [Hin|[Hin|Hin]]; try discriminate Hin.
    by rewrite (Hfail c n e Hin).
  - destruct (bucket_Delete_trace env o b w') as (rd' & wd' & rawd' & Hd').
    rewrite Hd'. destruct rd' as [ed|[]]; simpl.
    + intros [Hin|[Hin|Hin]]; try discriminate Hin.
      apply in_app_or in Hin as [Hin|[Hin|[]]]; [|discriminate Hin].
      by specialize (Hfail c n e Hin).
    + destruct (RecordUsageSnapshot_cases env o wd') as (rs & ws & raws & Hs & _).
      rewrite Hs. destruct rs as [es|[]]; simpl.
      all: intros [Hin|[Hin|Hin]]; try discriminate Hin.
      all: apply in_app_or in Hin as [Hin|[Hin|[Hin|[]]]]; try discriminate Hin.
      all: by specialize (Hfail c n e Hin).
Qed.

Lemma delete_bucket_keeps_metadata_on_removal_failure_witness :
  result_of (bucket.DeleteBucket bsvc f2_stuck scenario.U scenario.docs w2)
    = inl (ErrWrap ("remove object " +:+ (scenario.docs +:+ "/" +:+ f2))
                   (ErrIO "context deadline exceeded")) /\
  buckets (world_of (bucket.DeleteBucket bsvc f2_stuck scenario.U scenario.docs w2))
    = buckets w2 /\
  files (world_of (bucket.DeleteBucket bsvc f2_stuck scenario.U scenario.docs w2))
    = files w2 /\
  bucket_usage (world_of (bucket.DeleteBucket bsvc f2_stuck scenario.U scenario.docs w2))
    = bucket_usage w2 /\
  usage_snapshots (world_of (bucket.DeleteBucket bsvc f2_stuck scenario.U scenario.docs w2))
    = usage_snapshots w2.
Proof.
  apply (delete_bucket_keeps_metadata_on_removal_failure bsvc f2_stuck scenario.U scenario.docs
           w2 "godrive" (scenario.docs +:+ "/" +:+ f2) (ErrIO "context deadline exceeded")).
  vm_compute. tauto.
Defined.

(** ** Presigned URLs: scope tokens *)

(** C8: a scope token passes validation exactly when it is not expired, names
    the bucket and the object of the request, and grants the requested
    direction.  An expired token fails whatever its other fields are, and so
    does a write request on a token that cannot write; and a token that fails
    validation makes the request fail with an access-denied error, without
    any URL being signed. *)
Theorem scope_token_validation env token bucket object write :
  (presigned.ValidateScope env token bucket object write = true <->
     ~ presigned.tok_ExpiresAt token < now env /\
     presigned.tok_Bucket token = bucket /\
     presigned.tok_Object token = object /\
     (if write then presigned.tok_CanWrite token else presigned.tok_CanRead token) = true) /\
  (presigned.tok_ExpiresAt token < now env ->
     presigned.ValidateScope env token bucket object write = false) /\
  (write = true -> presigned.tok_CanWrite token = false ->
     presigned.ValidateScope env token bucket object write = false) /\
  (forall s userID ownerID w,
     presigned.ValidateScope env token bucket object write = false ->
     presigned.GeneratePresignedWithAccessCheck s env bucket object userID ownerID
                                                (Some token) write w
       = (inl (ErrNew "access denied: invalid scope token"), w, [])).
Proof.
  unfold presigned.GeneratePresignedWithAccessCheck, presigned.ValidateScope.
  destruct (Z.gtb_spec (now env) (presigned.tok_ExpiresAt token)) as [Hexp|Hexp].
  { repeat split; try done; try lia. }
  repeat case_bool_decide; simpl.
  all: destruct write, (presigned.tok_CanWrite token), (presigned.tok_CanRead token); simpl.
  all: repeat split; try done; try lia; try tauto.
  all: try (intros (? & ? & ? & ?); congruence).
Qed.

Lemma scope_token_validation_witness :
  presigned.ValidateScope late read_token "docs" faults.f1_object false = false /\
  presigned.ValidateScope scenario.calm read_token "docs" faults.f1_object true = false /\
  presigned.GeneratePresignedWithAccessCheck asvc scenario.calm "docs" faults.f1_object
      scenario.U scenario.U (Some read_token) true w1
    = (inl (ErrNew "access denied: invalid scope token"), w1, []).
Proof.
  split; [|split].
  - apply (proj1 (proj2 (scope_token_validation late read_token "docs" faults.f1_object false))).
    by vm_compute.
  - apply (proj1 (proj2 (proj2 (scope_token_validation scenario.calm read_token "docs"
                                  faults.f1_object true)))); by vm_compute.
  - apply (proj2 (proj2 (proj2 (scope_token_validation scenario.calm read_token "docs"
                                  faults.f1_object true)))).
    by vm_compute.
Defined.

Example scope_token_read_accepted :
  presigned.ValidateScope scenario.calm read_token "docs" faults.f1_object false = true.
Proof. by vm_compute. Qed.

(** ** Presigned URLs: issuance *)


(** A URL returned by [GenerateURL] comes with its issuance record and its
    audit record, both appended to their tables. *)
Lemma GenerateURL_recorded s env bucketName objectName method userID bucketID fileID w url rec aud :
  result_of (presigned.GenerateURL s env bucketName objectName method userID bucketID fileID w)
    = inr (url, rec, aud) ->
  presigned_records
    (world_of (presigned.GenerateURL s env bucketName objectName method userID bucketID fileID w))
    = presigned_records w ++ [rec] /\
  presigned_audit
    (world_of (presigned.GenerateURL s env bucketName objectName method userID bucketID fileID w))
    = presigned_audit w ++ [aud] /\
  rec_Method rec = method /\ aud_Method aud = method /\ (method = "GET" \/ method = "PUT").
Proof.
  unfold presigned.GenerateURL, presigned.SaveRecord, presigned.SaveAudit,
    minio.PresignedGetObject, minio.PresignedPutObject.
  run_monad.
  repeat (case_bool_decide; simpl); try done.
  all: repeat (case_match; simplify_eq/=); try done.
  all: intros; simplify_eq/=; repeat split; try done; auto.
  all: destruct (decide (method = "PUT")); auto; naive_solver.
Qed.

(** When one of the two writes fails, [GenerateURL] returns that error and no
    URL. *)
Lemma GenerateURL_write_failure s env bucketName objectName method userID bucketID fileID w c e :
  In (c, Some e) (trace_of (presigned.GenerateURL s env bucketName objectName method
                                                  userID bucketID fileID w)) ->
  result_of (presigned.GenerateURL s env bucketName objectName method userID bucketID fileID w)
    = inl e.
Proof.
  unfold presigned.GenerateURL, presigned.SaveRecord, presigned.SaveAudit,
    minio.PresignedGetObject, minio.PresignedPutObject.
  run_monad.
  repeat (case_bool_decide; simpl); try done.
  all: repeat (case_match; simplify_eq/=); try done.
  all: intros Hin; repeat (destruct Hin as [Hin|Hin]; simplify_eq/=); try done.
Qed.

Example GenerateURL_put :
  result_of (presigned.GenerateURL rsvc two_ids "docs" faults.f1_object "PUT"
                                   scenario.U scenario.docs scenario.f1 w1)
    = inr ("https://minio/signed",
           mkRecord "00000000-0000-0000-0000-0000000000c1" scenario.f1 "PUT" 905,
           mkAudit "00000000-0000-0000-0000-0000000000c2" scenario.U scenario.docs scenario.f1
                   "PUT" 905 5).
Proof. by vm_compute. Qed.

(** The handler's path never writes an issuance or an audit record. *)
Lemma handler_records_nothing parse_uuid parse_duration s env c w :
  world_of (presigned.GeneratePresignedURL parse_uuid parse_duration s env c w) = w.
Proof.
  unfold presigned.GeneratePresignedURL, presigned.GeneratePresignedWithAccessCheck,
    presigned.GenerateGetURL, presigned.GeneratePutURL, presigned.GetBucketByID,
    presigned.GetFileByID, presigned.respond,
    minio.PresignedGetObject, minio.PresignedPutObject.
  run_monad.
  repeat (case_match; simplify_eq/=); try done.
Qed.





(** ** Usage accounting *)

Lemma table_sum_empty f : table_sum f ∅ = 0.
Proof. unfold table_sum. by rewrite map_fold_empty. Qed.

Lemma table_sum_insert f (fs : gmap string Metadata) k m :
  fs !! k = None -> table_sum f (<[k := m]> fs) = f m + table_sum f fs.
Proof.
  intros Hk. unfold table_sum.
  rewrite map_fold_insert_L; [done| |done]. intros; lia.
Qed.

Lemma table_sum_delete f (fs : gmap string Metadata) k m :
  fs !! k = Some m -> table_sum f fs = f m + table_sum f (delete k fs).
Proof.
  intros Hk. unfold table_sum.
  rewrite (map_fold_delete_L _ _ k m fs); [done| |done]. intros; lia.
Qed.

Lemma table_sum_nonneg f (fs : gmap string Metadata) :
  (forall k m, fs !! k = Some m -> 0 <= f m) -> 0 <= table_sum f fs.
Proof.
  induction fs as [|k m fs Hk IH] using map_ind; intros Hpos.
  - by rewrite table_sum_empty.
  - rewrite table_sum_insert by done.
    assert (0 <= f m) by (apply (Hpos k); apply lookup_insert_eq).
    assert (0 <= table_sum f fs); [|lia].
    apply IH. intros k' m' Hk'. apply (Hpos k').
    rewrite lookup_insert_ne; [done|]. intros ->. congruence.
Qed.

Lemma live_nonneg w b :
  sizes_in_range w -> 0 <= live_bytes w b /\ 0 <= live_count w b.
Proof.
  intros Hsz. split; apply table_sum_nonneg; intros k m Hk.
  - unfold bytes_in. case_bool_decide; [|lia]. by apply (Hsz k m).
  - unfold one_in. case_bool_decide; lia.
Qed.

Lemma usage_consistent_ext w w' :
  files w' = files w -> bucket_usage w' = bucket_usage w ->
  usage_consistent w -> usage_consistent w'.
Proof.
  intros Hf Hu Hc b. unfold bucketrepo.usage_of, live_bytes, live_count.
  rewrite Hf, Hu. apply Hc.
Qed.

Lemma sizes_in_range_ext w w' :
  files w' = files w -> sizes_in_range w -> sizes_in_range w'.
Proof. intros Hf Hs id m. rewrite Hf. apply Hs. Qed.

(** A stored upload keeps the counters in step with the rows. *)
Lemma stored_upload_consistent w w1 b id row :
  usage_consistent w -> sizes_in_range w ->
  files w !! id = None -> BucketID row = b -> 0 <= SizeBytes row <= max_int64 ->
  files w1 = <[id := row]> (files w) ->
  bucket_usage w1 = <[b := usage_after (bucket_usage w !! b) (SizeBytes row) 1]> (bucket_usage w) ->
  usage_consistent w1 /\ sizes_in_range w1.
Proof.
  intros Hc Hs Hfresh Hb Hrow Hf Hu. split.
  - intros b'. unfold bucketrepo.usage_of, live_bytes, live_count.
    rewrite Hf, Hu, !table_sum_insert by done.
    pose proof (Hc b') as Hcb. unfold bucketrepo.usage_of, live_bytes, live_count in Hcb.
    destruct (decide (b = b')) as [<-|Hne].
    + rewrite lookup_insert_eq. simpl.
      destruct (live_nonneg w b Hs) as [Hlb Hlc]. unfold live_bytes, live_count in Hlb, Hlc.
      assert (bytes_in b row = SizeBytes row) as ->
        by (unfold bytes_in; by rewrite bool_decide_eq_true_2).
      assert (one_in b row = 1) as -> by (unfold one_in; by rewrite bool_decide_eq_true_2).
      destruct (bucket_usage w !! b) as [u|]; simpl in *.
      * subst u. simpl. f_equal; lia.
      * injection Hcb as <- <-. f_equal; lia.
    + rewrite lookup_insert_ne by done. rewrite Hcb.
      assert (bytes_in b' row = 0) as ->
        by (unfold bytes_in; rewrite bool_decide_eq_false_2; [done|congruence]).
      assert (one_in b' row = 0) as ->
        by (unfold one_in; rewrite bool_decide_eq_false_2; [done|congruence]).
      done.
  - intros k m. rewrite Hf. intros Hk.
    destruct (decide (id = k)) as [<-|Hne].
    + rewrite lookup_insert_eq in Hk. by simplify_eq.
    + rewrite lookup_insert_ne in Hk by done. by apply (Hs k).
Qed.

(** A completed delete keeps the counters in step with the rows. *)
Lemma completed_delete_consistent w w1 b f meta :
  usage_consistent w -> sizes_in_range w ->
  files w !! f = Some meta -> BucketID meta = b ->
  files w1 = delete f (files w) ->
  bucket_usage w1 =
    <[b := usage_after (bucket_usage w !! b) (neg64 (SizeBytes meta)) (-1)]> (bucket_usage w) ->
  usage_consistent w1 /\ sizes_in_range w1.
Proof.
  intros Hc Hs Hrow Hb Hf Hu.
  assert (sizes_in_range w1) as Hs1.
  { intros k m. rewrite Hf. intros Hk. apply lookup_delete_Some in Hk as [_ Hk]. by apply (Hs k). }
  split; [|done].
  intros b'. unfold bucketrepo.usage_of, live_bytes, live_count. rewrite Hu.
  pose proof (Hc b') as Hcb. unfold bucketrepo.usage_of, live_bytes, live_count in Hcb.
  rewrite (table_sum_delete (bytes_in b') _ f meta Hrow) in Hcb.
  rewrite (table_sum_delete (one_in b') _ f meta Hrow) in Hcb.
  rewrite <- Hf in Hcb.
  destruct (decide (b = b')) as [<-|Hne].
  - rewrite lookup_insert_eq.
    destruct (live_nonneg w1 b Hs1) as [Hlb Hlc]. unfold live_bytes, live_count in Hlb, Hlc.
    assert (bytes_in b meta = SizeBytes meta) as Eb
      by (unfold bytes_in; by rewrite bool_decide_eq_true_2).
    assert (one_in b meta = 1) as Eo by (unfold one_in; by rewrite bool_decide_eq_true_2).
    rewrite Eb, Eo in Hcb.
    rewrite neg64_opp by (by apply (Hs f)).
    destruct (bucket_usage w !! b) as [u|]; simpl in *.
    + subst u. simpl. f_equal; lia.
    + injection Hcb as Hb0 Hc0. lia.
  - rewrite lookup_insert_ne by done. rewrite Hcb.
    assert (bytes_in b' meta = 0) as ->
      by (unfold bytes_in; rewrite bool_decide_eq_false_2; [done|congruence]).
    assert (one_in b' meta = 0) as ->
      by (unfold one_in; rewrite bool_decide_eq_false_2; [done|congruence]).
    done.
Qed.

(** One settled request preserves the invariant. *)
Lemma serve_consistent s env req w :
  0 < file.maxFileSize s <= max_int64 ->
  well_formed req -> settled s env req w ->
  usage_consistent w -> sizes_in_range w ->
  usage_consistent (serve s env req w).2 /\ sizes_in_range (serve s env req w).2.
Proof.
  intros Hmax Hwf Hset Hc Hs. unfold settled in Hset.
  destruct req as [o b [fh|]|o b f]; simpl in *.
  - revert Hset. upload_cases s env o b fh w; intros Hset.
    all: try (split; [eapply usage_consistent_ext|eapply sizes_in_range_ext]; eauto;
              unfold compensated, written; by destruct (fails env (CRemoveObject _ _))).
    + destruct Hset as [Hset|Hset]; [done|].
      assert (<[upload_id env := upload_row env b fh]> (files w) !! upload_id env = None) as Hn
        by (by rewrite Hset).
      by rewrite lookup_insert_eq in Hn.
    + eapply (stored_upload_consistent w _ b (upload_id env) (upload_row env b fh)); eauto.
      simpl. unfold upload_actual, too_large in *.
      destruct (Z.leb_spec (put_size env) 0); lia.
  - split; [eapply usage_consistent_ext|eapply sizes_in_range_ext]; eauto.
  - revert Hset. delete_cases s env o b f w; intros Hset.
    all: try (match goal with H : filerepo.owned_file _ _ _ _ = Some _ |- _ =>
                pose proof (owned_file_inv _ _ _ _ _ H) as (Hrow & Hbk & _) end).
    + split; [eapply usage_consistent_ext|eapply sizes_in_range_ext]; eauto.
    + destruct Hset as [Hset|Hset]; [done|].
      assert (delete f (files w) !! f = Some meta) as Hn by (by rewrite Hset).
      by rewrite lookup_delete_eq in Hn.
    + destruct Hset as [Hset|Hset]; [done|].
      assert (delete f (files w) !! f = Some meta) as Hn by (by rewrite Hset).
      by rewrite lookup_delete_eq in Hn.
    + eapply (completed_delete_consistent w _ b f meta); eauto.
Qed.

Lemma serve_all_consistent s reqs : forall w,
  0 < file.maxFileSize s <= max_int64 ->
  usage_consistent w -> sizes_in_range w ->
  all_settled s reqs w ->
  usage_consistent (serve_all s reqs w) /\ sizes_in_range (serve_all s reqs w).
Proof.
  induction reqs as [|[env req] rest IH]; intros w Hmax Hc Hs Hall; simpl in *.
  - done.
  - destruct Hall as (Hwf & Hset & Hrest).
    destruct (serve_consistent s env req w Hmax Hwf Hset Hc Hs) as [Hc1 Hs1].
    by apply IH.
Qed.

Lemma scenario_w0_consistent : usage_consistent scenario.w0 /\ sizes_in_range scenario.w0.
Proof.
  split.
  - intros b. unfold bucketrepo.usage_of, live_bytes, live_count. simpl.
    rewrite !table_sum_empty.
    destruct (decide (scenario.docs = b)) as [<-|Hne].
    + by rewrite lookup_insert_eq.
    + by rewrite lookup_insert_ne, lookup_empty.
  - intros id m. simpl. by rewrite lookup_empty.
Qed.

(** C1, as the code has it: start from a state in which the counters of
    every bucket are the sum of SizeBytes and the number of its live rows,
    and run any finite sequence of uploads and deletes in which every request
    either succeeds or fails without having changed the table of file
    metadata; then the counters are again the sum and the number of the live
    rows of every bucket.  A successful upload has applied (+size, +1), and a
    successful delete (-size, -1), each in a call of its own after the change
    of the metadata. *)
Theorem usage_counters_follow_settled_requests s reqs w :
  0 < file.maxFileSize s <= max_int64 ->
  usage_consistent w -> sizes_in_range w ->
  all_settled s reqs w ->
  usage_consistent (serve_all s reqs w) /\
  (forall env o b fh w' meta,
      result_of (file.Upload s env o b (Some fh) w') = inr meta ->
      exists before after,
        trace_of (file.Upload s env o b (Some fh) w')
          = before ++ (CUpdateUsage b (SizeBytes meta) 1, None) :: after /\
        In (CFileCreate (ID meta), None) before) /\
  (forall env o b f w',
      sizes_in_range w' ->
      result_of (file.Delete s env o b f w') = inr tt ->
      exists meta before after,
        files w' !! f = Some meta /\
        trace_of (file.Delete s env o b f w')
          = before ++ (CUpdateUsage b (- SizeBytes meta) (-1), None) :: after /\
        In (CFileDelete o b f, None) before).
Proof.
  intros Hmax Hc Hs Hall. split; [|split].
  - by apply serve_all_consistent.
  - intros env o b fh w' meta. upload_cases s env o b fh w'; intros Hr; simplify_eq.
    exists [ev_get o b; ev_open; ev_put s env b fh; ev_create env None], [ev_snapshot o snap].
    split; [reflexivity|]. simpl. unfold ev_create. auto.
  - intros env o b f w'. delete_cases s env o b f w'; intros Hs' Hr; simplify_eq.
    match goal with H : filerepo.owned_file _ _ _ _ = Some _ |- _ =>
      pose proof (owned_file_inv _ _ _ _ _ H) as (Hrow & Hbk & _) end.
    exists meta, [ev_delete o b f None; ev_unlink s meta None], [(CRecordUsageSnapshot o, snap)].
    split; [done|]. split; [|simpl; unfold ev_delete; auto].
    unfold ev_release. by rewrite (neg64_opp _ (Hs' f meta Hrow)).
Qed.

Lemma usage_counters_follow_settled_requests_witness :
  usage_consistent (serve_all scenario.svc session scenario.w0).
Proof.
  refine (proj1 (usage_counters_follow_settled_requests scenario.svc session scenario.w0
                   _ (proj1 scenario_w0_consistent) (proj2 scenario_w0_consistent) _)).
  - by vm_compute.
  - repeat split; try (left; by vm_compute); by vm_compute.
Defined.

Example session_counters :
  bucketrepo.usage_of (serve_all scenario.svc session scenario.w0) scenario.docs = mkUsage 3 1 /\
  live_bytes (serve_all scenario.svc session scenario.w0) scenario.docs = 3 /\
  live_count (serve_all scenario.svc session scenario.w0) scenario.docs = 1.
Proof. repeat split; by vm_compute. Qed.

(** C1, counterexample: one upload during which the upsert of the counters
    fails.  The row of 11 bytes is in table [files], the caller got an error,
    and the counters of the bucket are still (0, 0). *)
Lemma usage_counters_drift_after_failed_update :
  usage_consistent scenario.w0 /\
  (serve scenario.svc faults.usage_down
         (ReqUpload scenario.U scenario.docs (Some scenario.hello)) scenario.w0).1
    = Some (ErrWrap "update usage" (ErrIO "context deadline exceeded")) /\
  bucketrepo.usage_of (serve_all scenario.svc broken_session scenario.w0) scenario.docs
    = mkUsage 0 0 /\
  live_bytes (serve_all scenario.svc broken_session scenario.w0) scenario.docs = 11 /\
  live_count (serve_all scenario.svc broken_session scenario.w0) scenario.docs = 1 /\
  ~ usage_consistent (serve_all scenario.svc broken_session scenario.w0).
Proof.
  split; [apply scenario_w0_consistent|].
  repeat split; try by vm_compute.
  intros H. specialize (H scenario.docs). vm_compute in H. discriminate H.
Qed.

(** The same drift after a delete whose object removal fails: the row is
    gone and the counters still count it. *)
Example usage_counters_drift_after_failed_removal :
  (serve scenario.svc faults.remove_down
         (ReqDelete scenario.U scenario.docs scenario.f1) w1).1
    = Some (ErrWrap "remove object" (ErrIO "context deadline exceeded")) /\
  bucketrepo.usage_of
    ((serve scenario.svc faults.remove_down (ReqDelete scenario.U scenario.docs scenario.f1) w1).2)
    scenario.docs = mkUsage 11 1 /\
  live_count
    ((serve scenario.svc faults.remove_down (ReqDelete scenario.U scenario.docs scenario.f1) w1).2)
    scenario.docs = 0.
Proof. repeat split; by vm_compute. Qed.

(** * Further properties of the services *)

(** ** Reading a bucket *)

Arguments filerepo.Get : simpl never.
Arguments minio.GetObject : simpl never.

Lemma bucket_Get_hidden env o b w :
  fails env (CBucketGet o b) = None ->
  (forall row, buckets w !! b = Some row -> row_owner_id row <> o) ->
  bucketrepo.Get env o b w = (inl ErrBucketNotFound, w, [(CBucketGet o b, Some ErrNoRows)]).
Proof.
  intros Hf Hrow. unfold bucketrepo.Get, bucketrepo.select_bucket. run_monad. rewrite Hf.
  destruct (buckets w !! b) as [row|] eqn:Hb; [|done].
  rewrite bool_decide_eq_false_2; [done|]. by apply Hrow.
Qed.

Lemma bucket_Get_owned env o b w row :
  fails env (CBucketGet o b) = None ->
  buckets w !! b = Some row -> row_owner_id row = o ->
  bucketrepo.Get env o b w =
    (inr (mkBucket b o (row_name row) (row_description row) (row_created_at row)
                   (row_updated_at row) (bucketrepo.usage_of w b)),
     w, [(CBucketGet o b, None)]).
Proof.
  intros Hf Hb Ho. unfold bucketrepo.Get, bucketrepo.select_bucket. run_monad. rewrite Hf, Hb.
  rewrite bool_decide_eq_true_2 by done. by rewrite Ho.
Qed.

(** X1: GetBucket does not tell a bucket of another owner from a bucket that
    does not exist: in both cases it answers ErrBucketNotFound, and it never
    changes anything; for a bucket of the caller it answers the row with the
    counters of [bucket_usage], or zeros when there is no such row. *)
Theorem get_bucket_hides_buckets_of_others s env o b w :
  fails env (CBucketGet o b) = None ->
  ((forall row, buckets w !! b = Some row -> row_owner_id row <> o) ->
   bucket.GetBucket s env o b w
     = (inl ErrBucketNotFound, w, [(CBucketGet o b, Some ErrNoRows)])) /\
  (forall row,
     buckets w !! b = Some row -> row_owner_id row = o ->
     bucket.GetBucket s env o b w
       = (inr (mkBucket b o (row_name row) (row_description row) (row_created_at row)
                        (row_updated_at row)
                        (default (mkUsage 0 0) (bucket_usage w !! b))),
          w, [(CBucketGet o b, None)])).
Proof.
  intros Hf. split.
  - intros Hrow. by apply bucket_Get_hidden.
  - intros row Hb Ho. by apply bucket_Get_owned.
Qed.

Lemma get_bucket_hides_buckets_of_others_witness :
  bucket.GetBucket bsvc scenario.calm f2 scenario.docs w1
    = (inl ErrBucketNotFound, w1, [(CBucketGet f2 scenario.docs, Some ErrNoRows)]) /\
  bucket.GetBucket bsvc scenario.calm scenario.U f2 w1
    = (inl ErrBucketNotFound, w1, [(CBucketGet scenario.U f2, Some ErrNoRows)]) /\
  result_of (bucket.GetBucket bsvc scenario.calm scenario.U scenario.docs w1)
    = inr (mkBucket scenario.docs scenario.U "docs" None 1 1 (mkUsage 11 1)).
Proof.
  split; [|split].
  - apply (proj1 (get_bucket_hides_buckets_of_others bsvc scenario.calm f2 scenario.docs w1
                    eq_refl)).
    intros row Hrow. vm_compute in Hrow. injection Hrow as <-. by vm_compute.
  - apply (proj1 (get_bucket_hides_buckets_of_others bsvc scenario.calm scenario.U f2 w1
                    eq_refl)).
    intros row Hrow. vm_compute in Hrow. discriminate Hrow.
  - rewrite (proj2 (get_bucket_hides_buckets_of_others bsvc scenario.calm scenario.U
                      scenario.docs w1 eq_refl)
                   (mkBucketRow scenario.U "docs" None 1 1) ltac:(by vm_compute) eq_refl).
    by vm_compute.
Defined.

(** ** Upload, download and delete of a file *)

(** X2: an upload into a bucket that does not exist or belongs to another
    owner is refused with ErrBucketMismatch after the bucket lookup alone:
    nothing is opened, written or inserted. *)
Theorem upload_refused_for_bucket_of_others s env o b fh w :
  fails env (CBucketGet o b) = None ->
  (forall row, buckets w !! b = Some row -> row_owner_id row <> o) ->
  file.Upload s env o b (Some fh) w
    = (inl ErrBucketMismatch, w, [(CBucketGet o b, Some ErrNoRows)]).
Proof.
  intros Hf Hrow. unfold file.Upload, bind, attempt, fail.
  by rewrite (bucket_Get_hidden env o b w Hf Hrow).
Qed.

Lemma upload_refused_for_bucket_of_others_witness :
  file.Upload scenario.svc scenario.calm f2 scenario.docs (Some scenario.hello) scenario.w0
    = (inl ErrBucketMismatch, scenario.w0, [(CBucketGet f2 scenario.docs, Some ErrNoRows)]).
Proof.
  apply (upload_refused_for_bucket_of_others scenario.svc scenario.calm f2 scenario.docs
           scenario.hello scenario.w0 eq_refl).
  intros row Hrow. vm_compute in Hrow. injection Hrow as <-. by vm_compute.
Defined.

Lemma Upload_ok_owner s env o b fh w meta :
  result_of (file.Upload s env o b (Some fh) w) = inr meta ->
  exists row, buckets w !! b = Some row /\ row_owner_id row = o.
Proof.
  unfold file.Upload, bind, attempt, fail, result_of.
  destruct (bucket_Get_cases env o b w) as [(row & Hb & Ho & _)|(e & raw & Hget & _)].
  - intros _. eauto.
  - rewrite Hget. simpl. discriminate.
Qed.

(** The state after a successful upload. *)
Lemma Upload_ok_state s env o b fh w meta :
  result_of (file.Upload s env o b (Some fh) w) = inr meta ->
  files w !! ID meta = None /\
  files (world_of (file.Upload s env o b (Some fh) w)) = <[ID meta := meta]> (files w) /\
  buckets (world_of (file.Upload s env o b (Some fh) w)) = buckets w /\
  bucket_usage (world_of (file.Upload s env o b (Some fh) w))
    = <[b := usage_after (bucket_usage w !! b) (SizeBytes meta) 1]> (bucket_usage w) /\
  objects (world_of (file.Upload s env o b (Some fh) w))
    = <[(file.objectBucket s, ObjectName meta) :=
          mkObject (file.content fh) (ContentType meta)]> (objects w) /\
  BucketID meta = b /\
  SizeBytes meta = upload_actual env fh /\
  ~ too_large s (SizeBytes meta).
Proof.
  upload_cases s env o b fh w; intros Hr; simplify_eq. simpl.
  repeat split; try done.
  all: match goal with H : too_large _ _ |- _ => destruct H; unfold too_large in *; lia end.
Qed.

Lemma Upload_ok_checksum s env o b fh w meta :
  result_of (file.Upload s env o b (Some fh) w) = inr meta ->
  Checksum meta = SHA256Hex (file.content fh).
Proof. upload_cases s env o b fh w; intros Hr; by simplify_eq. Qed.

Lemma sanitizeFilename_nonempty name : file.sanitizeFilename name <> "".
Proof. unfold file.sanitizeFilename. case_bool_decide; [done|]. done. Qed.

Lemma detectContentType_nonempty fh : file.detectContentType fh <> "".
Proof.
  unfold file.detectContentType. destruct fh as [fh|]; [|done].
  case_bool_decide; done.
Qed.

(** X3: what a successful upload records.  The bucket is one of the caller;
    the id is the one just drawn; the object name is bucketID/fileID; the
    file name and the content type are never empty; the checksum is the
    SHA-256 of the bytes streamed; the size is not above a positive maximum;
    both time stamps are the time of the insert; and the object store holds
    the bytes under that object name with that content type. *)
Theorem upload_result s env o b fh w meta :
  result_of (file.Upload s env o b (Some fh) w) = inr meta ->
  (exists row, buckets w !! b = Some row /\ row_owner_id row = o) /\
  files w !! ID meta = None /\
  ID meta = fresh env 0 /\
  BucketID meta = b /\
  ObjectName meta = b +:+ "/" +:+ ID meta /\
  OriginalFilename meta <> "" /\
  ContentType meta <> "" /\
  (file.Header_ContentType fh <> "" -> ContentType meta = file.Header_ContentType fh) /\
  Checksum meta = SHA256Hex (file.content fh) /\
  (0 < file.maxFileSize s -> SizeBytes meta <= file.maxFileSize s) /\
  CreatedAt meta = now env /\ UpdatedAt meta = now env /\
  objects (world_of (file.Upload s env o b (Some fh) w))
    !! (file.objectBucket s, ObjectName meta)
    = Some (mkObject (file.content fh) (ContentType meta)).
Proof.
  intros Hr. split; [by eapply Upload_ok_owner|]. revert Hr.
  upload_cases s env o b fh w; intros Hr; simplify_eq. simpl.
  repeat split; try done.
  - apply sanitizeFilename_nonempty.
  - apply (detectContentType_nonempty (Some fh)).
  - intros Hct. unfold upload_ctype, file.detectContentType. by rewrite bool_decide_eq_true_2.
  - intros Hmax. unfold too_large in *. lia.
  - match goal with H : objects _ = _ |- _ => rewrite H end. apply lookup_insert_eq.
Qed.

Lemma upload_result_witness :
  BucketID faults.hello_row = scenario.docs /\
  ObjectName faults.hello_row = scenario.docs +:+ "/" +:+ scenario.f1 /\
  Checksum faults.hello_row = SHA256Hex "hello world".
Proof.
  pose proof (upload_result scenario.svc scenario.calm scenario.U scenario.docs scenario.hello
                scenario.w0 faults.hello_row ltac:(by vm_compute))
    as (_ & _ & _ & Hb & Hn & _ & _ & _ & Hc & _).
  split; [exact Hb|]. split; [exact Hn|exact Hc].
Defined.

Lemma GetObject_run env c n w :
  minio.GetObject env c n w =
  match fails env (CGetObject c n) with
  | Some e => (inl e, w, [(CGetObject c n, Some e)])
  | None => (inr (obj_data <$> objects w !! (c, n)), w, [(CGetObject c n, None)])
  end.
Proof. unfold minio.GetObject. run_monad. by destruct (fails env _). Qed.

Lemma file_Get_run env o b f w :
  fails env (CFileGet o b f) = None ->
  filerepo.Get env o b f w =
  match filerepo.owned_file w o b f with
  | Some meta => (inr meta, w, [(CFileGet o b f, None)])
  | None => (inl ErrFileNotFound, w, [(CFileGet o b f, Some ErrNoRows)])
  end.
Proof.
  intros Hf. unfold filerepo.Get. run_monad. rewrite Hf.
  by destruct (filerepo.owned_file w o b f).
Qed.

Lemma owned_file_Some w o b f meta row :
  files w !! f = Some meta -> BucketID meta = b ->
  buckets w !! b = Some row -> row_owner_id row = o ->
  filerepo.owned_file w o b f = Some meta.
Proof.
  intros Hf Hb Hrow Ho. unfold filerepo.owned_file. rewrite Hf.
  rewrite bool_decide_eq_true_2 by done. rewrite Hb, Hrow.
  by rewrite bool_decide_eq_true_2.
Qed.

(** X4: upload, then download.  After a successful upload, a download of the
    returned id by the same owner from the same bucket, with a metadata store
    and an object store that answer, returns the metadata of the upload and a
    reader over exactly the bytes that were uploaded, whose SHA-256 is the
    recorded checksum; it changes nothing. *)
Theorem download_returns_uploaded_bytes s env env' o b fh w meta :
  result_of (file.Upload s env o b (Some fh) w) = inr meta ->
  fails env' (CFileGet o b (ID meta)) = None ->
  fails env' (CGetObject (file.objectBucket s) (ObjectName meta)) = None ->
  file.Download s env' o b (ID meta) (world_of (file.Upload s env o b (Some fh) w))
    = (inr (meta, Some (file.content fh)),
       world_of (file.Upload s env o b (Some fh) w),
       [(CFileGet o b (ID meta), None);
        (CGetObject (file.objectBucket s) (ObjectName meta), None)]) /\
  Checksum meta = SHA256Hex (file.content fh).
Proof.
  intros Hr Hfg Hfo.
  destruct (Upload_ok_owner _ _ _ _ _ _ _ Hr) as (row & Hrow & Ho).
  pose proof (Upload_ok_state s env o b fh w meta Hr)
    as (_ & Hfile & Hbk & _ & Hobj & Hb & _).
  split; [|by apply (Upload_ok_checksum s env o b fh w)].
  unfold file.Download, bind, attempt, ret, fail.
  rewrite (file_Get_run _ _ _ _ _ Hfg).
  rewrite (owned_file_Some _ o b (ID meta) meta row); try done;
    [|by rewrite Hfile, lookup_insert_eq|by rewrite Hbk].
  simpl. rewrite GetObject_run, Hfo. simpl. by rewrite Hobj, lookup_insert_eq.
Qed.

Lemma download_returns_uploaded_bytes_witness :
  file.Download scenario.svc scenario.calm scenario.U scenario.docs scenario.f1 w1
    = (inr (faults.hello_row, Some "hello world"), w1,
       [(CFileGet scenario.U scenario.docs scenario.f1, None);
        (CGetObject "godrive" faults.f1_object, None)]).
Proof.
  exact (proj1 (download_returns_uploaded_bytes scenario.svc scenario.calm scenario.calm
                  scenario.U scenario.docs scenario.hello scenario.w0 faults.hello_row
                  ltac:(by vm_compute) eq_refl eq_refl)).
Defined.

(** X5: Download looks up the metadata under the ownership filter before it
    touches the object store: for a file that does not exist, is in another
    bucket, or is in a bucket of another owner it answers ErrFileNotFound
    without any call to the object store; when the lookup itself fails it
    answers that error, wrapped (ErrFileNotFound when the error is
    pgx.ErrNoRows), again without such a call; the object store is only
    ever asked after a lookup that found the file, and then for the object
    of that file.  Download never changes anything. *)
Theorem download_checks_ownership_first s env o b f w :
  (fails env (CFileGet o b f) = None ->
   files w !! f = None \/
   (exists meta, files w !! f = Some meta /\ BucketID meta <> b) \/
   (forall row, buckets w !! b = Some row -> row_owner_id row <> o) ->
     file.Download s env o b f w
       = (inl ErrFileNotFound, w, [(CFileGet o b f, Some ErrNoRows)])) /\
  (forall e, fails env (CFileGet o b f) = Some e ->
     file.Download s env o b f w
       = (inl (if bool_decide (e = ErrNoRows) then ErrFileNotFound
               else ErrWrap "get file metadata" e),
          w, [(CFileGet o b f, Some e)])) /\
  (forall c n r, In (CGetObject c n, r) (trace_of (file.Download s env o b f w)) ->
     exists meta, fails env (CFileGet o b f) = None /\
                  filerepo.owned_file w o b f = Some meta /\
                  c = file.objectBucket s /\ n = ObjectName meta /\
                  trace_of (file.Download s env o b f w)
                    = [(CFileGet o b f, None); (CGetObject c n, r)]) /\
  world_of (file.Download s env o b f w) = w.
Proof.
  split; [|split; [|split]].
  - intros Hf Habs. apply owned_file_None in Habs.
    unfold file.Download, bind, attempt, ret, fail.
    by rewrite (file_Get_run _ _ _ _ _ Hf), Habs.
  - intros e Hf. unfold file.Download, filerepo.Get, bind, attempt, ret, fail, invoke.
    rewrite Hf. simpl. by case_bool_decide.
  - intros c n r. unfold file.Download, filerepo.Get, bind, attempt, ret, fail, invoke, trace_of.
    destruct (fails env (CFileGet o b f)) as [e|]; simpl.
    { case_bool_decide; simpl; intros [Hin|[]]; discriminate Hin. }
    destruct (filerepo.owned_file w o b f) as [meta|]; simpl.
    + rewrite GetObject_run. destruct (fails env (CGetObject _ _)); simpl.
      all: intros [Hin|[Hin|[]]]; try discriminate Hin; simplify_eq; eauto 10.
    + intros [Hin|[]]; discriminate Hin.
  - unfold file.Download, filerepo.Get, bind, attempt, ret, fail, invoke, world_of.
    destruct (fails env (CFileGet o b f)) as [e|]; simpl.
    { by case_bool_decide. }
    destruct (filerepo.owned_file w o b f) as [meta|]; simpl; [|done].
    rewrite GetObject_run. by destruct (fails env (CGetObject _ _)).
Qed.

Lemma download_checks_ownership_first_witness :
  file.Download scenario.svc scenario.calm f2 scenario.docs scenario.f1 w1
    = (inl ErrFileNotFound, w1, [(CFileGet f2 scenario.docs scenario.f1, Some ErrNoRows)]).
Proof.
  apply (proj1 (download_checks_ownership_first scenario.svc scenario.calm f2 scenario.docs
                  scenario.f1 w1) eq_refl).
  right; right. intros row Hrow. vm_compute in Hrow. injection Hrow as <-. by vm_compute.
Defined.

(** X6: once Delete has removed the metadata row, whether or not its later
    steps went through, a second Delete of the same file answers
    ErrFileNotFound and does nothing: it removes no object and changes no
    counter.  So after a failed object removal a retry does not clean up. *)
Theorem delete_again_reports_not_found s env env' o b f w :
  In (CFileDelete o b f, None) (trace_of (file.Delete s env o b f w)) ->
  fails env' (CFileDelete o b f) = None ->
  file.Delete s env' o b f (world_of (file.Delete s env o b f w))
    = (inl ErrFileNotFound, world_of (file.Delete s env o b f w),
       [(CFileDelete o b f, Some ErrNoRows)]).
Proof.
  intros Hin Hf'.
  assert (files (world_of (file.Delete s env o b f w)) !! f = None) as Hgone.
  { revert Hin. delete_cases s env o b f w; intros Hin.
    all: unfold ev_delete, ev_unlink, ev_release in Hin.
    all: repeat (destruct Hin as [Hin|Hin]; [try discriminate Hin|]); try done.
    all: try apply lookup_delete_eq.
    match goal with H : files _ = _ |- _ => rewrite H end. apply lookup_delete_eq. }
  clear Hin. generalize dependent (world_of (file.Delete s env o b f w)). intros w' Hgone.
  destruct (file_Delete_cases env' o b f w')
    as [(meta & Hown & _)|(e & raw & Hdel & He & Hnone)].
  - apply owned_file_inv in Hown as (Hrow & _). congruence.
  - destruct (Hnone Hf') as [Hown ->].
    unfold file.Delete, bind. rewrite Hdel. simpl.
    revert Hdel. unfold filerepo.Delete, filerepo.delete_file. run_monad.
    rewrite Hf', Hown. simpl. intros; by simplify_eq.
Qed.

Lemma delete_again_reports_not_found_witness :
  file.Delete scenario.svc scenario.calm scenario.U scenario.docs scenario.f1
              (world_of (file.Delete scenario.svc faults.remove_down scenario.U scenario.docs
                                     scenario.f1 w1))
    = (inl ErrFileNotFound,
       world_of (file.Delete scenario.svc faults.remove_down scenario.U scenario.docs
                             scenario.f1 w1),
       [(CFileDelete scenario.U scenario.docs scenario.f1, Some ErrNoRows)]) /\
  is_Some (objects (world_of (file.Delete scenario.svc faults.remove_down scenario.U
                                          scenario.docs scenario.f1 w1))
             !! ("godrive", faults.f1_object)).
Proof.
  split.
  - apply (delete_again_reports_not_found scenario.svc faults.remove_down scenario.calm
             scenario.U scenario.docs scenario.f1 w1); [|done].
    vm_compute. tauto.
  - vm_compute. eauto.
Defined.

(** The state after a successful delete. *)
Lemma Delete_ok_state s env o b f w :
  result_of (file.Delete s env o b f w) = inr tt ->
  exists meta,
    filerepo.owned_file w o b f = Some meta /\
    files (world_of (file.Delete s env o b f w)) = delete f (files w) /\
    buckets (world_of (file.Delete s env o b f w)) = buckets w /\
    bucket_usage (world_of (file.Delete s env o b f w))
      = <[b := usage_after (bucket_usage w !! b) (neg64 (SizeBytes meta)) (-1)]> (bucket_usage w) /\
    objects (world_of (file.Delete s env o b f w))
      = delete (file.objectBucket s, ObjectName meta) (objects w).
Proof.
  delete_cases s env o b f w; intros Hr; simplify_eq. eauto 10.
Qed.

(** X7: upload, then delete.  When an upload succeeds and the delete of the
    returned id succeeds after it, the table of file metadata is what it was
    before the upload, the object is gone, and every bucket reads the usage
    counters it read before (the counters of the bucket were not negative,
    the declared size was not negative, the maximum is a positive int64). *)
Theorem delete_undoes_upload s env env' o b fh w meta :
  0 < file.maxFileSize s <= max_int64 ->
  0 <= file.Size fh ->
  0 <= TotalBytes (bucketrepo.usage_of w b) -> 0 <= FileCount (bucketrepo.usage_of w b) ->
  result_of (file.Upload s env o b (Some fh) w) = inr meta ->
  result_of (file.Delete s env' o b (ID meta) (world_of (file.Upload s env o b (Some fh) w)))
    = inr tt ->
  files (world_of (file.Delete s env' o b (ID meta)
                               (world_of (file.Upload s env o b (Some fh) w)))) = files w /\
  buckets (world_of (file.Delete s env' o b (ID meta)
                                 (world_of (file.Upload s env o b (Some fh) w)))) = buckets w /\
  objects (world_of (file.Delete s env' o b (ID meta)
                                 (world_of (file.Upload s env o b (Some fh) w))))
    = delete (file.objectBucket s, ObjectName meta) (objects w) /\
  (forall b',
     bucketrepo.usage_of (world_of (file.Delete s env' o b (ID meta)
                                      (world_of (file.Upload s env o b (Some fh) w)))) b'
     = bucketrepo.usage_of w b').
Proof.
  intros Hmax Hsize Htb Hfc Hup Hdel.
  pose proof (Upload_ok_state s env o b fh w meta Hup)
    as (Hfresh & Hf1 & Hb1 & Hu1 & Ho1 & Hbk & Hact & Hnl).
  generalize dependent (world_of (file.Upload s env o b (Some fh) w)). intros w' Hdel Hf1 Hb1 Hu1 Ho1.
  destruct (Delete_ok_state s env' o b (ID meta) w' Hdel) as (meta' & Hown & Hf2 & Hb2 & Hu2 & Ho2).
  apply owned_file_inv in Hown as (Hrow & _).
  rewrite Hf1, lookup_insert_eq in Hrow. injection Hrow as <-.
  generalize dependent (world_of (file.Delete s env' o b (ID meta) w')). intros w'' Hf2 Hb2 Ho2 Hu2.
  assert (0 <= SizeBytes meta <= max_int64) as Hrange.
  { rewrite Hact. unfold too_large, upload_actual in *.
    rewrite Hact in Hnl. unfold upload_actual in Hnl.
    destruct (Z.leb_spec (put_size env) 0); lia. }
  split; [|split; [|split]].
  - rewrite Hf2, Hf1. by apply delete_insert_id.
  - by rewrite Hb2.
  - rewrite Ho2, Ho1. apply delete_insert_eq.
  - intros b'. unfold bucketrepo.usage_of in *. rewrite Hu2, Hu1.
    destruct (decide (b = b')) as [<-|Hne].
    + rewrite !lookup_insert_eq. rewrite neg64_opp by done. simpl.
      destruct (bucket_usage w !! b) as [[tb fc]|]; simpl in *; f_equal; lia.
    + by rewrite !lookup_insert_ne.
Qed.

Lemma delete_undoes_upload_witness :
  files (world_of (file.Delete scenario.svc scenario.calm scenario.U scenario.docs scenario.f1 w1))
    = files scenario.w0 /\
  bucketrepo.usage_of
    (world_of (file.Delete scenario.svc scenario.calm scenario.U scenario.docs scenario.f1 w1))
    scenario.docs = mkUsage 0 0.
Proof.
  pose proof (delete_undoes_upload scenario.svc scenario.calm scenario.calm scenario.U
                scenario.docs scenario.hello scenario.w0 faults.hello_row
                ltac:(by vm_compute) ltac:(by vm_compute) ltac:(by vm_compute)
                ltac:(by vm_compute) ltac:(by vm_compute) ltac:(by vm_compute))
    as (Hf & _ & _ & Hu).
  split; [exact Hf|]. exact (Hu scenario.docs).
Defined.

(** ** Listing the files of a bucket *)

#[global] Instance file_newer_total : Total filerepo.newer.
Proof. intros m1 m2. unfold filerepo.newer. lia. Qed.

Lemma ask_rows_run {A} qf (q : stage -> query) m1 m2 m3 (rows : World -> list A) w :
  world_of (ask_rows qf q m1 m2 m3 rows w) = w /\
  trace_of (ask_rows qf q m1 m2 m3 rows w) = [] /\
  (forall l, result_of (ask_rows qf q m1 m2 m3 rows w) = inr l -> l = rows w) /\
  (qf (q AtQuery) = None -> qf (q AtScan) = None -> qf (q AtRows) = None ->
   ask_rows qf q m1 m2 m3 rows w = (inr (rows w), w, [])).
Proof.
  unfold ask_rows, world_of, trace_of, result_of.
  destruct (qf (q AtQuery)); simpl; [by repeat split|].
  destruct (rows w) eqn:Hrows; destruct (qf (q AtScan)); simpl;
    destruct (qf (q AtRows)); simpl; repeat split; try done.
  all: intros; by simplify_eq.
Qed.

Lemma files_of_owned_bucket_spec o b w row :
  buckets w !! b = Some row -> row_owner_id row = o ->
  filerepo.files_of_owned_bucket o b w ≡ₚ
    map snd (filter (fun kv : string * Metadata => BucketID kv.2 = b) (map_to_list (files w))) /\
  Sorted filerepo.newer (filerepo.files_of_owned_bucket o b w).
Proof.
  intros Hb Ho. unfold filerepo.files_of_owned_bucket. rewrite Hb.
  rewrite bool_decide_eq_true_2 by done. split.
  - apply merge_sort_Permutation.
  - apply (Sorted_merge_sort _).
Qed.

Lemma elem_of_bucket_rows (fs : gmap string Metadata) b m :
  m ∈ map snd (filter (fun kv : string * Metadata => BucketID kv.2 = b) (map_to_list fs)) <->
  exists id, fs !! id = Some m /\ BucketID m = b.
Proof.
  rewrite list_elem_of_fmap. split.
  - intros ([id m'] & -> & Hin). apply list_elem_of_filter in Hin as [Hb Hin].
    apply elem_of_map_to_list in Hin. eauto.
  - intros (id & Hid & Hb). exists (id, m). split; [done|].
    apply list_elem_of_filter. split; [done|]. by apply elem_of_map_to_list.
Qed.

(** X8: List of the files of a bucket.  For a bucket that does not exist or
    belongs to another owner it answers ErrBucketMismatch without querying
    the files.  When it succeeds, the bucket is one of the caller, nothing
    was changed, and the answer holds every metadata row of the bucket
    exactly once (it is a permutation of those rows), no row of any other
    bucket, and is ordered newest first. *)
Theorem list_files_of_bucket s qf env o b w :
  (fails env (CBucketGet o b) = None ->
   (forall row, buckets w !! b = Some row -> row_owner_id row <> o) ->
   file.List s qf env o b w = (inl ErrBucketMismatch, w, [(CBucketGet o b, Some ErrNoRows)])) /\
  (forall l,
     result_of (file.List s qf env o b w) = inr l ->
     world_of (file.List s qf env o b w) = w /\
     (exists row, buckets w !! b = Some row /\ row_owner_id row = o) /\
     l ≡ₚ map snd (filter (fun kv : string * Metadata => BucketID kv.2 = b)
                          (map_to_list (files w))) /\
     (forall m, m ∈ l <-> exists id, files w !! id = Some m /\ BucketID m = b) /\
     Sorted (fun m1 m2 => CreatedAt m2 <= CreatedAt m1) l).
Proof.
  split.
  - intros Hf Hrow. unfold file.List, bind, attempt, fail.
    by rewrite (bucket_Get_hidden env o b w Hf Hrow).
  - intros l. unfold file.List, filerepo.List, bind, attempt, fail.
    destruct (bucket_Get_cases env o b w) as [(row & Hb & Ho & _ & Hget)|(e & raw & Hget & _)];
      rewrite Hget; simpl; [|discriminate].
    pose proof (ask_rows_run qf (QFileList o b) "list files" "scan file metadata" "iterate files"
                  (filerepo.files_of_owned_bucket o b) w) as (Hw & _ & Hres & _).
    destruct (ask_rows qf _ _ _ _ _ w) as [[r w'] t]. unfold result_of, world_of in *; simpl in *.
    intros ->. rewrite (Hres l eq_refl).
    destruct (files_of_owned_bucket_spec o b w row Hb Ho) as [Hperm Hsorted].
    repeat split; eauto.
    + intros Hin. apply elem_of_bucket_rows. by rewrite <- Hperm.
    + intros Hin. rewrite Hperm. by apply elem_of_bucket_rows.
Qed.

Lemma list_files_of_bucket_witness :
  file.List scenario.svc no_faults scenario.calm f2 scenario.docs w2
    = (inl ErrBucketMismatch, w2, [(CBucketGet f2 scenario.docs, Some ErrNoRows)]) /\
  Sorted (fun m1 m2 => CreatedAt m2 <= CreatedAt m1)
         [mkMetadata f2 scenario.docs (scenario.docs +:+ "/" +:+ f2) "b.txt" 3
                     "application/octet-stream" (SHA256Hex "abc") 6 6;
          faults.hello_row].
Proof.
  split.
  - apply (proj1 (list_files_of_bucket scenario.svc no_faults scenario.calm f2 scenario.docs w2)
             eq_refl).
    intros row Hrow. vm_compute in Hrow. injection Hrow as <-. by vm_compute.
  - apply (proj2 (list_files_of_bucket scenario.svc no_faults scenario.calm scenario.U
                    scenario.docs w2)).
    by vm_compute.
Defined.

(** ** strings.TrimSpace *)

Lemma append_cons a s t : String a s +:+ t = String a (s +:+ t).
Proof. reflexivity. Qed.

Lemma TrimLeftSpace_spec s :
  clean_front gostrings.space2 gostrings.space3 (gostrings.TrimLeftSpace s) /\
  exists pre, s = pre +:+ gostrings.TrimLeftSpace s.
Proof.
  assert (forall n s, (String.length s < n)%nat ->
            clean_front gostrings.space2 gostrings.space3 (gostrings.TrimLeftSpace s) /\
            exists pre, s = pre +:+ gostrings.TrimLeftSpace s) as H.
  { clear s. induction n as [|n IH]; intros s Hn; [lia|].
    destruct s as [|a r]; simpl; [split; [done|by exists ""]|].
    destruct (gostrings.asciiSpace a) eqn:Ha.
    { destruct (IH r) as [Hc [pre Hp]]; [simpl in Hn; lia|].
      split; [done|]. exists (String a pre). rewrite append_cons. by f_equal. }
    destruct r as [|b r2]; [split; [done|by exists ""]|].
    destruct (gostrings.space2 a b) eqn:Hb.
    { destruct (IH r2) as [Hc [pre Hp]]; [simpl in Hn; lia|].
      split; [done|]. exists (String a (String b pre)). rewrite !append_cons. by do 2 f_equal. }
    destruct r2 as [|c r3]; [split; [done|by exists ""]|].
    destruct (gostrings.space3 a b c) eqn:Hc3.
    { destruct (IH r3) as [Hc [pre Hp]]; [simpl in Hn; lia|].
      split; [done|]. exists (String a (String b (String c pre))). rewrite !append_cons. by do 3 f_equal. }
    split; [done|by exists ""]. }
  apply (H (S (String.length s))). lia.
Qed.

Lemma trimReversed_spec s :
  clean_front space2_back space3_back (gostrings.trimReversed s) /\
  exists pre, s = pre +:+ gostrings.trimReversed s.
Proof.
  assert (forall n s, (String.length s < n)%nat ->
            clean_front space2_back space3_back (gostrings.trimReversed s) /\
            exists pre, s = pre +:+ gostrings.trimReversed s) as H.
  { clear s. induction n as [|n IH]; intros s Hn; [lia|].
    destruct s as [|a r]; simpl; [split; [done|by exists ""]|].
    destruct (gostrings.asciiSpace a) eqn:Ha.
    { destruct (IH r) as [Hc [pre Hp]]; [simpl in Hn; lia|].
      split; [done|]. exists (String a pre). rewrite append_cons. by f_equal. }
    destruct r as [|b r2]; [split; [done|by exists ""]|].
    destruct (gostrings.space2 b a) eqn:Hb.
    { destruct (IH r2) as [Hc [pre Hp]]; [simpl in Hn; lia|].
      split; [done|]. exists (String a (String b pre)). rewrite !append_cons. by do 2 f_equal. }
    destruct r2 as [|c r3]; [split; [done|by exists ""]|].
    destruct (gostrings.space3 c b a) eqn:Hc3.
    { destruct (IH r3) as [Hc [pre Hp]]; [simpl in Hn; lia|].
      split; [done|]. exists (String a (String b (String c pre))). rewrite !append_cons. by do 3 f_equal. }
    split; [done|by exists ""]. }
  apply (H (S (String.length s))). lia.
Qed.

Lemma TrimLeftSpace_clean s :
  clean_front gostrings.space2 gostrings.space3 s -> gostrings.TrimLeftSpace s = s.
Proof.
  destruct s as [|a [|b [|c r3]]]; simpl; try done.
  - by intros [-> _].
  - by intros [-> [-> _]].
  - by intros [-> [-> ->]].
Qed.

Lemma trimReversed_clean s :
  clean_front space2_back space3_back s -> gostrings.trimReversed s = s.
Proof.
  unfold space2_back, space3_back.
  destruct s as [|a [|b [|c r3]]]; simpl; try done.
  - by intros [-> _].
  - by intros [-> [-> _]].
  - by intros [-> [-> ->]].
Qed.

Lemma clean_front_prefix sp2 sp3 t z : clean_front sp2 sp3 (t +:+ z) -> clean_front sp2 sp3 t.
Proof. destruct t as [|a [|b [|c r3]]]; rewrite ?append_cons; simpl; tauto. Qed.

Lemma list_ascii_of_string_app a b :
  list_ascii_of_string (a +:+ b) = list_ascii_of_string a ++ list_ascii_of_string b.
Proof. induction a as [|x a IH]; [done|]. rewrite append_cons. simpl. by rewrite IH. Qed.

Lemma string_of_list_ascii_app l1 l2 :
  string_of_list_ascii (l1 ++ l2) = string_of_list_ascii l1 +:+ string_of_list_ascii l2.
Proof. induction l1 as [|x l1 IH]; simpl; [done|]. by rewrite IH, append_cons. Qed.

Lemma reverse_involutive s : gostrings.reverse (gostrings.reverse s) = s.
Proof.
  unfold gostrings.reverse.
  by rewrite list_ascii_of_string_of_list_ascii, rev_involutive, string_of_list_ascii_of_string.
Qed.

Lemma reverse_app a b :
  gostrings.reverse (a +:+ b) = gostrings.reverse b +:+ gostrings.reverse a.
Proof.
  unfold gostrings.reverse.
  by rewrite list_ascii_of_string_app, rev_app_distr, string_of_list_ascii_app.
Qed.

Lemma TrimRightSpace_prefix u : exists z, u = gostrings.TrimRightSpace u +:+ z.
Proof.
  unfold gostrings.TrimRightSpace.
  destruct (trimReversed_spec (gostrings.reverse u)) as [_ [pre Hp]].
  exists (gostrings.reverse pre).
  rewrite <- reverse_app, <- Hp. by rewrite reverse_involutive.
Qed.

Lemma TrimRightSpace_idem u :
  gostrings.TrimRightSpace (gostrings.TrimRightSpace u) = gostrings.TrimRightSpace u.
Proof.
  unfold gostrings.TrimRightSpace. rewrite reverse_involutive.
  rewrite (trimReversed_clean (gostrings.trimReversed _)); [done|].
  apply trimReversed_spec.
Qed.

(** Trimming what is already trimmed changes nothing; so the second
    [strings.TrimSpace], in [Repository.Create], is harmless. *)
Lemma TrimSpace_idem s : gostrings.TrimSpace (gostrings.TrimSpace s) = gostrings.TrimSpace s.
Proof.
  unfold gostrings.TrimSpace.
  rewrite (TrimLeftSpace_clean (gostrings.TrimRightSpace _)).
  - apply TrimRightSpace_idem.
  - destruct (TrimRightSpace_prefix (gostrings.TrimLeftSpace s)) as [z Hz].
    apply (clean_front_prefix _ _ _ z). rewrite <- Hz. apply TrimLeftSpace_spec.
Qed.

Example TrimSpace_examples :
  gostrings.TrimSpace "  docs	" = "docs" /\
  gostrings.TrimSpace (String (ascii_of_N 194) (String (ascii_of_N 160) "a b ")) = "a b" /\
  gostrings.TrimSpace " 	" = "".
Proof. repeat split; by vm_compute. Qed.

(** ** Creating a bucket *)

Lemma name_taken_spec (w : World) o n :
  bucketrepo.name_taken (buckets w) o n = true <-> has_bucket_named w o n.
Proof.
  unfold bucketrepo.name_taken, has_bucket_named. rewrite existsb_exists. split.
  - intros ([id row] & Hin & Hb). apply list_elem_of_In, elem_of_map_to_list in Hin.
    apply andb_true_iff in Hb as [Ho Hn].
    apply bool_decide_eq_true in Ho. apply bool_decide_eq_true in Hn. eauto.
  - intros (id & row & Hrow & Ho & Hn). exists (id, row). split.
    + by apply list_elem_of_In, elem_of_map_to_list.
    + simpl. by rewrite !bool_decide_eq_true_2.
Qed.

(** The paths of [CreateBucket]. *)
Lemma CreateBucket_cases s qf env o name d w :
  let n := gostrings.TrimSpace name in
  let id := fresh env 0 in
  let run := bucket.CreateBucket s qf env o name d w in
  (n = "" /\ run = (inl (ErrNew "bucket name required"), w, []))
  \/ (n <> "" /\ exists e, qf (QBucketInsert o n) = Some e /\
      run = (inl (if bucketrepo.isUniqueViolation e then ErrBucketNameExists
                  else ErrWrap "create bucket" e), w, []))
  \/ (n <> "" /\ qf (QBucketInsert o n) = None /\
      (is_Some (buckets w !! id) \/ has_bucket_named w o n) /\
      run = (inl ErrBucketNameExists, w, []))
  \/ (n <> "" /\ qf (QBucketInsert o n) = None /\
      buckets w !! id = None /\ ~ has_bucket_named w o n /\
      exists e, qf (QEnsureUsageRow id) = Some e /\
      run = (inl (ErrWrap "ensure usage row" e), with_bucket env o n d w, []))
  \/ (n <> "" /\ qf (QBucketInsert o n) = None /\
      buckets w !! id = None /\ ~ has_bucket_named w o n /\
      qf (QEnsureUsageRow id) = None /\
      run = (inr (mkBucket id o n d (now env) (now env) (mkUsage 0 0)),
             with_usage_row id (with_bucket env o n d w), [])).
Proof.
  intros n id run. subst run.
  assert (gostrings.TrimSpace n = n) as Hidem by apply TrimSpace_idem.
  unfold bucket.CreateBucket. fold n.
  case_bool_decide as Hn; [by left|]. right.
  unfold bucketrepo.Create, bucketrepo.ensureUsageRow, bucketrepo.insert_bucket,
    bucketrepo.insert_usage_row, bind, attempt, ret, fail, ask.
  rewrite !Hidem. fold id.
  destruct (qf (QBucketInsert o n)) as [e|] eqn:Hq; simpl.
  { left. split; [done|]. exists e. split; [done|]. by destruct (bucketrepo.isUniqueViolation e). }
  right.
  destruct (buckets w !! id) as [row|] eqn:Hid; simpl.
  { left. repeat split; eauto. }
  destruct (bucketrepo.name_taken (buckets w) o n) eqn:Hnt; simpl.
  { left. repeat split; try done. right. by apply name_taken_spec. }
  right.
  assert (~ has_bucket_named w o n) as Hfree.
  { intros Hh. apply name_taken_spec in Hh. congruence. }
  destruct (qf (QEnsureUsageRow id)) as [e|] eqn:Hq2; simpl.
  { left. repeat split; try done. by exists e. }
  right. rewrite lookup_insert_eq. unfold with_usage_row, with_bucket. fold id. simpl.
  destruct (bucket_usage w !! id); simpl; by repeat split.
Qed.

Lemma CreateBucket_taken s qf env o name d w :
  gostrings.TrimSpace name <> "" ->
  qf (QBucketInsert o (gostrings.TrimSpace name)) = None ->
  has_bucket_named w o (gostrings.TrimSpace name) ->
  bucket.CreateBucket s qf env o name d w = (inl ErrBucketNameExists, w, []).
Proof.
  intros Hnb Hqf Htaken.
  destruct (CreateBucket_cases s qf env o name d w)
    as [[Hn Hr]|[(Hn & e & Hq & Hr)|[(Hn & Hq & Hex & Hr)|[(Hn & Hq & Hid & Hfree & e & Hq2 & Hr)
       |(Hn & Hq & Hid & Hfree & Hq2 & Hr)]]]]; try done; congruence.
Qed.

(** X9: CreateBucket refuses a name that is empty once trimmed, before any
    query, and refuses with ErrBucketNameExists a name that, once trimmed, is
    the name of a bucket the owner already has; in both cases nothing is
    changed. *)
Theorem create_bucket_refuses_blank_and_taken_names s qf env o name d w :
  (gostrings.TrimSpace name = "" ->
   bucket.CreateBucket s qf env o name d w = (inl (ErrNew "bucket name required"), w, [])) /\
  (gostrings.TrimSpace name <> "" ->
   qf (QBucketInsert o (gostrings.TrimSpace name)) = None ->
   has_bucket_named w o (gostrings.TrimSpace name) ->
   bucket.CreateBucket s qf env o name d w = (inl ErrBucketNameExists, w, [])).
Proof.
  destruct (CreateBucket_cases s qf env o name d w)
    as [[Hn Hr]|[(Hn & e & Hq & Hr)|[(Hn & Hq & Hex & Hr)|[(Hn & Hq & Hid & Hfree & e & Hq2 & Hr)
       |(Hn & Hq & Hid & Hfree & Hq2 & Hr)]]]].
  all: split; [intros Hblank|intros Hnb Hqf Htaken]; try done; try congruence.
Qed.

Lemma create_bucket_refuses_blank_and_taken_names_witness :
  bucket.CreateBucket bsvc no_faults second scenario.U "   " None w1
    = (inl (ErrNew "bucket name required"), w1, []) /\
  bucket.CreateBucket bsvc no_faults second scenario.U " docs " None w1
    = (inl ErrBucketNameExists, w1, []).
Proof.
  split.
  - apply (proj1 (create_bucket_refuses_blank_and_taken_names bsvc no_faults second scenario.U
                    "   " None w1)).
    by vm_compute.
  - apply (proj2 (create_bucket_refuses_blank_and_taken_names bsvc no_faults second scenario.U
                    " docs " None w1)); [by vm_compute|done|].
    exists scenario.docs, (mkBucketRow scenario.U "docs" None 1 1). by vm_compute.
Defined.

Lemma with_bucket_usage_of env o n d w id b :
  bucketrepo.usage_of (with_usage_row id (with_bucket env o n d w)) b = bucketrepo.usage_of w b.
Proof.
  unfold with_usage_row, with_bucket, bucketrepo.usage_of. simpl.
  destruct (bucket_usage w !! id) eqn:Hu; simpl; [done|].
  destruct (decide (id = b)) as [<-|Hne].
  - by rewrite lookup_insert_eq, Hu.
  - by rewrite lookup_insert_ne.
Qed.

(** X10: what a successful CreateBucket leaves behind.  The bucket handed
    back carries the identifier just drawn, the owner, the trimmed name
    (never empty), zero usage and the time of the insert; no bucket had that
    identifier and the owner had no bucket of that name; the row is in table
    [buckets], the bucket has a usage row, files and objects are untouched,
    every bucket reads the counters it read before; and GetBucket by the
    owner finds it while GetBucket by anyone else answers ErrBucketNotFound. *)
Theorem create_bucket_result s qf env env' o name d w bk :
  result_of (bucket.CreateBucket s qf env o name d w) = inr bk ->
  bk = mkBucket (fresh env 0) o (gostrings.TrimSpace name) d (now env) (now env) (mkUsage 0 0) /\
  Name bk <> "" /\
  buckets w !! Bucket_ID bk = None /\
  ~ has_bucket_named w o (Name bk) /\
  buckets (world_of (bucket.CreateBucket s qf env o name d w))
    = <[Bucket_ID bk := mkBucketRow o (Name bk) d (now env) (now env)]> (buckets w) /\
  is_Some (bucket_usage (world_of (bucket.CreateBucket s qf env o name d w)) !! Bucket_ID bk) /\
  files (world_of (bucket.CreateBucket s qf env o name d w)) = files w /\
  objects (world_of (bucket.CreateBucket s qf env o name d w)) = objects w /\
  (forall b, bucketrepo.usage_of (world_of (bucket.CreateBucket s qf env o name d w)) b
             = bucketrepo.usage_of w b) /\
  (fails env' (CBucketGet o (Bucket_ID bk)) = None ->
   result_of (bucket.GetBucket s env' o (Bucket_ID bk)
                (world_of (bucket.CreateBucket s qf env o name d w)))
     = inr (mkBucket (Bucket_ID bk) o (Name bk) d (now env) (now env)
                     (bucketrepo.usage_of w (Bucket_ID bk)))) /\
  (forall o', o' <> o -> fails env' (CBucketGet o' (Bucket_ID bk)) = None ->
   result_of (bucket.GetBucket s env' o' (Bucket_ID bk)
                (world_of (bucket.CreateBucket s qf env o name d w)))
     = inl ErrBucketNotFound).
Proof.
  destruct (CreateBucket_cases s qf env o name d w)
    as [[Hn Hr]|[(Hn & e & Hq & Hr)|[(Hn & Hq & Hex & Hr)|[(Hn & Hq & Hid & Hfree & e & Hq2 & Hr)
       |(Hn & Hq & Hid & Hfree & Hq2 & Hr)]]]];
    rewrite Hr; unfold result_of, world_of; simpl; try discriminate.
  intros [= <-]. simpl.
  assert (buckets (with_usage_row (fresh env 0)
                     (with_bucket env o (gostrings.TrimSpace name) d w))
          = <[fresh env 0 := mkBucketRow o (gostrings.TrimSpace name) d (now env) (now env)]>
              (buckets w)) as Hb.
  { unfold with_usage_row, with_bucket. by destruct (bucket_usage _ !! _). }
  repeat split; try done.
  - unfold with_usage_row, with_bucket. simpl.
    destruct (bucket_usage w !! fresh env 0) eqn:Hu; simpl; [by rewrite Hu|].
    by rewrite lookup_insert_eq.
  - unfold with_usage_row, with_bucket. by destruct (bucket_usage _ !! _).
  - unfold with_usage_row, with_bucket. by destruct (bucket_usage _ !! _).
  - intros b. apply with_bucket_usage_of.
  - intros Hf. unfold bucket.GetBucket.
    rewrite (bucket_Get_owned env' o (fresh env 0) _
               (mkBucketRow o (gostrings.TrimSpace name) d (now env) (now env)) Hf);
      [|by rewrite Hb, lookup_insert_eq|done].
    simpl. by rewrite with_bucket_usage_of.
  - intros o' Hne Hf. unfold bucket.GetBucket.
    rewrite (bucket_Get_hidden env' o' (fresh env 0) _ Hf); [done|].
    intros row. rewrite Hb, lookup_insert_eq. intros [= <-]. simpl. congruence.
Qed.

Lemma create_bucket_result_witness :
  result_of (bucket.CreateBucket bsvc no_faults second V " docs " None w1)
    = inr (mkBucket f2 V "docs" None 6 6 (mkUsage 0 0)) /\
  result_of (bucket.GetBucket bsvc scenario.calm scenario.U f2
               (world_of (bucket.CreateBucket bsvc no_faults second V " docs " None w1)))
    = inl ErrBucketNotFound.
Proof.
  assert (result_of (bucket.CreateBucket bsvc no_faults second V " docs " None w1)
          = inr (mkBucket f2 V "docs" None 6 6 (mkUsage 0 0))) as Hr by (by vm_compute).
  split; [exact Hr|].
  pose proof (create_bucket_result bsvc no_faults second scenario.calm V " docs " None w1 _ Hr)
    as (_ & _ & _ & _ & _ & _ & _ & _ & _ & _ & Hother).
  apply (Hother scenario.U); [by vm_compute|done].
Defined.

(** X11: CreateBucket, whatever its outcome, keeps the names of the buckets
    of each owner distinct and keeps the usage counters of every bucket equal
    to the sum and the number of its file rows. *)
Theorem create_bucket_keeps_invariants s qf env o name d w :
  (names_unique w -> names_unique (world_of (bucket.CreateBucket s qf env o name d w))) /\
  (usage_consistent w -> usage_consistent (world_of (bucket.CreateBucket s qf env o name d w))).
Proof.
  assert (forall w', (buckets w' = buckets w \/
                      (buckets w !! fresh env 0 = None /\
                       ~ has_bucket_named w o (gostrings.TrimSpace name) /\
                       buckets w' = <[fresh env 0 := mkBucketRow o (gostrings.TrimSpace name) d
                                                                 (now env) (now env)]> (buckets w))) ->
                     names_unique w -> names_unique w') as Hnames.
  { intros w' [Hb|(Hid & Hfree & Hb)] Hu id1 id2 r1 r2; rewrite Hb; [apply Hu|].
    destruct (decide (fresh env 0 = id1)) as [<-|H1], (decide (fresh env 0 = id2)) as [<-|H2];
      rewrite ?lookup_insert_eq, ?lookup_insert_ne by done; try done.
    - intros [= <-] Hr2 Ho Hn. simpl in *. destruct Hfree. exists id2, r2. by rewrite Ho, Hn.
    - intros Hr1 [= <-] Ho Hn. simpl in *. destruct Hfree. exists id1, r1. by rewrite Ho, Hn.
    - apply Hu. }
  assert (forall w', files w' = files w ->
                     (forall b, bucketrepo.usage_of w' b = bucketrepo.usage_of w b) ->
                     usage_consistent w -> usage_consistent w') as Husage.
  { intros w' Hf Hu Hc b. rewrite Hu. unfold live_bytes, live_count. rewrite Hf. apply Hc. }
  destruct (CreateBucket_cases s qf env o name d w)
    as [[Hn Hr]|[(Hn & e & Hq & Hr)|[(Hn & Hq & Hex & Hr)|[(Hn & Hq & Hid & Hfree & e & Hq2 & Hr)
       |(Hn & Hq & Hid & Hfree & Hq2 & Hr)]]]];
    rewrite Hr; unfold world_of; simpl; try done.
  - split; [apply Hnames; right; by repeat split|by apply Husage].
  - split.
    + apply Hnames. right. repeat split; try done.
      unfold with_usage_row, with_bucket. by destruct (bucket_usage _ !! _).
    + apply Husage; [|intros b; apply with_bucket_usage_of].
      unfold with_usage_row, with_bucket. by destruct (bucket_usage _ !! _).
Qed.

Lemma scenario_w1_names_unique : names_unique w1.
Proof.
  intros id1 id2 r1 r2 H1 H2 _ _.
  assert (forall id r, buckets w1 !! id = Some r -> id = scenario.docs) as Honly.
  { intros id r. change (buckets w1) with (<[scenario.docs := mkBucketRow scenario.U "docs" None 1 1]>
                                            (∅ : gmap string BucketRow)).
    destruct (decide (scenario.docs = id)) as [<-|Hne]; [done|].
    by rewrite lookup_insert_ne, lookup_empty. }
  by rewrite (Honly _ _ H1), (Honly _ _ H2).
Qed.

Lemma create_bucket_keeps_invariants_witness :
  names_unique (world_of (bucket.CreateBucket bsvc no_faults second V " docs " None w1)).
Proof.
  apply (proj1 (create_bucket_keeps_invariants bsvc no_faults second V " docs " None w1)).
  apply scenario_w1_names_unique.
Defined.

(** X12: when the bucket row is inserted but the insert of its usage row
    fails, CreateBucket returns that error although the bucket exists: the
    row stays in table [buckets], the owner can read the bucket (with zero
    usage when no usage row exists), and a second CreateBucket with the same
    name answers ErrBucketNameExists. *)
Theorem create_bucket_without_usage_row s qf qf' env env' o name d w e :
  gostrings.TrimSpace name <> "" ->
  qf (QBucketInsert o (gostrings.TrimSpace name)) = None ->
  buckets w !! fresh env 0 = None ->
  ~ has_bucket_named w o (gostrings.TrimSpace name) ->
  qf (QEnsureUsageRow (fresh env 0)) = Some e ->
  bucket.CreateBucket s qf env o name d w
    = (inl (ErrWrap "ensure usage row" e), with_bucket env o (gostrings.TrimSpace name) d w, []) /\
  buckets (with_bucket env o (gostrings.TrimSpace name) d w) !! fresh env 0
    = Some (mkBucketRow o (gostrings.TrimSpace name) d (now env) (now env)) /\
  (fails env' (CBucketGet o (fresh env 0)) = None ->
   result_of (bucket.GetBucket s env' o (fresh env 0)
                (with_bucket env o (gostrings.TrimSpace name) d w))
     = inr (mkBucket (fresh env 0) o (gostrings.TrimSpace name) d (now env) (now env)
                     (bucketrepo.usage_of w (fresh env 0)))) /\
  (qf' (QBucketInsert o (gostrings.TrimSpace name)) = None ->
   bucket.CreateBucket s qf' env' o name d (with_bucket env o (gostrings.TrimSpace name) d w)
     = (inl ErrBucketNameExists, with_bucket env o (gostrings.TrimSpace name) d w, [])).
Proof.
  intros Hn Hq Hid Hfree Hq2.
  assert (buckets (with_bucket env o (gostrings.TrimSpace name) d w) !! fresh env 0
          = Some (mkBucketRow o (gostrings.TrimSpace name) d (now env) (now env))) as Hrow.
  { unfold with_bucket. simpl. apply lookup_insert_eq. }
  split; [|split; [done|split]].
  - destruct (CreateBucket_cases s qf env o name d w)
      as [[Hn' Hr]|[(Hn' & e' & Hq' & Hr)|[(Hn' & Hq' & Hex & Hr)
         |[(Hn' & Hq' & Hid' & Hfree' & e' & Hq2' & Hr)
         |(Hn' & Hq' & Hid' & Hfree' & Hq2' & Hr)]]]]; try congruence.
    destruct Hex as [[? ?]|?]; [congruence|done].
  - intros Hf. unfold bucket.GetBucket.
    by rewrite (bucket_Get_owned env' o (fresh env 0) _ _ Hf Hrow eq_refl).
  - intros Hq'.
    apply CreateBucket_taken; try done.
    by exists (fresh env 0), (mkBucketRow o (gostrings.TrimSpace name) d (now env) (now env)).
Qed.

Lemma w1_bucket_rows id row :
  buckets w1 !! id = Some row ->
  id = scenario.docs /\ row = mkBucketRow scenario.U "docs" None 1 1.
Proof.
  change (buckets w1) with (<[scenario.docs := mkBucketRow scenario.U "docs" None 1 1]>
                              (∅ : gmap string BucketRow)).
  destruct (decide (scenario.docs = id)) as [<-|Hne].
  - rewrite lookup_insert_eq. by intros [= <-].
  - by rewrite lookup_insert_ne, lookup_empty.
Qed.

Lemma create_bucket_without_usage_row_witness :
  bucket.CreateBucket bsvc usage_row_down second V "scratch" None w1
    = (inl (ErrWrap "ensure usage row" (ErrIO "context deadline exceeded")), w_bare, []) /\
  bucket.CreateBucket bsvc no_faults scenario.calm V "scratch" None w_bare
    = (inl ErrBucketNameExists, w_bare, []).
Proof.
  assert (~ has_bucket_named w1 V (gostrings.TrimSpace "scratch")) as Hfree.
  { intros (id & row & Hrow & Ho & Hn). apply w1_bucket_rows in Hrow as [_ ->]. discriminate Ho. }
  pose proof (create_bucket_without_usage_row bsvc usage_row_down no_faults second scenario.calm
                V "scratch" None w1 (ErrIO "context deadline exceeded")
                ltac:(by vm_compute) eq_refl ltac:(by vm_compute) Hfree eq_refl)
    as (H1 & _ & _ & H4).
  split; [exact H1|]. exact (H4 eq_refl).
Defined.

(** ** The usage counters *)

(** X13: UpdateUsage is an upsert.  On a bucket that has a usage row the
    deltas are added and each counter is floored at zero; on a bucket without
    one the deltas are stored as they are, negative ones included.  It needs
    the bucket to exist, and touches the counters of no other bucket, no file
    row and no object. *)
Theorem update_usage_floors_existing_rows_only env b dB dF w :
  result_of (bucketrepo.UpdateUsage env b dB dF w) = inr tt ->
  is_Some (buckets w !! b) /\
  (forall u, bucket_usage w !! b = Some u ->
     bucket_usage (world_of (bucketrepo.UpdateUsage env b dB dF w)) !! b
       = Some (mkUsage (Z.max (TotalBytes u + dB) 0) (Z.max (FileCount u + dF) 0)) /\
     0 <= TotalBytes (bucketrepo.usage_of (world_of (bucketrepo.UpdateUsage env b dB dF w)) b) /\
     0 <= FileCount (bucketrepo.usage_of (world_of (bucketrepo.UpdateUsage env b dB dF w)) b)) /\
  (bucket_usage w !! b = None ->
     bucket_usage (world_of (bucketrepo.UpdateUsage env b dB dF w)) !! b
       = Some (mkUsage dB dF)) /\
  (forall b', b' <> b ->
     bucket_usage (world_of (bucketrepo.UpdateUsage env b dB dF w)) !! b' = bucket_usage w !! b') /\
  buckets (world_of (bucketrepo.UpdateUsage env b dB dF w)) = buckets w /\
  files (world_of (bucketrepo.UpdateUsage env b dB dF w)) = files w /\
  objects (world_of (bucketrepo.UpdateUsage env b dB dF w)) = objects w.
Proof.
  destruct (UpdateUsage_cases env b dB dF w) as [(Hb & _ & Hr)|(raw & Hr)]; rewrite Hr;
    unfold result_of, world_of; simpl; [|discriminate].
  intros _. repeat split; try done.
  - rewrite lookup_insert_eq. by rewrite H.
  - unfold bucketrepo.usage_of. simpl. rewrite lookup_insert_eq, H. simpl. lia.
  - unfold bucketrepo.usage_of. simpl. rewrite lookup_insert_eq, H. simpl. lia.
  - intros Hnone. by rewrite lookup_insert_eq, Hnone.
  - intros b' Hne. by rewrite lookup_insert_ne.
Qed.

Lemma update_usage_floors_existing_rows_only_witness :
  bucket_usage (world_of (bucketrepo.UpdateUsage scenario.calm scenario.docs (-20) (-5) w1))
    !! scenario.docs = Some (mkUsage 0 0) /\
  bucket_usage (world_of (bucketrepo.UpdateUsage scenario.calm f2 (-20) (-5) w_bare))
    !! f2 = Some (mkUsage (-20) (-5)).
Proof.
  split.
  - exact (proj1 (proj1 (proj2 (update_usage_floors_existing_rows_only scenario.calm
                                  scenario.docs (-20) (-5) w1 ltac:(by vm_compute)))
                        (mkUsage 11 1) ltac:(by vm_compute))).
  - exact (proj1 (proj2 (proj2 (update_usage_floors_existing_rows_only scenario.calm f2
                                  (-20) (-5) w_bare ltac:(by vm_compute))))
                 ltac:(by vm_compute)).
Defined.

(** ** Listing buckets *)

#[global] Instance bucket_newer_total : Total bucketrepo.newer.
Proof. intros b1 b2. unfold bucketrepo.newer. lia. Qed.

(** X14: ListBuckets changes nothing and, when it succeeds, answers exactly
    the buckets of the owner, each once, newest first, and each as GetBucket
    would answer it: with the counters of its usage row, or zeros. *)
Theorem list_buckets_of_owner s qf env o w l :
  result_of (bucket.ListBuckets s qf o w) = inr l ->
  world_of (bucket.ListBuckets s qf o w) = w /\
  l ≡ₚ map (bucketrepo.bucket_of_row w)
           (filter (fun kv : string * BucketRow => row_owner_id kv.2 = o)
                   (map_to_list (buckets w))) /\
  (forall bk, bk ∈ l <->
     exists row, buckets w !! Bucket_ID bk = Some row /\ row_owner_id row = o /\
                 bk = bucketrepo.bucket_of_row w (Bucket_ID bk, row)) /\
  Sorted (fun b1 b2 => Bucket_CreatedAt b2 <= Bucket_CreatedAt b1) l /\
  (forall bk, bk ∈ l -> fails env (CBucketGet o (Bucket_ID bk)) = None ->
     result_of (bucket.GetBucket s env o (Bucket_ID bk) w) = inr bk).
Proof.
  unfold bucket.ListBuckets, bucketrepo.List.
  pose proof (ask_rows_run qf (QBucketList o) "list buckets" "scan bucket" "iterate buckets"
                (bucketrepo.buckets_of_owner o) w) as (Hw & _ & Hres & _).
  intros Hr. rewrite (Hres l Hr). split; [done|].
  assert (bucketrepo.buckets_of_owner o w ≡ₚ
            map (bucketrepo.bucket_of_row w)
                (filter (fun kv : string * BucketRow => row_owner_id kv.2 = o)
                        (map_to_list (buckets w)))) as Hperm
    by apply merge_sort_Permutation.
  assert (forall bk, bk ∈ bucketrepo.buckets_of_owner o w <->
            exists row, buckets w !! Bucket_ID bk = Some row /\ row_owner_id row = o /\
                        bk = bucketrepo.bucket_of_row w (Bucket_ID bk, row)) as Hmem.
  { intros bk. rewrite Hperm, list_elem_of_fmap. split.
    - intros ([id row] & -> & Hin). apply list_elem_of_filter in Hin as [Ho Hin].
      apply elem_of_map_to_list in Hin. exists row. by repeat split.
    - intros (row & Hrow & Ho & Hbk). exists (Bucket_ID bk, row). split; [done|].
      apply list_elem_of_filter. split; [done|]. by apply elem_of_map_to_list. }
  repeat split; try done.
  - by apply Hmem.
  - by apply Hmem.
  - apply (Sorted_merge_sort _).
  - intros bk Hin Hf. apply Hmem in Hin as (row & Hrow & Ho & Hbk).
    unfold bucket.GetBucket. rewrite (bucket_Get_owned env o _ w row Hf Hrow Ho).
    unfold result_of. simpl. symmetry. rewrite Hbk at 1.
    unfold bucketrepo.bucket_of_row. simpl. by rewrite Ho.
Qed.

Lemma list_buckets_of_owner_witness :
  world_of (bucket.ListBuckets bsvc no_faults scenario.U w_bare) = w_bare /\
  mkBucket scenario.docs scenario.U "docs" None 1 1 (mkUsage 11 1)
    ∈ [mkBucket scenario.docs scenario.U "docs" None 1 1 (mkUsage 11 1)].
Proof.
  pose proof (list_buckets_of_owner bsvc no_faults scenario.calm scenario.U w_bare
                [mkBucket scenario.docs scenario.U "docs" None 1 1 (mkUsage 11 1)]
                ltac:(by vm_compute)) as (Hw & _ & Hmem & _).
  split; [exact Hw|]. apply Hmem.
  exists (mkBucketRow scenario.U "docs" None 1 1).
  split; [|split]; vm_compute; reflexivity.
Defined.

(** ** Deleting a bucket *)

Lemma bucket_Delete_run env o b w :
  bucketrepo.Delete env o b w =
  match fails env (CBucketDelete o b) with
  | Some e => (inl (ErrWrap "delete bucket" e), w, [(CBucketDelete o b, Some e)])
  | None =>
      match buckets w !! b with
      | Some row =>
          if bool_decide (row_owner_id row = o)
          then (inr tt, without_bucket b w, [(CBucketDelete o b, None)])
          else (inl ErrBucketNotFound, w, [(CBucketDelete o b, None)])
      | None => (inl ErrBucketNotFound, w, [(CBucketDelete o b, None)])
      end
  end.
Proof.
  unfold bucketrepo.Delete, bucketrepo.delete_bucket, without_bucket. run_monad.
  destruct (fails env _); [done|].
  destruct (buckets w !! b) as [row|]; [case_bool_decide|]; done.
Qed.

Lemma object_names_spec w b n :
  n ∈ object_names w b <-> exists id m, files w !! id = Some m /\ BucketID m = b /\ ObjectName m = n.
Proof.
  unfold object_names, filerepo.objects_of_bucket. rewrite <- list_fmap_compose.
  rewrite list_elem_of_fmap. split.
  - intros ([id m] & -> & Hin). apply list_elem_of_filter in Hin as [Hb Hin].
    apply elem_of_map_to_list in Hin. eauto.
  - intros (id & m & Hm & Hb & <-). exists (id, m). split; [done|].
    apply list_elem_of_filter. split; [done|]. by apply elem_of_map_to_list.
Qed.

(** The loop of [deleteObjects] only ever removes objects of the listing;
    when it runs to its end every object of the listing is gone. *)
Lemma removeEach_objects s env objs w :
  (forall key, key.1 <> bucket.objectBucket s \/ key.2 ∉ map fo_ObjectName objs ->
     objects (world_of (bucket.removeEach s env objs w)) !! key = objects w !! key) /\
  (forall key v, objects (world_of (bucket.removeEach s env objs w)) !! key = Some v ->
     objects w !! key = Some v) /\
  (result_of (bucket.removeEach s env objs w) = inr tt ->
   forall n, n ∈ map fo_ObjectName objs ->
     objects (world_of (bucket.removeEach s env objs w)) !! (bucket.objectBucket s, n) = None).
Proof.
  revert w. induction objs as [|obj rest IH]; intros w.
  { simpl. unfold world_of; simpl. repeat split; try done. intros _ n Hn. by apply elem_of_nil in Hn. }
  simpl. unfold bind, attempt, fail. rewrite RemoveObject_run.
  destruct (fails env (CRemoveObject _ _)) as [e|] eqn:Hf; simpl.
  { unfold result_of, world_of; simpl. repeat split; try done. }
  destruct (IH (set_objects (delete (bucket.objectBucket s, fo_ObjectName obj)) w))
    as (Hother & Hsub & Hgone).
  destruct (bucket.removeEach s env rest _) as [[r w'] t].
  unfold result_of, world_of in *; simpl in *.
  split; [|split].
  - intros key Hkey. rewrite Hother.
    + apply lookup_delete_ne. intros <-. simpl in Hkey.
      destruct Hkey as [Hk|Hk]; [done|]. apply Hk. by left.
    + destruct Hkey as [Hk|Hk]; [by left|]. right. intros Hin. apply Hk. by right.
  - intros key v Hv. apply Hsub in Hv. by apply lookup_delete_Some in Hv as [_ Hv].
  - intros -> n Hn. apply elem_of_cons in Hn as [->|Hn]; [|by apply Hgone].
    destruct (objects w' !! (bucket.objectBucket s, fo_ObjectName obj)) as [v|] eqn:Hv; [|done].
    apply Hsub in Hv. by rewrite lookup_delete_eq in Hv.
Qed.

Lemma bind_run {A B} (m : M A) (k : A -> M B) w :
  bind m k w =
  match m w with
  | (inl e, w1, t1) => (inl e, w1, t1)
  | (inr a, w1, t1) => match k a w1 with (r, w2, t2) => (r, w2, t1 ++ t2) end
  end.
Proof. reflexivity. Qed.

Lemma same_rows_refl w : same_rows w w.
Proof. by repeat split. Qed.

(** The first half of [DeleteBucket]: the objects of the bucket are removed
    one by one; the rows are not touched. *)
Lemma deleteObjects_run s env b w :
  same_rows (world_of (bucket.deleteObjects s env b w)) w /\
  (forall key, key.1 <> bucket.objectBucket s \/ key.2 ∉ object_names w b ->
     objects (world_of (bucket.deleteObjects s env b w)) !! key = objects w !! key) /\
  (forall key v, objects (world_of (bucket.deleteObjects s env b w)) !! key = Some v ->
     objects w !! key = Some v) /\
  (bucket.has_objectStore s = false \/ bucket.has_files s = false ->
     bucket.deleteObjects s env b w = (inr tt, w, [])) /\
  (bucket.has_objectStore s = true -> bucket.has_files s = true ->
   result_of (bucket.deleteObjects s env b w) = inr tt ->
   forall n, n ∈ object_names w b ->
     objects (world_of (bucket.deleteObjects s env b w)) !! (bucket.objectBucket s, n) = None).
Proof.
  unfold bucket.deleteObjects.
  destruct (negb (bucket.has_objectStore s) || negb (bucket.has_files s)) eqn:Hnil.
  { unfold ret, world_of, result_of; simpl. split; [apply same_rows_refl|].
    repeat split; try done.
    intros Hs Hf. rewrite Hs, Hf in Hnil. discriminate Hnil. }
  apply orb_false_iff in Hnil as [Hs Hf].
  apply negb_false_iff in Hs. apply negb_false_iff in Hf.
  unfold bind, attempt, fail.
  destruct (ListObjectsForBucket_run env b w) as [Hl|(msg & cause & raw & Hl)];
    rewrite Hl; simpl.
  2: { unfold result_of, world_of; simpl. split; [apply same_rows_refl|].
       repeat split; try done. intros [H|H]; congruence. }
  pose proof (removeEach_spec s env (filerepo.objects_of_bucket w b) w)
    as (Hb & Hfl & Hu & Hsn & _ & _).
  pose proof (removeEach_objects s env (filerepo.objects_of_bucket w b) w)
    as (Hother & Hsub & Hgone).
  fold (object_names w b) in Hother, Hgone.
  destruct (bucket.removeEach s env (filerepo.objects_of_bucket w b) w) as [[r wr] tr].
  unfold result_of, world_of in *; simpl in *.
  split; [by repeat split|]. split; [done|]. split; [done|].
  split; [intros [H|H]; congruence|]. intros _ _. apply Hgone.
Qed.

(** The second half of [DeleteBucket], on a bucket of the caller: the rows
    of the bucket go, and then the snapshot is taken. *)
Lemma delete_bucket_rows_run env o b w row :
  buckets w !! b = Some row -> row_owner_id row = o ->
  let run := (_ <- bucketrepo.Delete env o b ;;
              _ <- bucketrepo.RecordUsageSnapshot env o ;; ret tt) w in
  (world_of run = w /\ result_of run <> inr tt)
  \/ ((buckets (world_of run) = delete b (buckets w) /\
       files (world_of run)
         = filter (fun kv : string * Metadata => BucketID kv.2 <> b) (files w) /\
       bucket_usage (world_of run) = delete b (bucket_usage w) /\
       objects (world_of run) = objects w) /\
      ((result_of run = inr tt /\
        usage_snapshots (world_of run) = usage_snapshots w ++ [snapshot_of env o (world_of run)])
       \/ ((exists raw, result_of run = inl (ErrWrap "record usage snapshot" raw)) /\
           usage_snapshots (world_of run) = usage_snapshots w))).
Proof.
  intros Hrow Ho run. subst run. unfold bind, ret. rewrite bucket_Delete_run.
  destruct (fails env (CBucketDelete o b)) as [e|]; simpl.
  { left. unfold result_of, world_of; simpl. by split. }
  rewrite Hrow. rewrite bool_decide_eq_true_2 by done. simpl.
  right.
  unfold bucketrepo.RecordUsageSnapshot, bucketrepo.insert_snapshot. run_monad.
  destruct (fails env (CRecordUsageSnapshot o)) as [e|]; simpl.
  { split; [done|]. right. split; [by eexists|done]. }
  destruct (in_int64 _ && in_int64 _); simpl.
  - split; [done|]. left. split; [done|]. reflexivity.
  - split; [done|]. right. split; [by eexists|done].
Qed.

(** The worlds [DeleteBucket] can end in: the rows are as before, or the
    bucket is gone with all that belongs to it; the objects, in both cases,
    are those of a world [wo] that differs from the start by removals of
    objects of the bucket only. *)
Lemma DeleteBucket_run s env o b w :
  exists wo,
    same_rows wo w /\
    (forall key, key.1 <> bucket.objectBucket s \/ key.2 ∉ object_names w b ->
       objects wo !! key = objects w !! key) /\
    (forall key v, objects wo !! key = Some v -> objects w !! key = Some v) /\
    (bucket.has_objectStore s = false \/ bucket.has_files s = false -> wo = w) /\
    ((world_of (bucket.DeleteBucket s env o b w) = wo /\
      result_of (bucket.DeleteBucket s env o b w) <> inr tt)
     \/
     ((exists row, buckets w !! b = Some row /\ row_owner_id row = o) /\
      (bucket.has_objectStore s = true -> bucket.has_files s = true ->
       forall n, n ∈ object_names w b -> objects wo !! (bucket.objectBucket s, n) = None) /\
      buckets (world_of (bucket.DeleteBucket s env o b w)) = delete b (buckets w) /\
      files (world_of (bucket.DeleteBucket s env o b w))
        = filter (fun kv : string * Metadata => BucketID kv.2 <> b) (files w) /\
      bucket_usage (world_of (bucket.DeleteBucket s env o b w)) = delete b (bucket_usage w) /\
      objects (world_of (bucket.DeleteBucket s env o b w)) = objects wo /\
      ((result_of (bucket.DeleteBucket s env o b w) = inr tt /\
        usage_snapshots (world_of (bucket.DeleteBucket s env o b w))
          = usage_snapshots w ++ [snapshot_of env o (world_of (bucket.DeleteBucket s env o b w))])
       \/
       ((exists raw, result_of (bucket.DeleteBucket s env o b w)
                     = inl (ErrWrap "record usage snapshot" raw)) /\
        usage_snapshots (world_of (bucket.DeleteBucket s env o b w)) = usage_snapshots w)))).
Proof.
  unfold bucket.DeleteBucket. rewrite bind_run.
  destruct (bucket_Get_cases env o b w) as [(row & Hrow & Ho & _ & Hget)|(e0 & raw & Hget & _)];
    rewrite Hget.
  2: { exists w. unfold result_of, world_of; simpl.
       split; [apply same_rows_refl|]. repeat split; try done. by left. }
  rewrite bind_run.
  pose proof (deleteObjects_run s env b w) as (Hsame & Hother & Hsub & Hnil & Hgone).
  destruct (bucket.deleteObjects s env b w) as [[r wo] t0].
  unfold world_of, result_of in Hsame, Hother, Hsub, Hgone; simpl in *.
  exists wo. split; [done|]. split; [done|]. split; [done|].
  split; [intros H; apply Hnil in H; congruence|].
  destruct r as [e|[]].
  { left. unfold result_of, world_of; simpl. by split. }
  destruct Hsame as (Hb & Hfl & Hu & Hsn).
  rewrite <- Hb in Hrow.
  pose proof (delete_bucket_rows_run env o b wo row Hrow Ho) as Htail. simpl in Htail.
  destruct ((_ <- bucketrepo.Delete env o b ;;
             _ <- bucketrepo.RecordUsageSnapshot env o ;; ret tt) wo) as [[r2 w2] t2].
  unfold world_of, result_of in *; simpl in *.
  destruct Htail as [[-> Hr]|[(Hb2 & Hf2 & Hu2 & Ho2) Hres]]; [by left|].
  right. rewrite Hb in Hrow. split; [eauto|].
  split; [intros Hs Hf; by apply Hgone|].
  rewrite Hb2, Hf2, Hu2, Ho2, Hb, Hfl, Hu, <- Hsn. by repeat split.
Qed.

(** X15: what a successful DeleteBucket leaves behind.  The bucket was one
    of the caller; its row, its usage row and every file row of the bucket
    are gone and no other row is touched; with an object store and a file
    index every object of the bucket is gone from the store, and no other
    object is touched; one usage snapshot is appended, with the totals
    of the caller without the bucket; and the caller no longer finds the
    bucket. *)
Theorem delete_bucket_result s env env' o b w :
  result_of (bucket.DeleteBucket s env o b w) = inr tt ->
  let w' := world_of (bucket.DeleteBucket s env o b w) in
  (exists row, buckets w !! b = Some row /\ row_owner_id row = o) /\
  buckets w' = delete b (buckets w) /\
  bucket_usage w' = delete b (bucket_usage w) /\
  (forall id, files w' !! id
     = match files w !! id with
       | Some m => if bool_decide (BucketID m = b) then None else Some m
       | None => None
       end) /\
  (bucket.has_objectStore s = true -> bucket.has_files s = true ->
   forall id m, files w !! id = Some m -> BucketID m = b ->
     objects w' !! (bucket.objectBucket s, ObjectName m) = None) /\
  (forall key,
     (forall id m, files w !! id = Some m -> BucketID m = b ->
        key <> (bucket.objectBucket s, ObjectName m)) ->
     objects w' !! key = objects w !! key) /\
  usage_snapshots w' = usage_snapshots w ++ [snapshot_of env o w'] /\
  (fails env' (CBucketGet o b) = None ->
   result_of (bucket.GetBucket s env' o b w') = inl ErrBucketNotFound).
Proof.
  intros Hr w'. subst w'.
  destruct (DeleteBucket_run s env o b w)
    as (wo & _ & Hother & _ & _ & [[_ Hne]|(Hrow & Hgone & Hb & Hf & Hu & Hobj & Hsnap)]);
    [done|].
  split; [done|]. split; [done|]. split; [done|].
  split; [|split; [|split; [|split]]].
  - intros id. rewrite Hf, map_lookup_filter.
    destruct (files w !! id) as [m|]; simpl; [|done].
    case_bool_decide; [by rewrite option_guard_False by (simpl; tauto)|].
    by rewrite option_guard_True.
  - intros Hs Hfi id m Hm Hbm. rewrite Hobj. apply Hgone; try done.
    apply object_names_spec. eauto.
  - intros key Hkey. rewrite Hobj. apply Hother.
    destruct (decide (key.1 = bucket.objectBucket s)) as [Hc|Hc]; [|by left].
    right. intros Hin. apply object_names_spec in Hin as (id & m & Hm & Hbm & Hn).
    apply (Hkey id m Hm Hbm). destruct key as [c n]. simpl in *. by subst.
  - destruct Hsnap as [[_ Hs]|[[raw Hraw] _]]; [done|congruence].
  - intros Hfe. unfold bucket.GetBucket. rewrite bucket_Get_hidden; [done|done|].
    intros row. rewrite Hb, lookup_delete_eq. done.
Qed.

Lemma delete_bucket_result_witness :
  buckets (world_of (bucket.DeleteBucket bsvc scenario.calm scenario.U scenario.docs w2))
    = delete scenario.docs (buckets w2).
Proof.
  pose proof (delete_bucket_result bsvc scenario.calm scenario.calm scenario.U scenario.docs w2
                ltac:(vm_compute; reflexivity)) as H.
  exact (proj1 (proj2 H)).
Defined.

(** X16: DeleteBucket on a bucket that is not one of the caller, or that
    does not exist, answers ErrBucketNotFound after the one lookup: nothing
    is listed, no object is removed and no row changes. *)
Theorem delete_bucket_refused_for_others s env o b w :
  fails env (CBucketGet o b) = None ->
  (forall row, buckets w !! b = Some row -> row_owner_id row <> o) ->
  bucket.DeleteBucket s env o b w
    = (inl ErrBucketNotFound, w, [(CBucketGet o b, Some ErrNoRows)]).
Proof.
  intros Hf Hrow. unfold bucket.DeleteBucket. rewrite bind_run.
  by rewrite (bucket_Get_hidden env o b w Hf Hrow).
Qed.

Lemma delete_bucket_refused_for_others_witness :
  bucket.DeleteBucket bsvc scenario.calm V scenario.docs w1
    = (inl ErrBucketNotFound, w1, [(CBucketGet V scenario.docs, Some ErrNoRows)]).
Proof.
  apply (delete_bucket_refused_for_others bsvc scenario.calm V scenario.docs w1).
  - reflexivity.
  - intros row Hrow. apply w1_bucket_rows in Hrow as [_ ->]. discriminate.
Defined.

Lemma table_sum_filter f (P : string * Metadata -> Prop) `{!forall kv, Decision (P kv)}
    (fs : gmap string Metadata) :
  (forall k m, fs !! k = Some m -> ~ P (k, m) -> f m = 0) ->
  table_sum f (filter P fs) = table_sum f fs.
Proof.
  induction fs as [|k m fs Hk IH] using map_ind; intros Hz.
  - by rewrite map_filter_empty.
  - assert (table_sum f (filter P fs) = table_sum f fs) as IH'.
    { apply IH. intros k' m' Hk' HP. apply (Hz k' m'); [|done].
      rewrite lookup_insert_ne; [done|]. intros ->. congruence. }
    rewrite table_sum_insert by done.
    destruct (decide (P (k, m))) as [HP|HP].
    + rewrite map_filter_insert_True by done.
      rewrite table_sum_insert; [by rewrite IH'|].
      rewrite map_lookup_filter, Hk. done.
    + rewrite map_filter_insert_not' ; [|done|intros y; congruence].
      rewrite IH'. rewrite (Hz k m); [lia|apply lookup_insert_eq|done].
Qed.

Lemma table_sum_zero f (fs : gmap string Metadata) :
  (forall k m, fs !! k = Some m -> f m = 0) -> table_sum f fs = 0.
Proof.
  induction fs as [|k m fs Hk IH] using map_ind; intros Hz.
  - apply table_sum_empty.
  - rewrite table_sum_insert by done. rewrite (Hz k m) by apply lookup_insert_eq.
    rewrite IH; [done|]. intros k' m' Hk'. apply (Hz k').
    rewrite lookup_insert_ne; [done|]. intros ->. congruence.
Qed.

(** X17: DeleteBucket, whatever its outcome, keeps the invariants of the
    tables: every file row is in a bucket that exists, the names of the
    buckets of each owner are distinct, and the usage counters of every
    bucket are the sum and the number of its file rows. *)
Theorem delete_bucket_keeps_invariants s env o b w :
  let w' := world_of (bucket.DeleteBucket s env o b w) in
  (files_in_buckets w -> files_in_buckets w') /\
  (names_unique w -> names_unique w') /\
  (usage_consistent w -> usage_consistent w').
Proof.
  intros w'. subst w'.
  destruct (DeleteBucket_run s env o b w)
    as (wo & (Hb0 & Hf0 & Hu0 & _) & _ & _ & _ &
        [[-> _]|(_ & _ & Hb & Hf & Hu & _ & _)]).
  { unfold files_in_buckets, names_unique, usage_consistent, live_bytes, live_count,
      bucketrepo.usage_of.
    rewrite Hb0, Hf0, Hu0. done. }
  split; [|split].
  - intros Hfk id m. rewrite Hf, Hb. intros Hm.
    apply map_lookup_filter_Some in Hm as [Hm Hne]. simpl in Hne.
    rewrite lookup_delete_ne by done. by apply (Hfk id).
  - intros Hun id1 id2 r1 r2. rewrite Hb. intros H1 H2.
    apply lookup_delete_Some in H1 as [_ H1]. apply lookup_delete_Some in H2 as [_ H2].
    by apply Hun.
  - intros Hc b'. unfold bucketrepo.usage_of, live_bytes, live_count. rewrite Hu, Hf.
    destruct (decide (b = b')) as [<-|Hne].
    + rewrite lookup_delete_eq. simpl.
      rewrite !table_sum_zero; [done| |].
      all: intros k m Hm; apply map_lookup_filter_Some in Hm as [_ Hm]; simpl in Hm.
      all: unfold one_in, bytes_in; by rewrite bool_decide_eq_false_2.
    + rewrite lookup_delete_ne by done.
      rewrite !table_sum_filter; [apply Hc| |].
      all: intros k m _ HP; simpl in HP.
      all: unfold one_in, bytes_in; rewrite bool_decide_eq_false_2; [done|].
      all: intros Hbm; apply HP; congruence.
Qed.

Lemma delete_bucket_keeps_invariants_witness :
  names_unique (world_of (bucket.DeleteBucket bsvc f2_stuck scenario.U scenario.docs w1)).
Proof.
  apply (proj1 (proj2 (delete_bucket_keeps_invariants bsvc f2_stuck scenario.U scenario.docs w1))).
  apply scenario_w1_names_unique.
Defined.

(** X18: a bucket service built without an object store, or without a file
    index, removes no object, whatever DeleteBucket answers: when it
    succeeds the file rows of the bucket are gone and their objects stay in
    the store. *)
Theorem delete_bucket_without_store_keeps_objects s env o b w :
  bucket.has_objectStore s = false \/ bucket.has_files s = false ->
  objects (world_of (bucket.DeleteBucket s env o b w)) = objects w /\
  (forall c n r, ~ In (CRemoveObject c n, r) (trace_of (bucket.DeleteBucket s env o b w))) /\
  (result_of (bucket.DeleteBucket s env o b w) = inr tt ->
   forall id m, files w !! id = Some m -> BucketID m = b ->
     files (world_of (bucket.DeleteBucket s env o b w)) !! id = None /\
     objects (world_of (bucket.DeleteBucket s env o b w)) !! (bucket.objectBucket s, ObjectName m)
       = objects w !! (bucket.objectBucket s, ObjectName m)).
Proof.
  intros Hnil.
  assert (objects (world_of (bucket.DeleteBucket s env o b w)) = objects w) as Hobj.
  { destruct (DeleteBucket_run s env o b w)
      as (wo & _ & _ & _ & Hwo & [[-> _]|(_ & _ & _ & _ & _ & -> & _)]);
      by rewrite (Hwo Hnil). }
  split; [done|]. split.
  - intros c n r. unfold bucket.DeleteBucket. rewrite bind_run.
    destruct (bucket_Get_cases env o b w) as [(row & _ & _ & _ & Hget)|(e0 & raw & Hget & _)];
      rewrite Hget.
    2: { unfold trace_of; simpl. intros [H|[]]. discriminate H. }
    rewrite bind_run.
    destruct (deleteObjects_run s env b w) as (_ & _ & _ & Hskip & _).
    rewrite (Hskip Hnil). rewrite bind_run, bucket_Delete_run.
    destruct (fails env (CBucketDelete o b)); simpl.
    { unfold trace_of; simpl. intros [H|[H|[]]]; discriminate H. }
    destruct (buckets w !! b) as [row'|]; [case_bool_decide|]; simpl.
    2,3: unfold trace_of; simpl; intros [E|[E|[]]]; discriminate E.
    unfold bucketrepo.RecordUsageSnapshot, bucketrepo.insert_snapshot. run_monad.
    destruct (fails env (CRecordUsageSnapshot o)); simpl.
    { intros [E|[E|[E|[]]]]; discriminate E. }
    destruct (in_int64 _ && in_int64 _); simpl; intros [E|[E|[E|[]]]]; discriminate E.
  - intros Hr id m Hm Hbm. rewrite Hobj. split; [|done].
    destruct (DeleteBucket_run s env o b w)
      as (wo & _ & _ & _ & _ & [[_ Hne]|(_ & _ & _ & Hf & _)]); [done|].
    rewrite Hf. apply map_lookup_filter_None. right. intros m' Hm'. simpl.
    rewrite Hm in Hm'. injection Hm' as <-. tauto.
Qed.

Lemma delete_bucket_without_store_keeps_objects_witness :
  objects (world_of (bucket.DeleteBucket bsvc_no_store scenario.calm scenario.U scenario.docs w2))
    = objects w2.
Proof.
  apply (delete_bucket_without_store_keeps_objects bsvc_no_store scenario.calm scenario.U
           scenario.docs w2).
  by left.
Defined.

(** ** Usage snapshots *)

Lemma RecordUsageSnapshot_follow env o w0 w :
  usage_snapshots w = usage_snapshots w0 ->
  snapshots_follow env o w0 (world_of (bucketrepo.RecordUsageSnapshot env o w)).
Proof.
  intros Hs. unfold snapshots_follow, bucketrepo.RecordUsageSnapshot, bucketrepo.insert_snapshot.
  rewrite <- Hs. run_monad. destruct (fails env _); simpl; [by left|].
  destruct (in_int64 _ && in_int64 _); simpl; [by right|by left].
Qed.

(** X19: table [usage_snapshots] is only ever appended to.  Upload, Delete
    and DeleteBucket leave it as it was or append one row for the caller,
    and that row holds the totals over the buckets of the caller as the
    tables have them when the call is over. *)
Theorem usage_snapshots_follow_tables s bs env o b fh f w :
  snapshots_follow env o w (world_of (file.Upload s env o b fh w)) /\
  snapshots_follow env o w (world_of (file.Delete s env o b f w)) /\
  snapshots_follow env o w (world_of (bucket.DeleteBucket bs env o b w)).
Proof.
  split; [|split].
  - destruct fh as [fh|]; [|by left].
    upload_cases s env o b fh w; try by left.
    1,2: left; unfold compensated, written; by destruct (fails env (CRemoveObject _ _)).
    match goal with
    | H : bucketrepo.RecordUsageSnapshot env o ?w0 = (_, ?w1, _) |- _ =>
        pose proof (RecordUsageSnapshot_follow env o w w0 eq_refl) as Hs;
        rewrite H in Hs; exact Hs
    end.
  - delete_cases s env o b f w; try by left.
    match goal with
    | H : bucketrepo.RecordUsageSnapshot env o ?w0 = (_, ?w1, _) |- _ =>
        pose proof (RecordUsageSnapshot_follow env o w w0 eq_refl) as Hs;
        rewrite H in Hs; exact Hs
    end.
  - destruct (DeleteBucket_run bs env o b w)
      as (wo & (_ & _ & _ & Hsn) & _ & _ & _ &
          [[-> _]|(_ & _ & _ & _ & _ & _ & [[_ Hs]|[_ Hs]])]).
    + by left.
    + by right.
    + by left.
Qed.

(** ** Presigned URLs: the steps of issuance *)

(** X20: GenerateURL, for GET and for PUT, signs first, then saves the
    issuance record, then the audit row, and stops at the first step that
    fails, handing back that error as it is and no URL.  Nothing is undone:
    when the audit row cannot be written the issuance record stays, without
    an audit row.  Record and audit row carry the same method and the same
    expiry, now plus the ttl of the service. *)
Theorem generate_url_stops_at_first_failure s env bucketName objectName method
    userID bucketID fileID w :
  method = "GET" \/ method = "PUT" ->
  let sign := sign_call (bool_decide (method = "PUT")) bucketName objectName in
  let rec := mkRecord (fresh env 0) fileID method (now env + presigned.ttl s) in
  let aud := mkAudit (fresh env 1) userID bucketID fileID method (now env + presigned.ttl s)
                     (now env) in
  presigned.GenerateURL s env bucketName objectName method userID bucketID fileID w =
  match fails env sign with
  | Some e => (inl e, w, [(sign, Some e)])
  | None =>
      match fails env (CSaveRecord (fresh env 0)) with
      | Some e => (inl e, w, [(sign, None); (CSaveRecord (fresh env 0), Some e)])
      | None =>
          match fails env (CSaveAudit (fresh env 1)) with
          | Some e =>
              (inl e, add_record rec w,
               [(sign, None); (CSaveRecord (fresh env 0), None);
                (CSaveAudit (fresh env 1), Some e)])
          | None =>
              (inr (signed_url env, rec, aud), add_audit aud (add_record rec w),
               [(sign, None); (CSaveRecord (fresh env 0), None);
                (CSaveAudit (fresh env 1), None)])
          end
      end
  end.
Proof.
  intros Hm sign rec aud. subst sign rec aud.
  unfold presigned.GenerateURL, presigned.SaveRecord, presigned.SaveAudit,
    minio.PresignedGetObject, minio.PresignedPutObject, sign_call.
  destruct Hm as [-> | ->]; simpl; run_monad.
  all: destruct (fails env (_ bucketName objectName)); simpl; [done|].
  all: destruct (fails env (CSaveRecord _)); simpl; [done|].
  all: by destruct (fails env (CSaveAudit _)).
Qed.

Lemma generate_url_stops_at_first_failure_witness :
  presigned.GenerateURL rsvc audit_down "docs" faults.f1_object "GET"
                        scenario.U scenario.docs scenario.f1 w1
  = (inl (ErrIO "connection reset"),
     add_record (mkRecord "00000000-0000-0000-0000-0000000000c1" scenario.f1 "GET" 905) w1,
     [(CPresignedGetObject "docs" faults.f1_object, None);
      (CSaveRecord "00000000-0000-0000-0000-0000000000c1", None);
      (CSaveAudit "00000000-0000-0000-0000-0000000000c2", Some (ErrIO "connection reset"))]).
Proof.
  exact (generate_url_stops_at_first_failure rsvc audit_down "docs" faults.f1_object "GET"
           scenario.U scenario.docs scenario.f1 w1 (or_introl eq_refl)).
Defined.

(** X21: GeneratePresignedWithAccessCheck never changes anything and signs
    only for the owner: a URL comes back only when the user is the owner
    and the scope token, if one is given, is valid for the bucket, the
    object and the kind of access; it is then signed by one call, for PUT
    when [write] is set and for GET otherwise.  A user who is not the owner
    is refused before anything is signed, whatever token is shown. *)
Theorem access_check_signs_for_owner_only s env bucket object userID ownerID scope write w :
  world_of (presigned.GeneratePresignedWithAccessCheck s env bucket object userID ownerID
              scope write w) = w /\
  (forall url,
     result_of (presigned.GeneratePresignedWithAccessCheck s env bucket object userID ownerID
                  scope write w) = inr url ->
     userID = ownerID /\
     (forall token, scope = Some token ->
        presigned.ValidateScope env token bucket object write = true) /\
     url = signed_url env /\
     trace_of (presigned.GeneratePresignedWithAccessCheck s env bucket object userID ownerID
                 scope write w) = [(sign_call write bucket object, None)]) /\
  (userID <> ownerID ->
   exists msg,
     presigned.GeneratePresignedWithAccessCheck s env bucket object userID ownerID scope write w
       = (inl (ErrNew msg), w, [])).
Proof.
  unfold presigned.GeneratePresignedWithAccessCheck, presigned.ValidateOwnership,
    presigned.GenerateGetURL, presigned.GeneratePutURL,
    minio.PresignedGetObject, minio.PresignedPutObject, sign_call.
  assert (forall tok, negb (presigned.ValidateScope env tok bucket object write) = false ->
                      presigned.ValidateScope env tok bucket object write = true) as Hneg
    by (intros tok; by destruct (presigned.ValidateScope env tok bucket object write)).
  split; [|split].
  - run_monad. destruct scope as [tok|]; [destruct (negb _)|]; simpl; try done.
    all: case_bool_decide; simpl; [|done].
    all: destruct write; by destruct (fails env _).
  - intros url. run_monad.
    destruct scope as [tok|]; [destruct (negb _) eqn:Hv|]; simpl; try done.
    all: case_bool_decide; simpl; [|done].
    all: destruct write; destruct (fails env _); simpl; try done.
    all: intros [= <-]; repeat split; try done.
    all: intros token [= <-]; by apply Hneg.
  - intros Hne. run_monad.
    destruct scope as [tok|]; [destruct (negb _)|]; simpl; eauto.
    all: rewrite bool_decide_eq_false_2 by done; simpl; eauto.
Qed.

Lemma access_check_signs_for_owner_only_witness :
  exists msg,
    presigned.GeneratePresignedWithAccessCheck asvc scenario.calm "docs" faults.f1_object
      V scenario.U (Some guest_token) false w1 = (inl (ErrNew msg), w1, []).
Proof.
  apply (access_check_signs_for_owner_only asvc scenario.calm "docs" faults.f1_object
           V scenario.U (Some guest_token) false w1).
  discriminate.
Defined.

(** X22: the handler of presigned URLs always answers, with 200, 400, 403 or
    404, and changes nothing.  It answers 200 only when both identifiers
    parse, the bucket is one of the user, and the file is a file of that
    bucket; the URL is then the one signed by the one signing call, issued
    for the name of the bucket and the object name of the file, for PUT when
    the method asked for is PUT and for GET for any other method; the
    method asked for is echoed as it came. *)
Theorem handler_answers parse_uuid parse_duration s env c w :
  world_of (presigned.GeneratePresignedURL parse_uuid parse_duration s env c w) = w /\
  exists resp,
    result_of (presigned.GeneratePresignedURL parse_uuid parse_duration s env c w) = inr resp /\
    (presigned.status resp = 200 \/ presigned.status resp = 400 \/
     presigned.status resp = 403 \/ presigned.status resp = 404) /\
    (presigned.status resp = 200 ->
     exists bid fid row file ttl,
       parse_uuid (presigned.param_bucketID c) = Some bid /\
       parse_uuid (presigned.param_fileID c) = Some fid /\
       buckets w !! bid = Some row /\ row_owner_id row = presigned.ctx_userID c /\
       files w !! fid = Some file /\ BucketID file = bid /\
       presigned.body resp
         = presigned.URLBody (signed_url env) (default "GET" (presigned.query_method c))
                             (now env + ttl) /\
       trace_of (presigned.GeneratePresignedURL parse_uuid parse_duration s env c w)
         = [(CBucketGetByID bid, None); (CFileGetByID fid, None);
            (sign_call (bool_decide (default "GET" (presigned.query_method c) = "PUT"))
                       (row_name row) (ObjectName file), None)]).
Proof.
  split; [apply handler_records_nothing|].
  unfold presigned.GeneratePresignedURL, presigned.GeneratePresignedWithAccessCheck,
    presigned.ValidateOwnership,
    presigned.GenerateGetURL, presigned.GeneratePutURL, presigned.GetBucketByID,
    presigned.GetFileByID, presigned.respond,
    minio.PresignedGetObject, minio.PresignedPutObject, sign_call.
  run_monad.
  destruct (if bool_decide (presigned.query_ttl c <> "")
            then parse_duration (presigned.query_ttl c)
            else Some (presigned.access_ttl s)) as [ttl|]; simpl;
    [|eexists; split; [done|]; simpl; split; [tauto|done]].
  destruct (parse_uuid (presigned.param_bucketID c)) as [bid|]; simpl;
    [|eexists; split; [done|]; simpl; split; [tauto|done]].
  destruct (parse_uuid (presigned.param_fileID c)) as [fid|]; simpl;
    [|eexists; split; [done|]; simpl; split; [tauto|done]].
  destruct (fails env (CBucketGetByID bid)); simpl;
    [eexists; split; [done|]; simpl; split; [tauto|done]|].
  destruct (buckets w !! bid) as [row|] eqn:Hrow; simpl;
    [|eexists; split; [done|]; simpl; split; [tauto|done]].
  destruct (fails env (CFileGetByID fid)); simpl;
    [eexists; split; [done|]; simpl; split; [tauto|done]|].
  destruct (files w !! fid) as [file|] eqn:Hfile; simpl;
    [|eexists; split; [done|]; simpl; split; [tauto|done]].
  case_bool_decide as Hown; simpl;
    [eexists; split; [done|]; simpl; split; [tauto|done]|].
  case_bool_decide as Hin; simpl;
    [eexists; split; [done|]; simpl; split; [tauto|done]|].
  rewrite bool_decide_eq_true_2 by done. simpl.
  destruct (bool_decide (default "GET" (presigned.query_method c) = "PUT")); simpl.
  all: destruct (fails env _); simpl;
    [eexists; split; [done|]; simpl; split; [tauto|done]|].
  all: eexists; split; [done|]; simpl; split; [tauto|].
  all: intros _; by exists bid, fid, row, file, ttl.
Qed.

(** ** The HTTP handlers *)

(** The errors of the file service's [Delete]: the sentinel ErrFileNotFound,
    with nothing changed, or a wrapped error. *)
Lemma file_Delete_error s env o b f w e :
  result_of (file.Delete s env o b f w) = inl e ->
  (e = ErrFileNotFound /\ world_of (file.Delete s env o b f w) = w) \/
  (exists msg cause, e = ErrWrap msg cause).
Proof.
  delete_cases s env o b f w; intros Hr; simplify_eq; eauto.
  match goal with
  | H : filerepo.Delete _ _ _ _ _ = _ |- _ =>
      destruct (file_Delete_cases env o b f w)
        as [(meta & _ & _ & Hd)|(e' & raw' & Hd & He & _)]; rewrite Hd in H; simplify_eq
  end.
  case_bool_decide; eauto.
Qed.

(** X23: the handler of DELETE /buckets/:bucketID/files/:fileID always
    answers, and never with "bucket not found": the file service hands back
    no ErrBucketMismatch from Delete, so a file in a bucket of somebody else
    reads as a file that is not there.  Below 500 the answer tells what
    happened: with 401, 400 or 404 nothing has changed, and with 204 the
    row of the file, which was in a bucket of the user, and its object are
    gone. *)
Theorem delete_file_replies uuid_Parse s env c w :
  exists reply,
    result_of (file_http.deleteFile uuid_Parse s env c w) = inr reply /\
    reply <> file_http.JSON 404 (file_http.ErrorJSON "bucket not found") /\
    (file_http.code_of reply = 401 \/ file_http.code_of reply = 400 \/
     file_http.code_of reply = 404 \/ file_http.code_of reply = 500 \/
     file_http.code_of reply = 204) /\
    (file_http.code_of reply < 500 -> file_http.code_of reply <> 204 ->
     world_of (file_http.deleteFile uuid_Parse s env c w) = w) /\
    (file_http.code_of reply = 204 ->
     exists u o b f meta,
       file_http.ctx_user c = Some u /\ uuid_Parse (auth.cu_ID u) = Some o /\
       uuid_Parse (file_http.param_bucketID c) = Some b /\
       uuid_Parse (file_http.param_fileID c) = Some f /\
       filerepo.owned_file w o b f = Some meta /\
       files (world_of (file_http.deleteFile uuid_Parse s env c w)) = delete f (files w) /\
       objects (world_of (file_http.deleteFile uuid_Parse s env c w))
         = delete (file.objectBucket s, ObjectName meta) (objects w)).
Proof.
  unfold file_http.deleteFile, auth.RequireUser.
  destruct (file_http.ctx_user c) as [u|]; simpl;
    [|eexists; split; [done|]; simpl; repeat split; try done; tauto].
  destruct (uuid_Parse (auth.cu_ID u)) as [o|] eqn:Hou; simpl;
    [|eexists; split; [done|]; simpl; repeat split; try done; tauto].
  destruct (uuid_Parse (file_http.param_bucketID c)) as [b|]; simpl;
    [|eexists; split; [done|]; simpl; repeat split; try done; tauto].
  destruct (uuid_Parse (file_http.param_fileID c)) as [f|]; simpl;
    [|eexists; split; [done|]; simpl; repeat split; try done; tauto].
  pose proof (file_Delete_error s env o b f w) as Herr.
  pose proof (Delete_ok_state s env o b f w) as Hok.
  unfold bind, attempt, ret.
  destruct (file.Delete s env o b f w) as [[r w'] t].
  unfold result_of, world_of in *; simpl in *.
  destruct r as [e|[]].
  - destruct (Herr e eq_refl) as [[-> ->]|(msg & cause & ->)]; simpl.
    all: eexists; split; [done|]; simpl; repeat split; try done; try tauto; lia.
  - destruct (Hok eq_refl) as (meta & Hown & Hf & _ & _ & Hobj). simpl.
    eexists; split; [done|]; simpl. repeat split; try done; try tauto.
    intros _. by exists u, o, b, f, meta.
Qed.

Lemma delete_file_replies_witness :
  result_of (file_http.deleteFile parse_canonical scenario.svc scenario.calm
               (delete_f1_as user_V) w1)
    <> inr (file_http.JSON 404 (file_http.ErrorJSON "bucket not found")).
Proof.
  destruct (delete_file_replies parse_canonical scenario.svc scenario.calm
              (delete_f1_as user_V) w1) as (reply & Hr & Hne & _).
  rewrite Hr. intros E. apply Hne. congruence.
Defined.


(** The errors of [deleteObjects] are wrapped errors. *)
Lemma removeEach_error s env objs w e :
  result_of (bucket.removeEach s env objs w) = inl e -> exists msg cause, e = ErrWrap msg cause.
Proof.
  revert w. induction objs as [|obj rest IH]; intros w; simpl; [done|].
  rewrite bind_run. unfold attempt. rewrite RemoveObject_run.
  destruct (fails env (CRemoveObject _ _)); simpl.
  - unfold fail, result_of; simpl. intros [= <-]. eauto.
  - specialize (IH (set_objects (delete (bucket.objectBucket s, fo_ObjectName obj)) w)).
    destruct (bucket.removeEach s env rest _) as [[r w'] t].
    unfold result_of in *; simpl in *. done.
Qed.

Lemma deleteObjects_error s env b w e :
  result_of (bucket.deleteObjects s env b w) = inl e -> exists msg cause, e = ErrWrap msg cause.
Proof.
  unfold bucket.deleteObjects.
  destruct (negb _ || negb _); [done|].
  rewrite bind_run. unfold attempt.
  destruct (ListObjectsForBucket_run env b w) as [Hl|(msg & cause & raw & Hl)];
    rewrite Hl; simpl.
  2: { unfold fail, result_of; simpl. intros [= <-]. eauto. }
  - pose proof (removeEach_error s env (filerepo.objects_of_bucket w b) w e) as H.
    destruct (bucket.removeEach s env _ w) as [[r w'] t].
    unfold result_of in *; simpl in *. done.
Qed.

(** The errors of [DeleteBucket]: the sentinel ErrBucketNotFound, from the
    lookup and with nothing changed, or a wrapped error. *)
Lemma DeleteBucket_error s env o b w e :
  result_of (bucket.DeleteBucket s env o b w) = inl e ->
  (e = ErrBucketNotFound /\
   bucket.DeleteBucket s env o b w = (inl ErrBucketNotFound, w,
                                      trace_of (bucket.DeleteBucket s env o b w)) /\
   exists raw, trace_of (bucket.DeleteBucket s env o b w) = [(CBucketGet o b, Some raw)]) \/
  (exists msg cause, e = ErrWrap msg cause).
Proof.
  unfold bucket.DeleteBucket. rewrite bind_run.
  destruct (bucket_Get_cases env o b w) as [(row & Hrow & Ho & _ & Hget)|(e0 & raw & Hget & He0)];
    rewrite Hget.
  2: { unfold result_of, trace_of; simpl. intros [= <-]. subst e0.
       destruct (errors_Is raw ErrNoRows); [left|right; eauto].
       split; [done|]. split; [done|]. by exists raw. }
  rewrite bind_run.
  pose proof (deleteObjects_error s env b w) as Hdo.
  pose proof (deleteObjects_run s env b w) as ((Hb & _) & _).
  destruct (bucket.deleteObjects s env b w) as [[r wo] t0].
  unfold result_of, world_of in Hdo, Hb; simpl in *.
  destruct r as [e1|[]].
  { unfold result_of; simpl. intros [= <-]. right. by apply Hdo. }
  rewrite <- Hb in Hrow.
  pose proof (delete_bucket_rows_run env o b wo row Hrow Ho) as Htail. simpl in Htail.
  destruct ((_ <- bucketrepo.Delete env o b ;;
             _ <- bucketrepo.RecordUsageSnapshot env o ;; ret tt) wo) as [[r2 w2] t2] eqn:Erun.
  unfold result_of, world_of in *; simpl in *.
  intros ->. right.
  destruct Htail as [[-> Hr]|[_ [[Hr _]|[[raw Hr] _]]]]; [|done|simplify_eq; eauto].
  revert Erun. rewrite bind_run, bucket_Delete_run.
  destruct (fails env (CBucketDelete o b)); simpl; [intros E; simplify_eq; eauto|].
  rewrite Hrow, bool_decide_eq_true_2 by done. simpl.
  unfold bucketrepo.RecordUsageSnapshot, bucketrepo.insert_snapshot. run_monad.
  destruct (fails env (CRecordUsageSnapshot o)); simpl; [intros E; simplify_eq; eauto|].
  destruct (in_int64 _ && in_int64 _); simpl; intros E; simplify_eq; eauto.
Qed.

Ltac early_reply :=
  eexists; split; [done|]; simpl; repeat split; try done; try tauto;
  intros; simplify_eq; congruence.

(** X24: the handler of DELETE /buckets/:bucketID always answers.  With 401,
    400 or 404 nothing has changed, and 404 is the answer for a bucket of
    somebody else as for a bucket that is not there; with 204 the bucket was
    one of the user and its row, its usage row and its file rows are gone. *)
Theorem delete_bucket_replies uuid_Parse s env c w :
  exists reply,
    result_of (bucket_http.deleteBucket uuid_Parse s env c w) = inr reply /\
    (bucket_http.code_of reply = 401 \/ bucket_http.code_of reply = 400 \/
     bucket_http.code_of reply = 404 \/ bucket_http.code_of reply = 500 \/
     bucket_http.code_of reply = 204) /\
    (bucket_http.code_of reply < 500 -> bucket_http.code_of reply <> 204 ->
     world_of (bucket_http.deleteBucket uuid_Parse s env c w) = w) /\
    (forall u o b,
       bucket_http.ctx_user c = Some u -> uuid_Parse (auth.cu_ID u) = Some o ->
       uuid_Parse (bucket_http.param_bucketID c) = Some b ->
       fails env (CBucketGet o b) = None ->
       (forall row, buckets w !! b = Some row -> row_owner_id row <> o) ->
       reply = bucket_http.JSON 404 (bucket_http.ErrorJSON "bucket not found")) /\
    (bucket_http.code_of reply = 204 ->
     exists u o b row,
       bucket_http.ctx_user c = Some u /\ uuid_Parse (auth.cu_ID u) = Some o /\
       uuid_Parse (bucket_http.param_bucketID c) = Some b /\
       buckets w !! b = Some row /\ row_owner_id row = o /\
       buckets (world_of (bucket_http.deleteBucket uuid_Parse s env c w)) = delete b (buckets w) /\
       bucket_usage (world_of (bucket_http.deleteBucket uuid_Parse s env c w))
         = delete b (bucket_usage w) /\
       files (world_of (bucket_http.deleteBucket uuid_Parse s env c w))
         = filter (fun kv : string * Metadata => BucketID kv.2 <> b) (files w)).
Proof.
  unfold bucket_http.deleteBucket, auth.RequireUser.
  destruct (bucket_http.ctx_user c) as [u|]; simpl;
    [|early_reply].
  destruct (uuid_Parse (auth.cu_ID u)) as [o|] eqn:Hou; simpl;
    [|early_reply].
  destruct (uuid_Parse (bucket_http.param_bucketID c)) as [b|]; simpl;
    [|early_reply].
  pose proof (DeleteBucket_error s env o b w) as Herr.
  pose proof (DeleteBucket_run s env o b w) as Hrun.
  assert (fails env (CBucketGet o b) = None ->
          (forall row, buckets w !! b = Some row -> row_owner_id row <> o) ->
          bucket.DeleteBucket s env o b w
            = (inl ErrBucketNotFound, w, [(CBucketGet o b, Some ErrNoRows)])) as Hhid.
  { intros Hf Hrow. unfold bucket.DeleteBucket. rewrite bind_run.
    by rewrite (bucket_Get_hidden env o b w Hf Hrow). }
  unfold bind, attempt, ret.
  destruct (bucket.DeleteBucket s env o b w) as [[r w'] t].
  unfold result_of, world_of, trace_of in *; simpl in *.
  destruct r as [e|[]].
  - destruct (Herr e eq_refl) as [(-> & Hw & _)|(msg & cause & ->)]; simpl.
    + injection Hw as ->. eexists; split; [done|]; simpl.
      repeat split; try done; try tauto.
    + eexists; split; [done|]; simpl. repeat split; try done; try tauto; try lia.
      intros u' o' b' [= <-] Ho' [= <-] Hf Hrow. rewrite Ho' in *. simplify_eq.
      specialize (Hhid Hf Hrow). discriminate Hhid.
  - eexists; split; [done|]; simpl. repeat split; try done; try tauto.
    + intros u' o' b' [= <-] Ho' [= <-] Hf Hrow. simplify_eq.
      specialize (Hhid Hf Hrow). discriminate Hhid.
    + intros _.
      destruct Hrun as (wo & _ & _ & _ & _ & [[_ Hne]|((row & Hrow & Ho) & _ & Hb & Hf & Hu & _)]);
        [done|].
      by exists u, o, b, row.
Qed.

Lemma delete_bucket_replies_witness :
  result_of (bucket_http.deleteBucket parse_canonical bsvc scenario.calm
               (delete_docs_as user_V) w1)
    = inr (bucket_http.JSON 404 (bucket_http.ErrorJSON "bucket not found")).
Proof.
  destruct (delete_bucket_replies parse_canonical bsvc scenario.calm
              (delete_docs_as user_V) w1) as (reply & Hr & _ & _ & Hhid & _).
  rewrite Hr. f_equal.
  apply (Hhid user_V V scenario.docs eq_refl eq_refl eq_refl eq_refl).
  intros row Hrow. apply w1_bucket_rows in Hrow as [_ ->]. discriminate.
Defined.


(** X25: the handler of POST /buckets always answers.  A name that is blank
    once trimmed is answered 500, like a failure of the database, and
    nothing is changed; with 401, 400 or 409 nothing has changed either;
    with 201 the body is the new bucket, of the user, under the trimmed
    name, with zero usage, and its row is in table [buckets]. *)
Theorem create_bucket_replies uuid_Parse s qf env c w :
  exists reply,
    result_of (bucket_http.createBucket uuid_Parse s qf env c w) = inr reply /\
    (bucket_http.code_of reply = 401 \/ bucket_http.code_of reply = 400 \/
     bucket_http.code_of reply = 409 \/ bucket_http.code_of reply = 500 \/
     bucket_http.code_of reply = 201) /\
    (bucket_http.code_of reply < 500 -> bucket_http.code_of reply <> 201 ->
     world_of (bucket_http.createBucket uuid_Parse s qf env c w) = w) /\
    (forall u o req,
       bucket_http.ctx_user c = Some u -> uuid_Parse (auth.cu_ID u) = Some o ->
       bucket_http.bound_json c = inr req ->
       gostrings.TrimSpace (bucket_http.req_Name req) = "" ->
       reply = bucket_http.JSON 500 (bucket_http.ErrorJSON "failed to create bucket") /\
       world_of (bucket_http.createBucket uuid_Parse s qf env c w) = w) /\
    (bucket_http.code_of reply = 201 ->
     exists u o req bk,
       bucket_http.ctx_user c = Some u /\ uuid_Parse (auth.cu_ID u) = Some o /\
       bucket_http.bound_json c = inr req /\
       reply = bucket_http.JSON 201 (bucket_http.BucketJSON bk) /\
       OwnerID bk = o /\ Name bk = gostrings.TrimSpace (bucket_http.req_Name req) /\
       Name bk <> "" /\ Usage bk = mkUsage 0 0 /\
       buckets w !! Bucket_ID bk = None /\
       buckets (world_of (bucket_http.createBucket uuid_Parse s qf env c w)) !! Bucket_ID bk
         = Some (mkBucketRow o (Name bk) (Description bk) (Bucket_CreatedAt bk)
                             (Bucket_UpdatedAt bk))).
Proof.
  unfold bucket_http.createBucket, auth.RequireUser.
  destruct (bucket_http.ctx_user c) as [u|]; simpl;
    [|early_reply].
  destruct (uuid_Parse (auth.cu_ID u)) as [o|] eqn:Hou; simpl;
    [|early_reply].
  destruct (bucket_http.bound_json c) as [eb|req]; simpl;
    [early_reply|].
  unfold bind, attempt, ret.
  destruct (CreateBucket_cases s qf env o (bucket_http.req_Name req)
              (bucket_http.req_Description req) w)
    as [[Hn Hr]|[(Hn & e & Hq & Hr)|[(Hn & Hq & Hex & Hr)|[(Hn & Hq & Hid & Hfree & e & Hq2 & Hr)
       |(Hn & Hq & Hid & Hfree & Hq2 & Hr)]]]];
    rewrite Hr; unfold result_of, world_of; simpl.
  2: destruct (bucketrepo.isUniqueViolation e); simpl.
  all: eexists; split; [done|]; simpl; split; [tauto|split; [|split]].
  all: try done; try lia.
  all: try (intros u' o' req' Hu' Ho' Hreq' Hblank; simplify_eq; first [congruence|by split]).
  intros _. eexists u, o, req, _. repeat split; try done.
  simpl. unfold with_usage_row, with_bucket.
  destruct (bucket_usage _ !! _); simpl; apply lookup_insert_eq.
Qed.

Lemma create_bucket_replies_witness :
  result_of (bucket_http.createBucket parse_canonical bsvc no_faults scenario.calm
               blank_name w1)
    = inr (bucket_http.JSON 500 (bucket_http.ErrorJSON "failed to create bucket")).
Proof.
  destruct (create_bucket_replies parse_canonical bsvc no_faults scenario.calm
              blank_name w1) as (reply & Hr & _ & _ & Hblank & _).
  rewrite Hr. f_equal.
  apply (Hblank user_U scenario.U (bucket_http.mkCreateBucketRequest "   " None)
           eq_refl eq_refl eq_refl eq_refl).
Defined.


(** The errors of [Upload]: ErrBucketMismatch with nothing changed,
    ErrFileTooLarge with no row changed, or a wrapped error. *)
Lemma Upload_error s env o b fh w e :
  result_of (file.Upload s env o b (Some fh) w) = inl e ->
  (e = ErrBucketMismatch /\ world_of (file.Upload s env o b (Some fh) w) = w) \/
  (e = ErrFileTooLarge /\ same_rows (world_of (file.Upload s env o b (Some fh) w)) w) \/
  (exists msg cause, e = ErrWrap msg cause).
Proof.
  upload_cases s env o b fh w; intros Hr; simplify_eq; eauto 6.
  - match goal with
    | H : bucketrepo.Get _ _ _ _ = _ |- _ =>
        destruct (bucket_Get_cases env o b w)
          as [(row & _ & _ & _ & Hg)|(e' & raw' & Hg & He)]; rewrite Hg in H; simplify_eq
    end.
    destruct (errors_Is raw ErrNoRows); simpl; eauto 6.
  - right. left. split; [done|apply same_rows_refl].
  - right. left. split; [done|].
    unfold compensated, written. by destruct (fails env (CRemoveObject _ _)).
Qed.

Lemma Upload_hidden s env o b fh w :
  fails env (CBucketGet o b) = None ->
  (forall row, buckets w !! b = Some row -> row_owner_id row <> o) ->
  file.Upload s env o b (Some fh) w
    = (inl ErrBucketMismatch, w, [(CBucketGet o b, Some ErrNoRows)]).
Proof.
  intros Hf Hrow. unfold file.Upload. rewrite bind_run. unfold attempt.
  by rewrite (bucket_Get_hidden env o b w Hf Hrow).
Qed.

(** X26: the handler of POST /buckets/:bucketID/files always answers.  With
    401 or 404 nothing has changed, and 404 is the answer for a bucket of
    somebody else as for a bucket that is not there; with 400 no row has
    changed; with 201 the body is the row now in table [files], in the
    bucket asked for, which is one of the user. *)
Theorem upload_file_replies uuid_Parse s env c w :
  exists reply,
    result_of (file_http.uploadFile uuid_Parse s env c w) = inr reply /\
    (file_http.code_of reply = 401 \/ file_http.code_of reply = 400 \/
     file_http.code_of reply = 404 \/ file_http.code_of reply = 500 \/
     file_http.code_of reply = 201) /\
    (file_http.code_of reply = 401 \/ file_http.code_of reply = 404 ->
     world_of (file_http.uploadFile uuid_Parse s env c w) = w) /\
    (file_http.code_of reply = 400 ->
     same_rows (world_of (file_http.uploadFile uuid_Parse s env c w)) w) /\
    (forall u o b fh,
       file_http.ctx_user c = Some u -> uuid_Parse (auth.cu_ID u) = Some o ->
       uuid_Parse (file_http.param_bucketID c) = Some b ->
       file_http.form_file c = Some fh ->
       fails env (CBucketGet o b) = None ->
       (forall row, buckets w !! b = Some row -> row_owner_id row <> o) ->
       reply = file_http.JSON 404 (file_http.ErrorJSON "bucket not found")) /\
    (file_http.code_of reply = 201 ->
     exists u o b row meta,
       file_http.ctx_user c = Some u /\ uuid_Parse (auth.cu_ID u) = Some o /\
       uuid_Parse (file_http.param_bucketID c) = Some b /\
       buckets w !! b = Some row /\ row_owner_id row = o /\
       reply = file_http.JSON 201 (file_http.MetadataJSON meta) /\
       BucketID meta = b /\ files w !! ID meta = None /\
       files (world_of (file_http.uploadFile uuid_Parse s env c w)) !! ID meta = Some meta).
Proof.
  unfold file_http.uploadFile, auth.RequireUser.
  destruct (file_http.ctx_user c) as [u|]; simpl; [|early_reply].
  destruct (uuid_Parse (auth.cu_ID u)) as [o|] eqn:Hou; simpl; [|early_reply].
  destruct (uuid_Parse (file_http.param_bucketID c)) as [b|]; simpl;
    [|eexists; split; [done|]; simpl; split; [tauto|split; [|split; [|split]]];
      [intros [?|?]; done|intros _; apply same_rows_refl|done|done]].
  destruct (file_http.form_file c) as [fh|]; simpl;
    [|eexists; split; [done|]; simpl; split; [tauto|split; [|split; [|split]]];
      [intros [?|?]; done|intros _; apply same_rows_refl|done|done]].
  pose proof (Upload_error s env o b fh w) as Herr.
  pose proof (Upload_ok_state s env o b fh w) as Hok.
  pose proof (Upload_ok_owner s env o b fh w) as Hrow.
  pose proof (Upload_hidden s env o b fh w) as Hhid.
  unfold bind, attempt, ret.
  destruct (file.Upload s env o b (Some fh) w) as [[r w'] t].
  unfold result_of, world_of in *; simpl in *.
  destruct r as [e|meta].
  - destruct (Herr e eq_refl) as [[-> ->]|[[-> Hsame]|(msg & cause & ->)]]; simpl.
    all: eexists; split; [done|]; simpl; split; [tauto|split; [|split; [|split]]].
    all: try done; try (intros [?|?]; done).
    all: try (intros _; apply same_rows_refl).
    all: intros u' o' b' fh' Hu' Ho' Hb' Hfh' Hf Hr; simplify_eq.
    all: specialize (Hhid Hf Hr); discriminate Hhid.
  - destruct (Hok meta eq_refl) as (Hnew & Hfiles & _ & _ & _ & Hbm & _).
    destruct (Hrow meta eq_refl) as (row & Hr & Hro).
    eexists; split; [done|]; simpl; split; [tauto|split; [|split; [|split]]].
    all: try done; try (intros [?|?]; done).
    + intros u' o' b' fh' Hu' Ho' Hb' Hfh' Hf Hr'. simplify_eq.
      specialize (Hhid Hf Hr'). discriminate Hhid.
    + intros _. exists u, o, b, row, meta. repeat split; try done.
      rewrite Hfiles. apply lookup_insert_eq.
Qed.

Lemma upload_file_replies_witness :
  result_of (file_http.uploadFile parse_canonical scenario.svc scenario.calm
               (upload_hello_as user_V) w1)
    = inr (file_http.JSON 404 (file_http.ErrorJSON "bucket not found")).
Proof.
  destruct (upload_file_replies parse_canonical scenario.svc scenario.calm
              (upload_hello_as user_V) w1) as (reply & Hr & _ & _ & _ & Hhid & _).
  rewrite Hr. f_equal.
  apply (Hhid user_V V scenario.docs scenario.hello eq_refl eq_refl eq_refl eq_refl eq_refl).
  intros row Hrow. apply w1_bucket_rows in Hrow as [_ ->]. discriminate.
Defined.





(** ** Sequences of calls *)

Lemma ListBuckets_reads s qf o w : world_of (bucket.ListBuckets s qf o w) = w.
Proof. unfold bucket.ListBuckets, bucketrepo.List. apply ask_rows_run. Qed.

Lemma GetBucket_reads s env o b w : world_of (bucket.GetBucket s env o b w) = w.
Proof.
  unfold bucket.GetBucket.
  by destruct (bucket_Get_cases env o b w) as [(row & _ & _ & _ & ->)|(e & raw & -> & _)].
Qed.

Lemma List_reads s qf env o b w : world_of (file.List s qf env o b w) = w.
Proof.
  unfold file.List, filerepo.List. rewrite bind_run. unfold attempt.
  destruct (bucket_Get_cases env o b w) as [(row & _ & _ & _ & ->)|(e & raw & -> & _)];
    simpl; [|done].
  pose proof (ask_rows_run qf (QFileList o b) "list files" "scan file metadata" "iterate files"
                (filerepo.files_of_owned_bucket o b) w) as (Hw & _).
  destruct (ask_rows qf _ _ _ _ _ w) as [[r w'] t]. by unfold world_of in *.
Qed.

Lemma Download_reads s env o b f w : world_of (file.Download s env o b f w) = w.
Proof.
  unfold file.Download, filerepo.Get, bind, attempt, ret, fail, invoke, world_of.
  destruct (fails env (CFileGet o b f)) as [e|]; simpl.
  { by case_bool_decide. }
  destruct (filerepo.owned_file w o b f) as [meta|]; simpl; [|done].
  rewrite GetObject_run. by destruct (fails env (CGetObject _ _)).
Qed.

(** What a call does to the tables [buckets] and [files]: nothing; or one
    bucket more, under an identifier and a name that were free; or one
    bucket less, with its files; or one file more, in a bucket that is
    there; or one file less. *)
Lemma after_tables op w :
  (buckets (after op w) = buckets w /\ files (after op w) = files w)
  \/ (exists id row,
        buckets w !! id = None /\
        ~ has_bucket_named w (row_owner_id row) (row_name row) /\
        buckets (after op w) = <[id := row]> (buckets w) /\ files (after op w) = files w)
  \/ (exists b,
        buckets (after op w) = delete b (buckets w) /\
        files (after op w) = filter (fun kv : string * Metadata => BucketID kv.2 <> b) (files w))
  \/ (exists id m,
        is_Some (buckets w !! BucketID m) /\
        buckets (after op w) = buckets w /\ files (after op w) = <[id := m]> (files w))
  \/ (exists f, buckets (after op w) = buckets w /\ files (after op w) = delete f (files w)).
Proof.
  destruct op as [s qf env o name d|s qf o|s env o b|s env o b|s env o b fh|s qf env o b
                 |s env o b f|s env o b f]; simpl.
  - destruct (CreateBucket_cases s qf env o name d w)
      as [[Hn Hr]|[(Hn & e & Hq & Hr)|[(Hn & Hq & Hex & Hr)|[(Hn & Hq & Hid & Hfree & e & Hq2 & Hr)
         |(Hn & Hq & Hid & Hfree & Hq2 & Hr)]]]];
      rewrite Hr; unfold world_of; simpl; try by left.
    + right. left. eexists _, (mkBucketRow o _ d (now env) (now env)). by repeat split.
    + right. left. eexists _, (mkBucketRow o _ d (now env) (now env)).
      repeat split; try done.
      all: unfold with_usage_row, with_bucket; by destruct (bucket_usage _ !! _).
  - left. by rewrite ListBuckets_reads.
  - left. by rewrite GetBucket_reads.
  - destruct (DeleteBucket_run s env o b w)
      as (wo & (Hb0 & Hf0 & _) & _ & _ & _ & [[-> _]|(_ & _ & Hb & Hf & _)]).
    + by left.
    + right. right. left. by exists b.
  - destruct fh as [fh|]; [|by left].
    upload_cases s env o b fh w; try by left.
    + left. unfold compensated, written. by destruct (fails env (CRemoveObject _ _)).
    + left. unfold compensated, written. by destruct (fails env (CRemoveObject _ _)).
    + right. right. right. left. by exists (upload_id env), (upload_row env b fh).
    + right. right. right. left. by exists (upload_id env), (upload_row env b fh).
  - left. by rewrite List_reads.
  - left. by rewrite Download_reads.
  - delete_cases s env o b f w; try by left.
    all: right; right; right; right; by exists f.
Qed.

(** X28: two invariants of the tables survive every call of the bucket
    service and of the file service, whatever the calls return and whatever
    fails on the way: every file row is in a bucket that exists, and no
    owner has two buckets of the same name. *)
Theorem service_calls_keep_keys ops w :
  files_in_buckets w -> names_unique w ->
  files_in_buckets (after_all ops w) /\ names_unique (after_all ops w).
Proof.
  revert w. induction ops as [|op ops IH]; intros w Hfk Hun; [done|].
  simpl. apply IH.
  - destruct (after_tables op w)
      as [[Hb Hf]|[(id & row & Hid & _ & Hb & Hf)|[(b & Hb & Hf)|[(id & m & Hm & Hb & Hf)
         |(f & Hb & Hf)]]]];
      intros k m'; rewrite Hb, Hf.
    + apply Hfk.
    + intros Hk. destruct (Hfk k m' Hk) as [r Hr]. exists r.
      rewrite lookup_insert_ne; [done|]. intros ->. congruence.
    + intros Hk. apply map_lookup_filter_Some in Hk as [Hk Hne]. simpl in Hne.
      rewrite lookup_delete_ne by done. by apply (Hfk k).
    + intros Hk. destruct (decide (id = k)) as [->|Hne].
      * rewrite lookup_insert_eq in Hk. by injection Hk as <-.
      * rewrite lookup_insert_ne in Hk by done. by apply (Hfk k).
    + intros Hk. apply lookup_delete_Some in Hk as [_ Hk]. by apply (Hfk k).
  - destruct (after_tables op w)
      as [[Hb Hf]|[(id & row & Hid & Hfree & Hb & Hf)|[(b & Hb & Hf)|[(id & m & Hm & Hb & Hf)
         |(f & Hb & Hf)]]]];
      intros id1 id2 r1 r2; rewrite Hb; try apply Hun.
    + destruct (decide (id = id1)) as [<-|H1], (decide (id = id2)) as [<-|H2];
        rewrite ?lookup_insert_eq, ?lookup_insert_ne by done; try done.
      * intros [= <-] Hr2 Ho Hn. destruct Hfree. by exists id2, r2.
      * intros Hr1 [= <-] Ho Hn. destruct Hfree. by exists id1, r1.
      * apply Hun.
    + intros H1 H2. apply lookup_delete_Some in H1 as [_ H1].
      apply lookup_delete_Some in H2 as [_ H2]. by apply Hun.
Qed.

Lemma service_calls_keep_keys_witness :
  files_in_buckets (after_all bad_day scenario.w0) /\
  names_unique (after_all bad_day scenario.w0).
Proof.
  apply (service_calls_keep_keys bad_day scenario.w0).
  - intros id m Hm. change (files scenario.w0) with (∅ : gmap string Metadata) in Hm.
    by rewrite lookup_empty in Hm.
  - intros id1 id2 r1 r2.
    change (buckets scenario.w0) with (<[scenario.docs := mkBucketRow scenario.U "docs" None 1 1]>
                                         (∅ : gmap string BucketRow)).
    intros H1 H2 _ _.
    apply lookup_insert_Some in H1 as [[<- _]|[_ H1]]; [|by rewrite lookup_empty in H1].
    apply lookup_insert_Some in H2 as [[<- _]|[_ H2]]; [|by rewrite lookup_empty in H2].
    done.
Defined.

(** ** The presigned handler behind the middleware *)

(** X29: behind AuthMiddleware the handler of presigned URLs signs nothing.
    The middleware stores the user under the key godriveUser, where
    RequireUser finds it; the handler reads the string under the key userID,
    which the middleware does not set, so it reads the empty string, no
    bucket has the empty string as owner, and the handler answers without
    200 and without a signing call, and changes nothing. *)
Theorem presigned_handler_behind_auth_middleware strings_ToLower ValidateAccessToken
    parse_uuid parse_duration s env header keys keys' bucketID fileID method ttl w :
  keys !! "userID" = None ->
  auth.AuthMiddleware strings_ToLower ValidateAccessToken header keys = inr keys' ->
  (forall id row, buckets w !! id = Some row -> row_owner_id row <> "") ->
  is_Some (auth.CurrentUser keys') /\
  gin.GetString keys' "userID" = "" /\
  exists resp,
    result_of (presigned.GeneratePresignedURL parse_uuid parse_duration s env
                 (presigned_request keys' bucketID fileID method ttl) w) = inr resp /\
    presigned.status resp <> 200 /\
    (forall c n r,
       ~ In (CPresignedGetObject c n, r)
            (trace_of (presigned.GeneratePresignedURL parse_uuid parse_duration s env
                         (presigned_request keys' bucketID fileID method ttl) w)) /\
       ~ In (CPresignedPutObject c n, r)
            (trace_of (presigned.GeneratePresignedURL parse_uuid parse_duration s env
                         (presigned_request keys' bucketID fileID method ttl) w))) /\
    world_of (presigned.GeneratePresignedURL parse_uuid parse_duration s env
                (presigned_request keys' bucketID fileID method ttl) w) = w.
Proof.
  intros Hkeys Hmw Howners.
  assert (exists u, keys' = <[auth.userContextKey := gin.UserValue u]> keys) as [u ->].
  { revert Hmw. unfold auth.AuthMiddleware.
    case_bool_decide; [done|]. case_bool_decide; [done|].
    destruct (ValidateAccessToken _) as [claims|]; [|done].
    intros [= <-]. by eexists. }
  assert (gin.GetString (<[auth.userContextKey := gin.UserValue u]> keys) "userID" = "")
    as Hnone.
  { unfold gin.GetString. rewrite lookup_insert_ne by done. by rewrite Hkeys. }
  split; [|split; [done|]].
  { unfold auth.CurrentUser. rewrite lookup_insert_eq. by eexists. }
  unfold presigned_request. rewrite Hnone.
  unfold presigned.GeneratePresignedURL, presigned.GetBucketByID, presigned.GetFileByID,
    presigned.respond.
  run_monad.
  destruct (if bool_decide (ttl <> "") then parse_duration ttl
            else Some (presigned.access_ttl s)) as [d|]; simpl;
    [|eexists; repeat split; try done; by intros []].
  destruct (parse_uuid bucketID) as [bid|]; simpl;
    [|eexists; repeat split; try done; by intros []].
  destruct (parse_uuid fileID) as [fid|]; simpl;
    [|eexists; repeat split; try done; by intros []].
  destruct (fails env (CBucketGetByID bid)); simpl;
    [eexists; repeat split; try done; intros [E|[]]; discriminate E|].
  destruct (buckets w !! bid) as [row|] eqn:Hrow; simpl;
    [|eexists; repeat split; try done; intros [E|[]]; discriminate E].
  destruct (fails env (CFileGetByID fid)); simpl;
    [eexists; repeat split; try done; intros [E|[E|[]]]; discriminate E|].
  destruct (files w !! fid) as [file|]; simpl;
    [|eexists; repeat split; try done; intros [E|[E|[]]]; discriminate E].
  rewrite bool_decide_eq_true_2 by (by apply (Howners bid)). simpl.
  eexists; repeat split; try done; intros [E|[E|[]]]; discriminate E.
Qed.

Lemma presigned_handler_behind_auth_middleware_witness :
  gin.GetString (<[auth.userContextKey := gin.UserValue user_U]> (∅ : auth.Keys)) "userID" = "".
Proof.
  apply (presigned_handler_behind_auth_middleware lower_case_already every_token
           parse_canonical no_duration asvc scenario.calm "bearer abc" ∅
           (<[auth.userContextKey := gin.UserValue user_U]> ∅)
           scenario.docs scenario.f1 None "" w1).
  - apply lookup_empty.
  - vm_compute. reflexivity.
  - intros id row Hrow. apply w1_bucket_rows in Hrow as [_ ->]. discriminate.
Defined.
